(** * Route planning over an OSM road graph: nearest-node snapping and A* search

    Shallow embedding of [routingUtils] (findNearestNode, haversineDistance,
    buildAdjacencyList, heuristicDistance, calculateRoute), of the
    [RouteVisualization] component that calls it (its effect, what it
    renders, centre and zoom of the map) and of the [Visual] that feeds the
    component (parsing and validation of the coordinates, rendering), in its
    two versions.

    Numbers.  A JavaScript [number] is an IEEE double.  Finite doubles are
    idealised as real numbers with exact arithmetic, with one exception.  In
    exact arithmetic the haversine term [a] lies in [0, 1]
    ([haversine_term_bounds]); in double arithmetic it comes out just above 1
    for some pairs of nearly antipodal points, [Math.sqrt(1 - a)] is then
    NaN, and so are the distance and every estimate and fScore made from it.
    For which points this happens depends on the sine and cosine of the
    platform, so it is left open: [term_exceeds_one] says where the term
    comes out above 1, and is asked only where the exact term is above 1/2.
    [Infinity], which the code uses as the initial value of every score and
    of the running minimum, is kept as a separate value, and so is NaN where
    it can occur.  Latitudes, longitudes, lengths and travel times come from
    a JSON file or from validated text input, so they are finite.  Where the
    visual parses and validates its input, [NaN] and both infinities are
    values of their own.

    Objects and collections.  [graph.nodes] is a JS object used as a map:
    it is the list of its (key, node) entries in the order [for ... in]
    enumerates them (integer keys in ascending order), a key being the
    decimal string of an integer and identified with that integer.  The
    [Map]s of the search are [gmap]s; the open set is a JS [Set], iterated in
    insertion order, hence a list.

    Loops.  The two [while] loops run on fuel that [calculateRoute] fixes
    from the graph; [astar_total] shows that it never runs out, so the
    outcome [Diverges] does not occur. *)

From Stdlib Require Import Reals Lra ZArith List Lia.
From stdpp Require Import gmap list.
Import ListNotations.

#[local] Open Scope Z_scope.

#[global] Instance Rlt_decision : RelDecision Rlt := Rlt_dec.
#[global] Instance Rle_decision : RelDecision Rle := Rle_dec.
#[global] Instance Rgt_decision : RelDecision Rgt := Rgt_dec.
#[global] Instance Req_decision : EqDecision R := Req_dec_T.

(** ** JavaScript numbers *)

Module Num.

Inductive number : Type :=
| Fin (r : R)
| Infinity.

(** [a < b] *)
Definition lt (a b : number) : bool :=
  match a, b with
  | Fin x, Fin y => bool_decide (x < y)%R
  | Fin _, Infinity => true
  | Infinity, _ => false
  end.

(** [a >= b] *)
Definition ge (a b : number) : bool :=
  match a, b with
  | Infinity, _ => true
  | Fin _, Infinity => false
  | Fin x, Fin y => bool_decide (y <= x)%R
  end.

(** [a + b] *)
Definition add (a b : number) : number :=
  match a, b with
  | Fin x, Fin y => Fin (x + y)
  | _, _ => Infinity
  end.

(** [a === Infinity] *)
Definition is_infinity (a : number) : bool :=
  match a with
  | Infinity => true
  | Fin _ => false
  end.

(** [m.get(k) || d]: [undefined] and [0] are falsy. *)
Definition or_else (o : option number) (d : number) : number :=
  match o with
  | None => d
  | Some (Fin r) => if decide (r = 0%R) then d else Fin r
  | Some Infinity => Infinity
  end.

(** A double where NaN can occur: a distance, an estimate, an fScore. *)
Inductive double : Type :=
| NaN
| Number (x : number).

(** [a + b], where [b] may be NaN *)
Definition add_double (a : number) (b : double) : double :=
  match b with
  | NaN => NaN
  | Number y => Number (add a y)
  end.

(** [a / r] and [a * r], for a finite [r > 0] *)
Definition div_double (a : double) (r : R) : double :=
  match a with
  | Number (Fin x) => Number (Fin (x / r))
  | _ => a
  end.

Definition mul_double (a : double) (r : R) : double :=
  match a with
  | Number (Fin x) => Number (Fin (x * r))
  | _ => a
  end.

(** [m.get(k) || d], where the entry may be NaN: [undefined], [0] and
    [NaN] are falsy. *)
Definition or_else_double (o : option double) (d : number) : number :=
  match o with
  | None => d
  | Some NaN => d
  | Some (Number x) => or_else (Some x) d
  end.

End Num.

Export Num (number, Fin, Infinity, double, NaN, Number).

Coercion Num.Number : number >-> double.

(** ** Data model *)

Record GraphNode : Type := mkNode {
  n_id : Z;
  n_lat : R;
  n_lon : R
}.

Record GraphEdge : Type := mkEdge {
  e_from : Z;
  e_to : Z;
  e_length : R;
  e_travel_time : R;
  e_maxspeed : option R
}.

Record GraphData : Type := mkGraph {
  nodes : list (Z * GraphNode);
  edges : list GraphEdge;
  node_count : Z;
  edge_count : Z
}.

Record Coordinate : Type := mkCoord {
  lat : R;
  lon : R
}.

(** [graph.nodes[key]] *)
Fixpoint assoc_get (entries : list (Z * GraphNode)) (key : Z) : option GraphNode :=
  match entries with
  | [] => None
  | (k, node) :: rest => if decide (k = key) then Some node else assoc_get rest key
  end.

Definition nodes_get (graph : GraphData) (key : Z) : option GraphNode :=
  assoc_get (nodes graph) key.

(** ** The visual: coordinates from the formatting pane

    [Visual] of visual.ts in the version that reads the four coordinate
    texts from the formatting pane.  [parseFloat] and [String.prototype.trim]
    are functions of the platform and are left open.  The React root is made
    by the constructor and never dropped, so that the test [!this.reactRoot]
    is false and a render call always renders. *)

Module Visual.
Import String.

(** A JavaScript number where [NaN] and both infinities can occur: a
    parsed text, a dimension of the viewport. *)
Inductive jsnumber : Type :=
| NaN
| NegInfinity
| Finite (r : R)
| PosInfinity.

Definition isNaN (x : jsnumber) : bool :=
  match x with NaN => true | _ => false end.

(** [x >= c] and [x <= c], for a finite [c]. *)
Definition ge (x : jsnumber) (c : R) : bool :=
  match x with
  | NaN | NegInfinity => false
  | Finite r => bool_decide (c <= r)%R
  | PosInfinity => true
  end.

Definition le (x : jsnumber) (c : R) : bool :=
  match x with
  | NaN | PosInfinity => false
  | Finite r => bool_decide (r <= c)%R
  | NegInfinity => true
  end.

(** [x || d]: [NaN] and [0] are falsy. *)
Definition or_else (x : jsnumber) (d : R) : jsnumber :=
  match x with
  | NaN => Finite d
  | Finite r => if decide (r = 0%R) then Finite d else Finite r
  | NegInfinity => NegInfinity
  | PosInfinity => PosInfinity
  end.

(** [Math.max(x, c)], for a finite [c]. *)
Definition Math_max (x : jsnumber) (c : R) : jsnumber :=
  match x with
  | NaN => NaN
  | NegInfinity => Finite c
  | Finite r => Finite (Rmax r c)
  | PosInfinity => PosInfinity
  end.

(** [{ lat, lon }] as the visual holds it. *)
Record Coordinate : Type := mkCoordinate {
  lat : jsnumber;
  lon : jsnumber
}.

(** The [value]s of the four text inputs of the coordinates card. *)
Record CoordinatesCardSettings : Type := mkCard {
  startLatitude : string;
  startLongitude : string;
  endLatitude : string;
  endLongitude : string
}.

Record VisualFormattingSettingsModel : Type := mkModel {
  coordinatesCard : option CoordinatesCardSettings
}.

(** [new VisualFormattingSettingsModel()], with the texts of settings.ts. *)
Definition default_model : VisualFormattingSettingsModel :=
  mkModel (Some (mkCard "51.4643" "-0.1660" "51.4907" "-0.2067")).

(** The fields of the visual that the rendering depends on. *)
Record State : Type := mkState {
  formattingSettings : option VisualFormattingSettingsModel;
  graphData : option GraphData;
  startCoord : option Coordinate;
  endCoord : option Coordinate;
  width : jsnumber;
  height : jsnumber
}.

Definition initial : State := mkState None None None None (Finite 0) (Finite 0).

Definition isValidCoordinate (lat lon : jsnumber) : bool :=
  negb (isNaN lat) && negb (isNaN lon) &&
  ge lat (-90) && le lat 90 &&
  ge lon (-180) && le lon 180.

(** What [renderVisual] hands to the React root. *)
Inductive View : Type :=
| CoordinatesRequired (width height : jsnumber)
| LoadingGraphData (width height : jsnumber)
| RouteVisualization (startCoord endCoord : Coordinate) (graphData : GraphData)
    (width height : jsnumber).

Definition renderVisual (st : State) : View :=
  let width := Math_max (or_else (width st) 200) 200 in
  let height := Math_max (or_else (height st) 200) 200 in
  match startCoord st, endCoord st with
  | Some startCoord, Some endCoord =>
      match graphData st with
      | None => LoadingGraphData width height
      | Some graphData => RouteVisualization startCoord endCoord graphData width height
      end
  | _, _ => CoordinatesRequired width height
  end.

Section Platform.
Variable parseFloat : string -> jsnumber.
Variable trim : string -> string.

Definition parseCoordinateValue (value : string) : jsnumber :=
  if bool_decide (value = EmptyString) || bool_decide (trim value = EmptyString) then NaN
  else
    let parsed := parseFloat (trim value) in
    if isNaN parsed then NaN else parsed.

Definition set_coords (st : State) (s e : option Coordinate) : State :=
  mkState (formattingSettings st) (graphData st) s e (width st) (height st).

Definition parseCoordinatesFromSettings (st : State) : State :=
  match formattingSettings st with
  | Some (mkModel (Some coords)) =>
      let startLat := parseCoordinateValue (startLatitude coords) in
      let startLon := parseCoordinateValue (startLongitude coords) in
      let endLat := parseCoordinateValue (endLatitude coords) in
      let endLon := parseCoordinateValue (endLongitude coords) in
      if isValidCoordinate startLat startLon && isValidCoordinate endLat endLon then
        set_coords st (Some (mkCoordinate startLat startLon))
                      (Some (mkCoordinate endLat endLon))
      else set_coords st None None
  | _ =>
      set_coords st (Some (mkCoordinate (Finite 51.4643) (Finite (-0.1660))))
                    (Some (mkCoordinate (Finite 51.4907) (Finite (-0.2067))))
  end.

(** [update(options)]: [populated] is what the formatting service made of
    the data view, [None] when it threw; the viewport gives the size. *)
Definition update (populated : option VisualFormattingSettingsModel)
    (viewport_width viewport_height : jsnumber) (st : State) : State * View :=
  let formattingSettings :=
    match populated with
    | Some model => model
    | None => default_model
    end in
  let st1 := mkState (Some formattingSettings) (graphData st) (startCoord st) (endCoord st)
               viewport_width viewport_height in
  let st2 := parseCoordinatesFromSettings st1 in
  (st2, renderVisual st2).

(** The end of [loadGraphData] when a fetch succeeds: the graph is stored
    and the visual is rendered again. *)
Definition loadGraphData (data : GraphData) (st : State) : State * View :=
  let st1 := mkState (formattingSettings st) (Some data) (startCoord st) (endCoord st)
               (width st) (height st) in
  (st1, renderVisual st1).

(** What happens to the visual after its construction. *)
Inductive Event : Type :=
| Update (populated : option VisualFormattingSettingsModel)
    (viewport_width viewport_height : jsnumber)
| GraphLoaded (data : GraphData).

Definition step (ev : Event) (st : State) : State * View :=
  match ev with
  | Update populated w h => update populated w h st
  | GraphLoaded data => loadGraphData data st
  end.

(** The state after a sequence of events and the views rendered on the
    way, in order. *)
Fixpoint run (events : list Event) (st : State) : State * list View :=
  match events with
  | [] => (st, [])
  | ev :: rest =>
      let '(st1, view) := step ev st in
      let '(st2, views) := run rest st1 in
      (st2, view :: views)
  end.

End Platform.

(** A coordinate of finite numbers, the latitude between -90 and 90 and
    the longitude between -180 and 180. *)
Definition in_range (c : Coordinate) : Prop :=
  ∃ x y, c = mkCoordinate (Finite x) (Finite y) ∧
         (-90 <= x <= 90)%R ∧ (-180 <= y <= 180)%R.

(** A dimension of at least 200. *)
Definition at_least_200 (x : jsnumber) : Prop :=
  x = PosInfinity ∨ ∃ r, x = Finite r ∧ (200 <= r)%R.

(** The two coordinates are both absent, or both present and in range. *)
Definition valid_state (st : State) : Prop :=
  (startCoord st = None ∧ endCoord st = None) ∨
  (∃ s e, startCoord st = Some s ∧ endCoord st = Some e ∧ in_range s ∧ in_range e).

(** A view of a size of at least 200 by 200 that, when it is the route
    component, is given coordinates in range. *)
Definition valid_view (view : View) : Prop :=
  match view with
  | CoordinatesRequired w h | LoadingGraphData w h => at_least_200 w ∧ at_least_200 h
  | RouteVisualization s e _ w h =>
      in_range s ∧ in_range e ∧ at_least_200 w ∧ at_least_200 h
  end.

End Visual.

(** ** The visual: coordinates from a table row

    [Visual] of visual.ts in the version that reads the coordinates from
    the first row of the table of the data view.  Numbers, coordinates and
    [isValidCoordinate] are those of the other version. *)

Module TableVisual.
Import String.

(** A cell of a table row: a number, a text, or something else (a
    boolean, a date, [null]). *)
Inductive PrimitiveValue : Type :=
| PNumber (x : Visual.jsnumber)
| PString (s : string)
| POther.

(** [dataView.table], when there is one, by its rows. *)
Record DataView : Type := mkDataView {
  table : option (list (list PrimitiveValue))
}.

Record State : Type := mkState {
  graphData : option GraphData;
  startCoord : option Visual.Coordinate;
  endCoord : option Visual.Coordinate;
  width : Visual.jsnumber;
  height : Visual.jsnumber
}.

Definition initial : State :=
  mkState None None None (Visual.Finite 0) (Visual.Finite 0).

Definition renderVisual (st : State) : Visual.View :=
  match startCoord st, endCoord st with
  | Some startCoord, Some endCoord =>
      match graphData st with
      | None => Visual.LoadingGraphData (width st) (height st)
      | Some graphData =>
          Visual.RouteVisualization startCoord endCoord graphData (width st) (height st)
      end
  | _, _ => Visual.CoordinatesRequired (width st) (height st)
  end.

Definition set_coords (st : State) (s e : option Visual.Coordinate) : State :=
  mkState (graphData st) s e (width st) (height st).

Section Platform.
Variable parseFloat : string -> Visual.jsnumber.

Definition parseValue (value : PrimitiveValue) : Visual.jsnumber :=
  match value with
  | PNumber x => x
  | PString s =>
      let parsed := parseFloat s in
      if Visual.isNaN parsed then Visual.Finite 0 else parsed
  | POther => Visual.Finite 0
  end.

(** "Expected order: startLat, startLon, endLat, endLon", read from the
    first row when it has at least four cells. *)
Definition parseDataView (dataView : DataView) (st : State) : State :=
  match table dataView with
  | None => st
  | Some [] => st
  | Some (row :: _) =>
      match row with
      | v0 :: v1 :: v2 :: v3 :: _ =>
          let startLat := parseValue v0 in
          let startLon := parseValue v1 in
          let endLat := parseValue v2 in
          let endLon := parseValue v3 in
          if Visual.isValidCoordinate startLat startLon &&
             Visual.isValidCoordinate endLat endLon
          then set_coords st (Some (Visual.mkCoordinate startLat startLon))
                             (Some (Visual.mkCoordinate endLat endLon))
          else st
      | _ => st
      end
  end.

(** [update(options)]: [dataViews] is [options.dataViews], the viewport
    gives the size.  [populated] is [false] when the formatting service
    throws: nothing catches the exception, which leaves [update] before
    anything is stored or rendered. *)
Definition update (populated : bool) (dataViews : option (list DataView))
    (viewport_width viewport_height : Visual.jsnumber) (st : State)
    : State * list Visual.View :=
  if populated then
    let st1 := mkState (graphData st) (startCoord st) (endCoord st)
                 viewport_width viewport_height in
    let st2 :=
      match dataViews with
      | Some (dataView :: _) => parseDataView dataView st1
      | _ => st1
      end in
    (st2, [renderVisual st2])
  else (st, []).

(** The end of [loadGraphData] when a fetch succeeds: the graph is
    stored, and the visual is rendered again if it has its coordinates. *)
Definition loadGraphData (data : GraphData) (st : State) : State * list Visual.View :=
  let st1 := mkState (Some data) (startCoord st) (endCoord st) (width st) (height st) in
  match startCoord st1, endCoord st1 with
  | Some _, Some _ => (st1, [renderVisual st1])
  | _, _ => (st1, [])
  end.

Inductive Event : Type :=
| Update (populated : bool) (dataViews : option (list DataView))
    (viewport_width viewport_height : Visual.jsnumber)
| GraphLoaded (data : GraphData).

Definition step (ev : Event) (st : State) : State * list Visual.View :=
  match ev with
  | Update populated dataViews w h => update populated dataViews w h st
  | GraphLoaded data => loadGraphData data st
  end.

Fixpoint run (events : list Event) (st : State) : State * list Visual.View :=
  match events with
  | [] => (st, [])
  | ev :: rest =>
      let '(st1, shown) := step ev st in
      let '(st2, views) := run rest st1 in
      (st2, shown ++ views)
  end.

End Platform.

Definition valid_state (st : State) : Prop :=
  (startCoord st = None ∧ endCoord st = None) ∨
  (∃ s e, startCoord st = Some s ∧ endCoord st = Some e ∧
          Visual.in_range s ∧ Visual.in_range e).

(** A cell that [parseValue] reads as 0 for want of a number: a text that
    [parseFloat] cannot read, or a cell that is neither number nor text. *)
Definition unreadable (parseFloat : string -> Visual.jsnumber) (value : PrimitiveValue)
    : Prop :=
  value = POther ∨ ∃ s, value = PString s ∧ parseFloat s = Visual.NaN.

End TableVisual.

(** ** Haversine distance *)

Definition Math_PI : R := PI.
Definition Math_sin : R -> R := sin.
Definition Math_cos : R -> R := cos.

(** [Math.sqrt] of a number that is not negative; of a negative number it
    is NaN, which [haversineDistance] sets apart before it takes the root. *)
Definition Math_sqrt : R -> R := sqrt.

(** [Math.atan2(y, x)], the angle of the point (x, y). *)
Definition Math_atan2 (y x : R) : R :=
  if decide (0 < x)%R then atan (y / x)
  else if decide (x < 0)%R then
    if decide (0 <= y)%R then (atan (y / x) + PI)%R else (atan (y / x) - PI)%R
  else if decide (0 < y)%R then (PI / 2)%R
  else if decide (y < 0)%R then (- (PI / 2))%R
  else 0%R.

Definition toRadians (degrees : R) : R := (degrees * (Math_PI / 180))%R.

(** The term [a] of [haversineDistance], in exact arithmetic. *)
Definition haversine_term (lat1 lon1 lat2 lon2 : R) : R :=
  let dLat := toRadians (lat2 - lat1) in
  let dLon := toRadians (lon2 - lon1) in
  (Math_sin (dLat / 2) * Math_sin (dLat / 2) +
   Math_cos (toRadians lat1) * Math_cos (toRadians lat2) *
   Math_sin (dLon / 2) * Math_sin (dLon / 2))%R.

(** ** Platforms

    Where the haversine term of the points (lat1, lon1) and (lat2, lon2)
    comes out above 1 in the double arithmetic of the platform.  Two
    platforms to run examples on: one whose arithmetic never rounds the term
    above 1, and one that rounds it above 1 where it is 1 in exact
    arithmetic, between antipodes. *)

Definition never_above_one : R -> R -> R -> R -> bool := λ _ _ _ _, false.

Definition above_one_at_antipodes : R -> R -> R -> R -> bool :=
  λ lat1 lon1 lat2 lon2, bool_decide (1 <= haversine_term lat1 lon1 lat2 lon2)%R.

Section Doubles.

(** [term_exceeds_one lat1 lon1 lat2 lon2]: the platform computes a term
    above 1 for these two points. *)
Variable term_exceeds_one : R -> R -> R -> R -> bool.

(** The test stands for [1 - a < 0] in the arithmetic of the platform:
    where the term comes out above 1, [Math.sqrt(1 - a)] is NaN, and so are
    [c] and [R * c].  Rounding moves the term by a few units in the last
    place, so this takes an exact term close to 1; the model asks no more
    than that it be above 1/2. *)
Definition haversineDistance (lat1 lon1 lat2 lon2 : R) : double :=
  let R_ := 6371%R in
  let a := haversine_term lat1 lon1 lat2 lon2 in
  if bool_decide (1 / 2 < a)%R && term_exceeds_one lat1 lon1 lat2 lon2 then NaN
  else
    let c := (2 * Math_atan2 (Math_sqrt a) (Math_sqrt (1 - a)))%R in
    Fin (R_ * c).

(** ** findNearestNode *)

(** One round of the scan.  A distance that is NaN is below no running
    minimum: [distance < minDistance] is false. *)
Definition nearest_step (point : Coordinate) (acc : number * Z)
    (entry : Z * GraphNode) : number * Z :=
  let '(minDistance, nearestNodeId) := acc in
  let node := snd entry in
  match haversineDistance (lat point) (lon point) (n_lat node) (n_lon node) with
  | Number distance =>
      if Num.lt distance minDistance then (distance, n_id node)
      else (minDistance, nearestNodeId)
  | NaN => (minDistance, nearestNodeId)
  end.

Definition findNearestNode (graph : GraphData) (point : Coordinate) : Z :=
  snd (fold_left (nearest_step point) (nodes graph) (Infinity, -1)).

(** ** buildAdjacencyList *)

Record Neighbor : Type := mkNeighbor {
  nb_node : Z;
  nb_weight : R
}.

#[global] Instance Neighbor_eq_dec : EqDecision Neighbor.
Proof. solve_decision. Defined.

(** "Use travel_time as weight (for fastest route) or length (for shortest)". *)
Definition edge_weight (edge : GraphEdge) : R :=
  if decide (e_travel_time edge > 0)%R then e_travel_time edge else e_length edge.

Definition adjacency_step (adjacencyList : gmap Z (list Neighbor)) (edge : GraphEdge)
    : gmap Z (list Neighbor) :=
  let adjacencyList1 :=
    match adjacencyList !! e_from edge with
    | None => <[e_from edge := []]> adjacencyList
    | Some _ => adjacencyList
    end in
  let weight := edge_weight edge in
  <[e_from edge :=
      default [] (adjacencyList1 !! e_from edge) ++ [mkNeighbor (e_to edge) weight]]>
    adjacencyList1.

Definition buildAdjacencyList (graph : GraphData) : gmap Z (list Neighbor) :=
  fold_left adjacency_step (edges graph) ∅.

(** [adjacencyList.get(u) || []] *)
Definition neighbors (adjacencyList : gmap Z (list Neighbor)) (u : Z) : list Neighbor :=
  default [] (adjacencyList !! u).

(** ** heuristicDistance *)

Definition heuristicDistance (graph : GraphData) (nodeId endNodeId : Z) : double :=
  match nodes_get graph nodeId, nodes_get graph endNodeId with
  | Some node, Some endNode =>
      let distanceKm :=
        haversineDistance (n_lat node) (n_lon node) (n_lat endNode) (n_lon endNode) in
      let averageSpeedKmh := 50%R in
      let timeEstimate := Num.mul_double (Num.div_double distanceKm averageSpeedKmh) 3600 in
      timeEstimate
  | _, _ => Infinity
  end.

(** ** calculateRoute *)

(** The tables of one search.  Of [closedSet] only membership is observed;
    it is kept most recently closed first. *)
Record SearchState : Type := mkState {
  gScore : gmap Z number;
  fScore : gmap Z double;
  previous : gmap Z (option Z);
  openSet : list Z;
  closedSet : list Z
}.

Definition empty_state : SearchState :=
  mkState ∅ ∅ ∅ [] [].

(** "Initialize scores": one round per entry of [graph.nodes]. *)
Definition init_step (st : SearchState) (entry : Z * GraphNode) : SearchState :=
  let node := snd entry in
  mkState (<[n_id node := Infinity]> (gScore st))
          (<[n_id node := Number Infinity]> (fScore st))
          (<[n_id node := None]> (previous st))
          (openSet st) (closedSet st).

(** "Initialize start node". *)
Definition init_state (graph : GraphData) (startNode endNode : Z) : SearchState :=
  let st := fold_left init_step (nodes graph) empty_state in
  let hStart := heuristicDistance graph startNode endNode in
  mkState (<[startNode := Fin 0]> (gScore st))
          (<[startNode := hStart]> (fScore st))
          (previous st)
          (openSet st ++ [startNode]) (closedSet st).

(** "Find node in openSet with lowest fScore". *)
Definition lowest_step (fScore : gmap Z double) (acc : Z * number) (nodeId : Z)
    : Z * number :=
  let '(currentNode, minFScore) := acc in
  let f := Num.or_else_double (fScore !! nodeId) Infinity in
  if Num.lt f minFScore then (nodeId, f) else (currentNode, minFScore).

Definition select_lowest (fScore : gmap Z double) (openSet : list Z) : Z * number :=
  fold_left (lowest_step fScore) openSet (-1, Infinity).

(** [previous.get(pathNode) || null]: [undefined], [null] and [0] are falsy. *)
Definition previous_or_null (previous : gmap Z (option Z)) (pathNode : Z) : option Z :=
  match previous !! pathNode with
  | Some (Some p) => if decide (p = 0) then None else Some p
  | _ => None
  end.

(** The [while (pathNode !== null)] loop of the reconstruction; [None] when
    the fuel runs out. *)
Fixpoint reconstruct (fuel : nat) (previous : gmap Z (option Z))
    (pathNode : option Z) (path : list Z) : option (list Z) :=
  match pathNode with
  | None => Some path
  | Some n =>
      match fuel with
      | O => None
      | S fuel' => reconstruct fuel' previous (previous_or_null previous n) (n :: path)
      end
  end.

(** "Convert node IDs to coordinates", skipping ids without a node. *)
Fixpoint path_coords (graph : GraphData) (path : list Z) : list Coordinate :=
  match path with
  | [] => []
  | nodeId :: rest =>
      match nodes_get graph nodeId with
      | Some node => mkCoord (n_lat node) (n_lon node) :: path_coords graph rest
      | None => path_coords graph rest
      end
  end.

(** "This path is the best so far, record it". *)
Definition record_best (graph : GraphData) (endNode currentNode : Z)
    (tentativeGScore : number) (neighbor : Neighbor) (st : SearchState) : SearchState :=
  let h := heuristicDistance graph (nb_node neighbor) endNode in
  mkState (<[nb_node neighbor := tentativeGScore]> (gScore st))
          (<[nb_node neighbor := Num.add_double tentativeGScore h]> (fScore st))
          (<[nb_node neighbor := Some currentNode]> (previous st))
          (openSet st) (closedSet st).

Definition open_add (nodeId : Z) (st : SearchState) : SearchState :=
  mkState (gScore st) (fScore st) (previous st) (openSet st ++ [nodeId]) (closedSet st).

(** One round of "Explore neighbors". *)
Definition relax (graph : GraphData) (endNode currentNode : Z)
    (st : SearchState) (neighbor : Neighbor) : SearchState :=
  if bool_decide (nb_node neighbor ∈ closedSet st) then st
  else
    let tentativeGScore :=
      Num.add (Num.or_else (gScore st !! currentNode) (Fin 0)) (Fin (nb_weight neighbor)) in
    if negb (bool_decide (nb_node neighbor ∈ openSet st)) then
      record_best graph endNode currentNode tentativeGScore neighbor
        (open_add (nb_node neighbor) st)
    else if Num.ge tentativeGScore (Num.or_else (gScore st !! nb_node neighbor) Infinity)
    then st
    else record_best graph endNode currentNode tentativeGScore neighbor st.

(** "Move current node from openSet to closedSet". *)
Definition close_node (currentNode : Z) (st : SearchState) : SearchState :=
  mkState (gScore st) (fScore st) (previous st)
          (filter (λ n, n ≠ currentNode) (openSet st))
          (currentNode :: closedSet st).

Inductive SearchResult : Type :=
| PathFound (path : list Z)
| NoPath
| OutOfFuel.

(** The main [while (openSet.size > 0)] loop.  Fuel is spent on the back
    edge only. *)
Fixpoint search (fuel : nat) (graph : GraphData) (adjacencyList : gmap Z (list Neighbor))
    (endNode : Z) (st : SearchState) : SearchResult :=
  match openSet st with
  | [] => NoPath
  | _ :: _ =>
      let '(currentNode, minFScore) := select_lowest (fScore st) (openSet st) in
      if bool_decide (currentNode = -1) || Num.is_infinity minFScore then NoPath
      else if bool_decide (currentNode = endNode) then
        match reconstruct (S (length (closedSet st))) (previous st) (Some endNode) [] with
        | Some path => PathFound path
        | None => OutOfFuel
        end
      else
        match fuel with
        | O => OutOfFuel
        | S fuel' =>
            let st1 := close_node currentNode st in
            search fuel' graph adjacencyList endNode
              (fold_left (relax graph endNode currentNode)
                 (neighbors adjacencyList currentNode) st1)
        end
  end.

(** The search between two resolved node ids: every round of the main loop
    closes a node that is the start node or the target of an edge, so
    [S (length edges)] rounds are enough. *)
Definition astar (graph : GraphData) (startNode endNode : Z) : SearchResult :=
  search (S (length (edges graph))) graph (buildAdjacencyList graph) endNode
    (init_state graph startNode endNode).

(** The errors the function throws.  [NearestNodeNotFound] is "Could not
    find nearest nodes for the given coordinates", [NoPathFound] is "No path
    found between the given coordinates", [TypeError] is the engine's error
    for reading [lat] of [undefined]. *)
Inductive RouteError : Type :=
| NearestNodeNotFound
| NoPathFound
| TypeError.

Inductive Outcome : Type :=
| Returns (route : list Coordinate)
| Throws (e : RouteError)
| Diverges.

(** The body of [calculateRoute], with the search it runs between two
    distinct resolved nodes as a parameter. *)
Definition calculateRoute_with (search_from : GraphData -> Z -> Z -> SearchResult)
    (graph : GraphData) (startCoord endCoord : Coordinate) : Outcome :=
  let startNode := findNearestNode graph startCoord in
  let endNode := findNearestNode graph endCoord in
  if bool_decide (startNode = -1) || bool_decide (endNode = -1) then
    Throws NearestNodeNotFound
  else if bool_decide (startNode = endNode) then
    match nodes_get graph startNode with
    | Some node => Returns [mkCoord (n_lat node) (n_lon node)]
    | None => Throws TypeError
    end
  else
    match search_from graph startNode endNode with
    | PathFound path => Returns (path_coords graph path)
    | NoPath => Throws NoPathFound
    | OutOfFuel => Diverges
    end.

Definition calculateRoute : GraphData -> Coordinate -> Coordinate -> Outcome :=
  calculateRoute_with astar.

(** * Specification vocabulary *)

(** The keys of [graph.nodes] are the ids of the nodes stored under them,
    and no key occurs twice. *)
Definition well_formed (graph : GraphData) : Prop :=
  (∀ key node, In (key, node) (nodes graph) -> n_id node = key) ∧
  NoDup (map fst (nodes graph)).

(** Nearest-node resolution of [point] succeeded with node id [nodeId]:
    [findNearestNode] returned it and it is not the not-found marker -1
    that [calculateRoute] rejects.  A node whose id is -1 cannot be told
    from the marker and is never resolved to. *)
Definition snaps_to (graph : GraphData) (point : Coordinate) (nodeId : Z) : Prop :=
  findNearestNode graph point = nodeId ∧ nodeId ≠ -1.

Definition distance_to (point : Coordinate) (node : GraphNode) : double :=
  haversineDistance (lat point) (lon point) (n_lat node) (n_lon node).

Definition coord_of (node : GraphNode) : Coordinate :=
  mkCoord (n_lat node) (n_lon node).

(** [walk adj u path v cost]: [path] lists the nodes of a walk from [u] to
    [v] along adjacency entries whose weights add up to [cost]. *)
Inductive walk (adj : gmap Z (list Neighbor)) : Z -> list Z -> Z -> R -> Prop :=
| walk_stay u : walk adj u [u] u 0
| walk_edge u v w path t cost :
    In (mkNeighbor v w) (neighbors adj u) ->
    walk adj v path t cost ->
    walk adj u (u :: path) t (w + cost).

(** What [haversineDistance] returns where the term does not come out
    above 1. *)
Definition haversine_km (lat1 lon1 lat2 lon2 : R) : R :=
  let a := haversine_term lat1 lon1 lat2 lon2 in
  (6371 * (2 * Math_atan2 (Math_sqrt a) (Math_sqrt (1 - a))))%R.

(** The great-circle distance as the specification words it: the haversine
    formula in its half-angle form on a sphere of radius 6371 km, angles in
    radians. *)
Definition hav (angle : R) : R := (sin (angle / 2) * sin (angle / 2))%R.

Definition radians (degrees : R) : R := (degrees * PI / 180)%R.

Definition great_circle_km (lat1 lon1 lat2 lon2 : R) : R :=
  (2 * 6371 *
   asin (sqrt (hav (radians lat2 - radians lat1) +
               cos (radians lat1) * cos (radians lat2) *
               hav (radians lon2 - radians lon1))))%R.

(** The estimate in seconds at a constant 50 km/h. *)
Definition seconds_at_50kmh (km : R) : R := (km / 50 * 3600)%R.

(** The adjacency entry an edge contributes. *)
Definition neighbor_of (edge : GraphEdge) : Neighbor :=
  mkNeighbor (e_to edge) (edge_weight edge).

(** [a <= b] on numbers, as a proposition. *)
Definition nle (a b : number) : Prop :=
  match a, b with
  | Fin x, Fin y => (x <= y)%R
  | _, Infinity => True
  | Infinity, Fin _ => False
  end.

(** [fScore.get(n) || Infinity], the score the scan reads. *)
Definition read_f (st : SearchState) (n : Z) : number :=
  Num.or_else_double (fScore st !! n) Infinity.

(** One round of the main loop that reaches the back edge: the state it
    leaves.  [None] when the loop ends in this round. *)
Definition round (graph : GraphData) (adjacencyList : gmap Z (list Neighbor))
    (endNode : Z) (st : SearchState) : option SearchState :=
  match openSet st with
  | [] => None
  | _ :: _ =>
      let '(currentNode, minFScore) := select_lowest (fScore st) (openSet st) in
      if bool_decide (currentNode = -1) || Num.is_infinity minFScore then None
      else if bool_decide (currentNode = endNode) then None
      else Some (fold_left (relax graph endNode currentNode)
                   (neighbors adjacencyList currentNode)
                   (close_node currentNode st))
  end.

(** The result of the round in which the loop ends. *)
Definition finish (endNode : Z) (st : SearchState) : SearchResult :=
  match openSet st with
  | [] => NoPath
  | _ :: _ =>
      let '(currentNode, minFScore) := select_lowest (fScore st) (openSet st) in
      if bool_decide (currentNode = -1) || Num.is_infinity minFScore then NoPath
      else
        match reconstruct (S (length (closedSet st))) (previous st) (Some endNode) [] with
        | Some path => PathFound path
        | None => OutOfFuel
        end
  end.

(** The states the loop goes through. *)
Inductive rounds (graph : GraphData) (adjacencyList : gmap Z (list Neighbor))
    (endNode : Z) : SearchState -> SearchState -> Prop :=
| rounds_here st : rounds graph adjacencyList endNode st st
| rounds_next st st1 st2 :
    round graph adjacencyList endNode st = Some st1 ->
    rounds graph adjacencyList endNode st1 st2 ->
    rounds graph adjacencyList endNode st st2.

(** The scan for the lowest fScore finds nothing to expand: the open set is
    empty or every node in it reads as infinite. *)
Definition exhausted (st : SearchState) : Prop :=
  openSet st = [] ∨
  ∀ n, n ∈ openSet st -> read_f st n = Infinity.

(** ** Example graphs *)

(** Two nodes a thousandth of a degree apart on the equator and one edge. *)
Definition two_nodes : GraphData :=
  mkGraph [(1, mkNode 1 0 0); (2, mkNode 2 0 0.001)]
          [mkEdge 1 2 1 5 None] 2 1.

(** Two nodes at one and the same place, and an edge between them. *)
Definition twin_nodes : GraphData :=
  mkGraph [(1, mkNode 1 0 0); (2, mkNode 2 0 0)]
          [mkEdge 1 2 1 5 None] 2 1.

(** A graph whose keys are not the ids stored under them: the entries
    under keys 1 and 2 carry the ids 3 and 4, and the entries under keys 3
    and 4 lie at one and the same place. *)
Definition mislabelled : GraphData :=
  mkGraph [(1, mkNode 3 0 0); (2, mkNode 4 0 1);
           (3, mkNode 30 0 50); (4, mkNode 40 0 50)]
          [mkEdge 3 4 1 5 None] 4 1.

(** One node, at (-2.5, 180): the antipode of (2.5, 0). *)
Definition far_side : GraphData :=
  mkGraph [(1, mkNode 1 (-2.5) 180)] [] 1 0.

(** Two nodes at antipodes of each other and a road between them. *)
Definition antipodes : GraphData :=
  mkGraph [(1, mkNode 1 2.5 0); (2, mkNode 2 (-2.5) 180)]
          [mkEdge 1 2 1 5 None] 2 1.

(** ** Invariants of the search *)

(** Every node that can enter the open set: the start node and the targets
    of the edges. *)
Definition universe (graph : GraphData) (startNode : Z) : list Z :=
  startNode :: map e_to (edges graph).

(** The predecessor recorded for a closed node was closed before it. *)
Inductive chain (prev : gmap Z (option Z)) : list Z -> Prop :=
| chain_nil : chain prev []
| chain_cons c cs :
    chain prev cs ->
    (∀ p, prev !! c = Some (Some p) -> p ∈ cs) ->
    chain prev (c :: cs).

Record structural (graph : GraphData) (startNode : Z) (st : SearchState) : Prop := {
  st_nodup : NoDup (closedSet st);
  st_closed : ∀ n, n ∈ closedSet st -> n ∈ universe graph startNode;
  st_open : ∀ n, n ∈ openSet st -> n ∈ universe graph startNode ∧ n ∉ closedSet st;
  st_chain : chain (previous st) (closedSet st);
  st_open_pred : ∀ n p,
    n ∈ openSet st -> previous st !! n = Some (Some p) -> p ∈ closedSet st
}.

(** What the tables say about the nodes met so far: the scores of the start
    node, the fScore of an open node, and for every other node met the
    predecessor it was reached from, over which edge and at which cost. *)
Record scored (graph : GraphData) (startNode endNode : Z) (st : SearchState) : Prop := {
  sc_start : (openSet st = [startNode] ∧ closedSet st = []) ∨ startNode ∈ closedSet st;
  sc_start_g : gScore st !! startNode = Some (Fin 0);
  sc_start_prev : ∀ p, previous st !! startNode = Some p -> p = None;
  sc_open : ∀ n, n ∈ openSet st ->
    ∃ g, gScore st !! n = Some g ∧
         fScore st !! n = Some (Num.add_double g (heuristicDistance graph n endNode));
  sc_closed : ∀ n, n ∈ closedSet st -> ∃ r, gScore st !! n = Some (Fin r);
  sc_pred : ∀ n, n ∈ openSet st ∨ n ∈ closedSet st -> n ≠ startNode ->
    ∃ p w gp,
      previous st !! n = Some (Some p) ∧ p ∈ closedSet st ∧
      mkNeighbor n w ∈ neighbors (buildAdjacencyList graph) p ∧
      gScore st !! p = Some (Fin gp) ∧ gScore st !! n = Some (Fin (gp + w))
}.

(** What makes the closed scores final.  [pending u nb] holds of the
    adjacency entries of the node being expanded that the "Explore
    neighbors" loop has not reached yet. *)
Record optimal (graph : GraphData) (startNode : Z)
    (pending : Z -> Neighbor -> Prop) (st : SearchState) : Prop := {
  op_pos : ∀ n r,
    n ∈ openSet st ∨ n ∈ closedSet st -> n ≠ startNode ->
    gScore st !! n = Some (Fin r) -> (0 < r)%R;
  op_closed : ∀ n r path cost,
    n ∈ closedSet st -> gScore st !! n = Some (Fin r) ->
    walk (buildAdjacencyList graph) startNode path n cost -> (r <= cost)%R;
  op_relaxed : ∀ c nb gc,
    c ∈ closedSet st -> nb ∈ neighbors (buildAdjacencyList graph) c ->
    ¬ pending c nb -> gScore st !! c = Some (Fin gc) ->
    (nb_node nb ∈ openSet st ∨ nb_node nb ∈ closedSet st) ∧
    ∃ gn, gScore st !! nb_node nb = Some (Fin gn) ∧ (gn <= gc + nb_weight nb)%R
}.

(** Every edge has a strictly positive weight. *)
Definition positive_weights (graph : GraphData) : Prop :=
  ∀ edge, In edge (edges graph) -> (0 < edge_weight edge)%R.

(** The estimate as the search takes it: the scan reads a score made
    from a NaN as [Infinity]. *)
Definition estimate (graph : GraphData) (nodeId endNode : Z) : number :=
  match heuristicDistance graph nodeId endNode with
  | NaN => Infinity
  | Number x => x
  end.

(** The estimate is consistent towards [endNode]: along every edge it
    drops by no more than the weight of the edge. *)
Definition consistent (graph : GraphData) (endNode : Z) : Prop :=
  ∀ edge, In edge (edges graph) ->
    nle (estimate graph (e_from edge) endNode)
        (Num.add (Fin (edge_weight edge)) (estimate graph (e_to edge) endNode)).

(** The estimate is admissible towards [endNode]: it never exceeds the
    cost of a walk to it. *)
Definition admissible (graph : GraphData) (endNode : Z) : Prop :=
  ∀ n path cost,
    walk (buildAdjacencyList graph) n path endNode cost ->
    nle (estimate graph n endNode) (Fin cost).

(** [path] is a walk from [startNode] to [endNode] of least cost. *)
Definition cheapest_walk (graph : GraphData) (startNode endNode : Z)
    (path : list Z) (cost : R) : Prop :=
  walk (buildAdjacencyList graph) startNode path endNode cost ∧
  ∀ path' cost',
    walk (buildAdjacencyList graph) startNode path' endNode cost' -> (cost <= cost')%R.

(** A direct edge out of a node whose id is 0. *)
Definition zero_id : GraphData :=
  mkGraph [(0, mkNode 0 0 0.001); (1, mkNode 1 0 0)]
          [mkEdge 0 1 1 5 None] 2 1.

(** The estimate per degree of arc: seconds at 50 km/h along one degree of
    a great circle of radius 6371 km. *)
Definition kappa : R := (6371 * (PI / 180) / 50 * 3600)%R.

(** The three-node chain 1 -> 2 -> 3 with its nodes at given places: the
    first edge has a travel time, the second has none and falls back on its
    length. *)
Definition chain3 (p1 p2 p3 : Coordinate) : GraphData :=
  mkGraph [(1, mkNode 1 (lat p1) (lon p1)); (2, mkNode 2 (lat p2) (lon p2));
           (3, mkNode 3 (lat p3) (lon p3))]
          [mkEdge 1 2 1 5 None; mkEdge 2 3 20 0 None] 3 2.

(** One edge that takes five seconds for a ten-thousandth of a degree. *)
Definition slow_road : GraphData :=
  mkGraph [(1, mkNode 1 0 0.0001); (2, mkNode 2 0 0)]
          [mkEdge 1 2 1 5 None] 2 1.

(** Four nodes on the equator, the goal 4 at longitude 0.  The direct
    road 1 -> 3 takes 30 seconds, the roads 1 -> 2 and 2 -> 3 take 10
    seconds each, and the last stretch 3 -> 4 takes 100 seconds. *)
Definition detour : GraphData :=
  mkGraph [(1, mkNode 1 0 0.011); (2, mkNode 2 0 0.01);
           (3, mkNode 3 0 0.001); (4, mkNode 4 0 0)]
          [mkEdge 1 2 1 10 None; mkEdge 1 3 1 30 None;
           mkEdge 2 3 1 10 None; mkEdge 3 4 1 100 None] 4 4.

(** The chain with its nodes on the equator, two thousandths, one
    thousandth and zero degrees of longitude. *)
Definition chain3_equator : GraphData :=
  chain3 (mkCoord 0 0.002) (mkCoord 0 0.001) (mkCoord 0 0).

(** ** Vocabulary for the shape of routes and for runs of the search *)

(** [c] is the position of the node stored under [nodeId]. *)
Definition position_of (graph : GraphData) (nodeId : Z) (c : Coordinate) : Prop :=
  ∃ node, nodes_get graph nodeId = Some node ∧ c = coord_of node.

(** The tables of the search from 1 to 3 on the chain on the equator,
    after the first and after the second round of the main loop. *)
Definition chain3_first_round : SearchState :=
  fold_left (relax chain3_equator 3 1)
    (neighbors (buildAdjacencyList chain3_equator) 1)
    (close_node 1 (init_state chain3_equator 1 3)).

Definition chain3_second_round : SearchState :=
  fold_left (relax chain3_equator 3 2)
    (neighbors (buildAdjacencyList chain3_equator) 2)
    (close_node 2 chain3_first_round).

(** What the search reads of an edge: its two ends and the weight it
    contributes. *)
Definition edge_key (edge : GraphEdge) : Z * Z * R :=
  (e_from edge, e_to edge, edge_weight edge).

#[global] Instance GraphNode_eq_dec : EqDecision GraphNode.
Proof. solve_decision. Defined.

(** Four nodes on the equator, the goal 4 at longitude 0.  The edge from 1
    to 2 has neither a travel time nor a length, so that its weight is 0; the
    edges from 1 to 3, from 3 to 2 and from 2 to 4 take one second each. *)
Definition free_ride : GraphData :=
  mkGraph [(1, mkNode 1 0 0.003); (2, mkNode 2 0 0.002);
           (3, mkNode 3 0 0.001); (4, mkNode 4 0 0)]
          [mkEdge 1 2 0 0 None; mkEdge 1 3 1 1 None;
           mkEdge 3 2 1 1 None; mkEdge 2 4 1 1 None] 4 4.

(** The tables of the search from 1 to 4 on that graph after the first
    round of the main loop, which expands node 1. *)
Definition free_ride_first_round : SearchState :=
  fold_left (relax free_ride 4 1)
    (neighbors (buildAdjacencyList free_ride) 1)
    (close_node 1 (init_state free_ride 1 4)).

(** A graph whose keys are not the ids stored under them, and whose ids
    are not keys: the entries under the keys 1 and 2 carry the ids 7 and 8. *)
Definition unkeyed : GraphData :=
  mkGraph [(1, mkNode 7 0 0); (2, mkNode 8 0 1)] [mkEdge 7 8 1 5 None] 2 1.

(** ** RouteVisualization: centre and zoom of the map *)

(** [layout.mapbox]: the centre and the zoom level of the map. *)
Record Layout : Type := mkLayout {
  v_center : Coordinate;
  v_zoom : Z
}.

(** [Math.min(...[...xs, y, z])] and [Math.max(...[...xs, y, z])]: the
    component takes the least and the greatest element of lists that end
    with the start and the end coordinate. *)
Definition Math_min (xs : list R) (y z : R) : R := fold_right Rmin (Rmin y z) xs.
Definition Math_max (xs : list R) (y z : R) : R := fold_right Rmax (Rmax y z) xs.

(** "Calculate center and zoom", "Calculate zoom level based on bounding
    box", "Estimate zoom level (approximate)".  The sums, the means and the
    ranges are those of exact arithmetic, from which the rounded ones of the
    code differ in the last places. *)
Definition map_layout (routeCoords : list Coordinate) (startCoord endCoord : Coordinate)
    : Layout :=
  let routeLons := map lon routeCoords in
  let routeLats := map lat routeCoords in
  let allLats := routeLats ++ [lat startCoord; lat endCoord] in
  let allLons := routeLons ++ [lon startCoord; lon endCoord] in
  let centerLat := (fold_left Rplus allLats 0 / INR (length allLats))%R in
  let centerLon := (fold_left Rplus allLons 0 / INR (length allLons))%R in
  let minLat := Math_min routeLats (lat startCoord) (lat endCoord) in
  let maxLat := Math_max routeLats (lat startCoord) (lat endCoord) in
  let minLon := Math_min routeLons (lon startCoord) (lon endCoord) in
  let maxLon := Math_max routeLons (lon startCoord) (lon endCoord) in
  let latRange := (maxLat - minLat)%R in
  let lonRange := (maxLon - minLon)%R in
  let maxRange := Rmax latRange lonRange in
  let zoom :=
    if decide (maxRange > 0.1)%R then 10
    else if decide (maxRange > 0.05)%R then 11
    else if decide (maxRange > 0.02)%R then 12
    else if decide (maxRange > 0.01)%R then 13
    else 14 in
  mkLayout (mkCoord centerLat centerLon) zoom.

(** The points the map has to show: the route, then the start and the end
    coordinate. *)
Definition shown_points (routeCoords : list Coordinate) (startCoord endCoord : Coordinate)
    : list Coordinate :=
  routeCoords ++ [startCoord; endCoord].

(** Two of the points lie more than [t] degrees apart in latitude or in
    longitude. *)
Definition apart (t : R) (points : list Coordinate) : Prop :=
  ∃ p q, In p points ∧ In q points ∧ ((lat p - lat q > t)%R ∨ (lon p - lon q > t)%R).

(** ** RouteVisualization: state, effect and render *)

(** The properties of the component.  [startCoord] and [endCoord] are
    typed as coordinates, but the effect tests them for [null], and so does
    the model; [graphData] may be [null]. *)
Record Props : Type := mkProps {
  p_startCoord : option Coordinate;
  p_endCoord : option Coordinate;
  p_graphData : option GraphData;
  p_width : R;
  p_height : R
}.

(** The texts the error view shows after "Error: ": "Graph data not
    loaded", "Start or end coordinates missing", and the message of the
    error [calculateRoute] threw. *)
Inductive ErrorText : Type :=
| GraphDataNotLoaded
| CoordinatesMissing
| MessageOf (e : RouteError).

(** The three [useState] cells. *)
Record ComponentState : Type := mkComponentState {
  routeCoords : list Coordinate;
  error : option ErrorText;
  loading : bool
}.

Definition initial_state : ComponentState := mkComponentState [] None false.

(** The body of the effect, run when [graphData], [startCoord] or
    [endCoord] change.  The state updates of one run are applied together
    when it returns; the result is the state the next render reads, [None]
    when the run does not return. *)
Definition route_effect (props : Props) (st : ComponentState) : option ComponentState :=
  match p_graphData props with
  | None => Some (mkComponentState (routeCoords st) (Some GraphDataNotLoaded) (loading st))
  | Some graphData =>
      match p_startCoord props, p_endCoord props with
      | Some startCoord, Some endCoord =>
          let st1 := mkComponentState (routeCoords st) None true in
          match calculateRoute graphData startCoord endCoord with
          | Returns route => Some (mkComponentState route (error st1) false)
          | Throws err => Some (mkComponentState [] (Some (MessageOf err)) false)
          | Diverges => None
          end
      | _, _ =>
          Some (mkComponentState (routeCoords st) (Some CoordinatesMissing) (loading st))
      end
  end.

(** What a render call of the component gives: one of its four views, or
    the engine's error on reading [lat] of a coordinate that is [null]. *)
Inductive Rendered : Type :=
| LoadingGraphData
| ErrorView (text : ErrorText)
| CalculatingRoute
| MapView (layout : Layout) (routeLine : list Coordinate)
    (startMarker endMarker : Coordinate) (width height : R)
| RenderFails.

Definition render (props : Props) (st : ComponentState) : Rendered :=
  match p_graphData props with
  | None => LoadingGraphData
  | Some _ =>
      match error st with
      | Some text => ErrorView text
      | None =>
          if loading st then CalculatingRoute
          else
            match p_startCoord props, p_endCoord props with
            | Some startCoord, Some endCoord =>
                MapView (map_layout (routeCoords st) startCoord endCoord)
                  (routeCoords st) startCoord endCoord (p_width props) (p_height props)
            | _, _ => RenderFails
            end
      end
  end.

(** * Properties *)

(** ** Numbers *)

Lemma lt_Fin_true x y : (x < y)%R -> Num.lt (Fin x) (Fin y) = true.
Proof. intros H. simpl. by apply bool_decide_eq_true_2. Qed.

Lemma lt_Fin_false x y : (y <= x)%R -> Num.lt (Fin x) (Fin y) = false.
Proof. intros H. simpl. apply bool_decide_eq_false_2. lra. Qed.

Lemma lt_Fin_iff x y : Num.lt (Fin x) (Fin y) = true ↔ (x < y)%R.
Proof. simpl. apply bool_decide_eq_true. Qed.

Lemma lt_Fin_false_iff x y : Num.lt (Fin x) (Fin y) = false ↔ (y <= x)%R.
Proof.
  simpl. rewrite bool_decide_eq_false. split; intros H; lra.
Qed.

Lemma lt_Infinity_l b : Num.lt Infinity b = false.
Proof. reflexivity. Qed.

Lemma ge_Fin_iff x y : Num.ge (Fin x) (Fin y) = true ↔ (y <= x)%R.
Proof. simpl. apply bool_decide_eq_true. Qed.

Lemma or_else_zero d : Num.or_else (Some (Fin 0)) d = d.
Proof. simpl. by rewrite decide_True. Qed.

Lemma or_else_nonzero r d : r ≠ 0%R -> Num.or_else (Some (Fin r)) d = Fin r.
Proof. intros H. simpl. by rewrite decide_False. Qed.

(** ** Facts about the haversine distance *)

Lemma Math_atan2_nonneg y x : (0 <= y)%R -> (0 <= x)%R -> (0 <= Math_atan2 y x)%R.
Proof.
  intros Hy Hx. unfold Math_atan2.
  destruct (decide (0 < x)%R) as [Hpos|Hnpos].
  - destruct (Rle_lt_or_eq_dec 0 y Hy) as [Hlt|Heq].
    + left. rewrite <- atan_0. apply atan_increasing.
      apply Rdiv_lt_0_compat; lra.
    + subst y. unfold Rdiv. rewrite Rmult_0_l, atan_0. lra.
  - destruct (decide (x < 0)%R); [lra|].
    pose proof PI_RGT_0.
    destruct (decide (0 < y)%R); [lra|].
    destruct (decide (y < 0)%R); lra.
Qed.

Lemma Math_atan2_zero x : (0 < x)%R -> Math_atan2 0 x = 0%R.
Proof.
  intros Hx. unfold Math_atan2. rewrite decide_True by done.
  unfold Rdiv. by rewrite Rmult_0_l, atan_0.
Qed.

Lemma haversine_nonneg lat1 lon1 lat2 lon2 :
  (0 <= haversine_km lat1 lon1 lat2 lon2)%R.
Proof.
  unfold haversine_km. cbv zeta.
  match goal with |- (0 <= _ * (2 * Math_atan2 ?y ?x))%R =>
    pose proof (Math_atan2_nonneg y x (sqrt_pos _) (sqrt_pos _)) end.
  unfold Math_sqrt in *. nra.
Qed.

Lemma haversine_term_same la lo : haversine_term la lo la lo = 0%R.
Proof.
  unfold haversine_term, toRadians, Math_sin. cbv zeta.
  replace ((la - la) * (Math_PI / 180) / 2)%R with 0%R by lra.
  replace ((lo - lo) * (Math_PI / 180) / 2)%R with 0%R by lra.
  rewrite sin_0. lra.
Qed.

Lemma haversine_same la lo : haversine_km la lo la lo = 0%R.
Proof.
  unfold haversine_km, Math_sqrt. cbv zeta. rewrite haversine_term_same.
  rewrite sqrt_0, Rminus_0_r, sqrt_1, Math_atan2_zero by lra. lra.
Qed.

Lemma haversine_term_sym lat1 lon1 lat2 lon2 :
  haversine_term lat1 lon1 lat2 lon2 = haversine_term lat2 lon2 lat1 lon1.
Proof.
  unfold haversine_term, toRadians, Math_sin. cbv zeta.
  replace ((lat1 - lat2) * (Math_PI / 180) / 2)%R
    with (- ((lat2 - lat1) * (Math_PI / 180) / 2))%R by lra.
  replace ((lon1 - lon2) * (Math_PI / 180) / 2)%R
    with (- ((lon2 - lon1) * (Math_PI / 180) / 2))%R by lra.
  rewrite !sin_neg. ring.
Qed.

Lemma haversine_sym lat1 lon1 lat2 lon2 :
  haversine_km lat1 lon1 lat2 lon2 = haversine_km lat2 lon2 lat1 lon1.
Proof.
  unfold haversine_km. cbv zeta. by rewrite (haversine_term_sym lat1 lon1 lat2 lon2).
Qed.

(** On the equator the term is the squared sine of half the difference of
    longitudes. *)
Lemma haversine_term_equator lon1 lon2 :
  haversine_term 0 lon1 0 lon2 = (sin ((lon2 - lon1) * (PI / 180) / 2))²%R.
Proof.
  unfold haversine_term, toRadians, Math_sin, Math_cos, Math_PI. cbv zeta.
  replace ((0 - 0) * (PI / 180) / 2)%R with 0%R by lra.
  replace (0 * (PI / 180))%R with 0%R by lra.
  rewrite sin_0, cos_0. unfold Rsqr. ring.
Qed.

(** Along the equator the distance is the arc: radius times the difference
    of longitudes in radians. *)
Lemma haversine_equator lon1 lon2 :
  (0 <= lon2 - lon1 < 180)%R ->
  haversine_km 0 lon1 0 lon2 = (6371 * ((lon2 - lon1) * (PI / 180)))%R.
Proof.
  intros Hd. pose proof PI_RGT_0 as Hpi.
  unfold haversine_km, Math_sqrt. cbv zeta. rewrite haversine_term_equator.
  set (t := ((lon2 - lon1) * (PI / 180) / 2)%R).
  assert (Ht : (0 <= t < PI / 2)%R) by (unfold t; split; nra).
  assert (Hs : (0 <= sin t)%R) by (apply sin_ge_0; lra).
  assert (Hc : (0 < cos t)%R) by (apply cos_gt_0; lra).
  rewrite sqrt_Rsqr by done.
  replace (1 - (sin t)²)%R with ((cos t)²)%R by (rewrite cos2; ring).
  rewrite sqrt_Rsqr by lra.
  unfold Math_atan2. rewrite decide_True by done.
  change (sin t / cos t)%R with (tan t).
  rewrite atan_tan by lra.
  unfold t. field.
Qed.

(** Up to a quarter of the way round the equator the term stays at or
    below 1/2. *)
Lemma haversine_term_equator_low lon1 lon2 :
  (0 <= lon2 - lon1 <= 90)%R -> (haversine_term 0 lon1 0 lon2 <= 1 / 2)%R.
Proof.
  intros Hd. pose proof PI_RGT_0 as Hpi. rewrite haversine_term_equator.
  set (t := ((lon2 - lon1) * (PI / 180) / 2)%R).
  assert (Ht : (0 <= t <= PI / 4)%R) by (unfold t; split; nra).
  assert (Hs : (0 <= sin t)%R) by (apply sin_ge_0; lra).
  assert (Hle : (sin t <= sin (PI / 4))%R) by (apply sin_incr_1; lra).
  rewrite sin_PI4 in Hle.
  assert (Hsq : (1 / sqrt 2 * (1 / sqrt 2) = 1 / 2)%R).
  { pose proof (sqrt_sqrt 2 ltac:(lra)) as H2.
    assert (0 < sqrt 2)%R by (apply sqrt_lt_R0; lra).
    field_simplify; [|lra]. unfold pow. rewrite Rmult_1_r, H2. lra. }
  assert (0 <= 1 / sqrt 2)%R by (pose proof (sqrt_lt_R0 2 ltac:(lra)) as H0;
    apply Rlt_le, Rdiv_lt_0_compat; lra).
  unfold Rsqr. nra.
Qed.

(** The haversine term lies between 0 and 1, whatever the coordinates. *)
Lemma haversine_term_bounds (p1 p2 dl : R) :
  (0 <= hav (p2 - p1) + cos p1 * cos p2 * hav dl <= 1)%R.
Proof.
  unfold hav.
  set (u := ((p2 - p1) / 2)%R). set (m := ((p1 + p2) / 2)%R).
  assert (Hp1 : p1 = (m - u)%R) by (unfold m, u; lra).
  assert (Hp2 : p2 = (m + u)%R) by (unfold m, u; lra).
  clearbody u m. rewrite Hp1, Hp2, cos_minus, cos_plus.
  pose proof (sin2_cos2 u) as Hu. pose proof (sin2_cos2 m) as Hm.
  pose proof (sin2_cos2 (dl / 2)) as Hv. unfold Rsqr in *.
  set (su := sin u) in *. set (cu := cos u) in *.
  set (sm := sin m) in *. set (cm := cos m) in *.
  set (sv := sin (dl / 2)) in *. set (cv := cos (dl / 2)) in *.
  clearbody su cu sm cm sv cv.
  assert (Heq : (su * su + (cm * cu + sm * su) * (cm * cu - sm * su) * (sv * sv)
                 = su * su * (cv * cv) + sv * sv * (cm * cm))%R).
  { replace ((cm * cu + sm * su) * (cm * cu - sm * su))%R
      with (cm * cm * (cu * cu) - sm * sm * (su * su))%R by ring.
    replace (cu * cu)%R with (1 - su * su)%R by lra.
    replace (sm * sm)%R with (1 - cm * cm)%R by lra.
    replace (cv * cv)%R with (1 - sv * sv)%R by lra. ring. }
  rewrite Heq.
  assert (0 <= su * su <= 1)%R by nra. assert (0 <= sv * sv <= 1)%R by nra.
  assert (0 <= cm * cm <= 1)%R by nra. assert (0 <= cv * cv <= 1)%R by nra.
  split; [nra|].
  replace (cv * cv)%R with (1 - sv * sv)%R by lra. nra.
Qed.

(** The term of the code is the term of the half-angle formula. *)
Lemma haversine_term_hav lat1 lon1 lat2 lon2 :
  haversine_term lat1 lon1 lat2 lon2 =
  (hav (radians lat2 - radians lat1) +
   cos (radians lat1) * cos (radians lat2) * hav (radians lon2 - radians lon1))%R.
Proof.
  unfold haversine_term, hav, toRadians, radians, Math_sin, Math_cos, Math_PI. cbv zeta.
  replace ((lat2 - lat1) * (PI / 180) / 2)%R
    with ((lat2 * PI / 180 - lat1 * PI / 180) / 2)%R by lra.
  replace ((lon2 - lon1) * (PI / 180) / 2)%R
    with ((lon2 * PI / 180 - lon1 * PI / 180) / 2)%R by lra.
  replace (lat1 * (PI / 180))%R with (lat1 * PI / 180)%R by lra.
  replace (lat2 * (PI / 180))%R with (lat2 * PI / 180)%R by lra.
  ring.
Qed.

Lemma haversine_term_range lat1 lon1 lat2 lon2 :
  (0 <= haversine_term lat1 lon1 lat2 lon2 <= 1)%R.
Proof. rewrite haversine_term_hav. apply haversine_term_bounds. Qed.

Lemma atan2_sqrt_asin a :
  (0 <= a <= 1)%R -> Math_atan2 (Math_sqrt a) (Math_sqrt (1 - a)) = asin (sqrt a).
Proof.
  intros [H0 H1]. unfold Math_sqrt, Math_atan2.
  destruct (Rle_lt_or_eq_dec a 1 H1) as [Hlt|Heq].
  - assert (0 < sqrt (1 - a))%R by (apply sqrt_lt_R0; lra).
    rewrite decide_True by done.
    assert (sqrt a < 1)%R.
    { rewrite <- sqrt_1. apply sqrt_lt_1; lra. }
    pose proof (sqrt_pos a).
    rewrite asin_atan by lra.
    by rewrite Rsqr_sqrt.
  - subst a. replace (1 - 1)%R with 0%R by lra. rewrite sqrt_0, sqrt_1.
    rewrite decide_False by lra. rewrite decide_False by lra.
    rewrite decide_True by lra. by rewrite asin_1.
Qed.

(** The code's formula with [atan2] is the half-angle formula with [asin]. *)
Lemma haversine_km_great_circle lat1 lon1 lat2 lon2 :
  haversine_km lat1 lon1 lat2 lon2 = great_circle_km lat1 lon1 lat2 lon2.
Proof.
  unfold haversine_km, great_circle_km. cbv zeta.
  rewrite atan2_sqrt_asin by apply haversine_term_range.
  rewrite haversine_term_hav. ring.
Qed.

(** What [haversineDistance] returns: NaN where the term comes out above 1,
    and the great-circle distance everywhere else. *)
Lemma haversineDistance_cases lat1 lon1 lat2 lon2 :
  (haversineDistance lat1 lon1 lat2 lon2 = NaN ∧
   (1 / 2 < haversine_term lat1 lon1 lat2 lon2)%R ∧
   term_exceeds_one lat1 lon1 lat2 lon2 = true)
  ∨ haversineDistance lat1 lon1 lat2 lon2 = Fin (haversine_km lat1 lon1 lat2 lon2).
Proof.
  unfold haversineDistance. cbv zeta.
  destruct (bool_decide _) eqn:Hhalf; [|by right].
  destruct (term_exceeds_one _ _ _ _) eqn:Hex; [|by right].
  left. by apply bool_decide_eq_true in Hhalf.
Qed.

Lemma haversineDistance_low lat1 lon1 lat2 lon2 :
  (haversine_term lat1 lon1 lat2 lon2 <= 1 / 2)%R ->
  haversineDistance lat1 lon1 lat2 lon2 = Fin (haversine_km lat1 lon1 lat2 lon2).
Proof.
  intros Hlow. unfold haversineDistance. cbv zeta.
  rewrite bool_decide_eq_false_2 by lra. done.
Qed.

Lemma haversineDistance_Fin lat1 lon1 lat2 lon2 d :
  haversineDistance lat1 lon1 lat2 lon2 = Fin d -> d = haversine_km lat1 lon1 lat2 lon2.
Proof.
  destruct (haversineDistance_cases lat1 lon1 lat2 lon2) as [[-> _]| ->]; [done|].
  by intros [= <-].
Qed.

Lemma haversineDistance_same la lo : haversineDistance la lo la lo = Fin 0.
Proof.
  rewrite haversineDistance_low, haversine_same; [done|].
  rewrite haversine_term_same. lra.
Qed.

(** The points (2.5, 0) and (-2.5, 180) are antipodes: their term is 1. *)
Lemma haversine_term_antipodes : haversine_term 2.5 0 (-2.5) 180 = 1%R.
Proof.
  unfold haversine_term, toRadians, Math_sin, Math_cos, Math_PI. cbv zeta.
  replace ((-2.5 - 2.5) * (PI / 180) / 2)%R with (- (2.5 * (PI / 180)))%R by lra.
  replace ((180 - 0) * (PI / 180) / 2)%R with (PI / 2)%R by lra.
  replace (-2.5 * (PI / 180))%R with (- (2.5 * (PI / 180)))%R by lra.
  rewrite sin_neg, cos_neg, sin_PI2.
  pose proof (sin2_cos2 (2.5 * (PI / 180))) as H. unfold Rsqr in H. lra.
Qed.

Lemma haversineDistance_antipodes :
  term_exceeds_one 2.5 0 (-2.5) 180 = true ->
  haversineDistance 2.5 0 (-2.5) 180 = NaN.
Proof.
  intros Hex. unfold haversineDistance. cbv zeta.
  rewrite haversine_term_antipodes, Hex, bool_decide_eq_true_2 by lra. done.
Qed.

(** ** findNearestNode *)

Lemma nearest_step_eq point m i e :
  nearest_step point (m, i) e =
  match distance_to point (snd e) with
  | Number d => if Num.lt d m then (d, n_id (snd e)) else (m, i)
  | NaN => (m, i)
  end.
Proof. reflexivity. Qed.

Lemma distance_to_cases point node :
  distance_to point node = NaN ∨ ∃ d, distance_to point node = Fin d.
Proof.
  unfold distance_to.
  destruct (haversineDistance_cases (lat point) (lon point) (n_lat node) (n_lon node))
    as [[-> _]| ->]; [by left|right; by eexists].
Qed.

Lemma nearest_fold point l m i :
  let r := fold_left (nearest_step point) l (m, i) in
  (r = (m, i) ∧
   ∀ e d, In e l -> distance_to point (snd e) = Fin d -> Num.lt (Fin d) m = false)
  ∨ (∃ pre e post d,
       l = pre ++ e :: post ∧
       distance_to point (snd e) = Fin d ∧
       r = (Fin d, n_id (snd e)) ∧
       Num.lt (Fin d) m = true ∧
       (∀ x dx, In x pre -> distance_to point (snd x) = Fin dx -> (d < dx)%R) ∧
       (∀ x dx, In x post -> distance_to point (snd x) = Fin dx -> (d <= dx)%R)).
Proof.
  cbv zeta. revert m i. induction l as [|e0 l IH]; intros m i; cbn [fold_left].
  - left. split; [done|]. by intros e d.
  - rewrite nearest_step_eq.
    destruct (distance_to_cases point (snd e0)) as [Hnan|[d0 Hd0]].
    { rewrite Hnan.
      destruct (IH m i) as [[Hr Hall]|(pre & e & post & d & Hl & Hd & Hr & Hbeat & Hpre & Hpost)].
      - left. split; [done|]. intros e d [<-|He] Hd; [congruence|by eapply Hall].
      - right. exists (e0 :: pre), e, post, d. subst l. repeat split; try done.
        intros x dx [<-|Hx] Hdx; [congruence|by eapply Hpre]. }
    rewrite Hd0.
    destruct (Num.lt (Fin d0) m) eqn:Hlt.
    + right. destruct (IH (Fin d0) (n_id (snd e0)))
        as [[Hr Hall]|(pre & e & post & d & Hl & Hd & Hr & Hbeat & Hpre & Hpost)].
      * exists [], e0, l, d0. repeat split; try done.
        intros x dx Hx Hdx. by apply lt_Fin_false_iff, (Hall x).
      * exists (e0 :: pre), e, post, d. subst l. repeat split; try done.
        -- apply lt_Fin_iff in Hbeat. destruct m as [r|]; [|done].
           apply lt_Fin_iff in Hlt. apply lt_Fin_true. lra.
        -- intros x dx [<-|Hx] Hdx; [|by eapply Hpre].
           assert (dx = d0) as -> by congruence. by apply lt_Fin_iff.
    + destruct (IH m i) as [[Hr Hall]|(pre & e & post & d & Hl & Hd & Hr & Hbeat & Hpre & Hpost)].
      * left. split; [done|]. intros e d [<-|He] Hd; [|by eapply Hall].
        assert (d = d0) as -> by congruence. done.
      * right. exists (e0 :: pre), e, post, d. subst l. repeat split; try done.
        intros x dx [<-|Hx] Hdx; [|by eapply Hpre].
        assert (dx = d0) as -> by congruence.
        destruct m as [r|]; [|done].
        apply lt_Fin_iff in Hbeat. apply lt_Fin_false_iff in Hlt. lra.
Qed.

(** What the scan returns: the id of the first entry at the least distance
    among the entries whose distance is a number, the marker -1 when there
    is no such entry. *)
Lemma findNearestNode_spec graph point :
  ((∀ e, In e (nodes graph) -> distance_to point (snd e) = NaN) ∧
   findNearestNode graph point = -1)
  ∨ (∃ pre key node post d,
       nodes graph = pre ++ (key, node) :: post ∧
       distance_to point node = Fin d ∧
       findNearestNode graph point = n_id node ∧
       (∀ e dx, In e pre -> distance_to point (snd e) = Fin dx -> (d < dx)%R) ∧
       (∀ e dx, In e post -> distance_to point (snd e) = Fin dx -> (d <= dx)%R)).
Proof.
  unfold findNearestNode.
  destruct (nearest_fold point (nodes graph) Infinity (-1))
    as [[Hr Hall]|(pre & [key node] & post & d & Hl & Hd & Hr & _ & Hpre & Hpost)].
  - left. split; [|by rewrite Hr]. intros e He.
    destruct (distance_to_cases point (snd e)) as [Hnan|[d Hd]]; [done|].
    by specialize (Hall e d He Hd).
  - right. exists pre, key, node, post, d. by rewrite Hr.
Qed.

(** C7. Where the haversine term of the query and of a node comes out
    above 1 the distance is NaN, which is below no running minimum, and the
    scan passes the node over: on the graph [far_side], whose one node lies
    at (-2.5, 180), the query (2.5, 0) gets the marker -1 of a graph without
    nodes, and a call from there throws the nearest-node error.  On every
    graph and for every query, the nodes passed over are
    those whose distance is NaN: when one distance is a number, the scan
    returns the id of an entry that is at most as far from the query as
    every entry whose distance is a number, and strictly nearer than every
    such entry enumerated before it. *)
Theorem C7_nearest_node_lost_at_antipodes :
  (term_exceeds_one 2.5 0 (-2.5) 180 = true ->
   nodes far_side ≠ [] ∧
   findNearestNode far_side (mkCoord 2.5 0) = -1 ∧
   ∀ endCoord,
     calculateRoute far_side (mkCoord 2.5 0) endCoord = Throws NearestNodeNotFound) ∧
  (∀ (graph : GraphData) (point : Coordinate),
     (∃ e, In e (nodes graph) ∧ distance_to point (snd e) ≠ NaN) ->
     ∃ pre key node post d,
       nodes graph = pre ++ (key, node) :: post ∧
       findNearestNode graph point = n_id node ∧
       distance_to point node = Fin d ∧
       (∀ e dx, In e (nodes graph) -> distance_to point (snd e) = Fin dx -> (d <= dx)%R) ∧
       (∀ e dx, In e pre -> distance_to point (snd e) = Fin dx -> (d < dx)%R)).
Proof.
  split.
  - intros Hex.
    assert (Hlost : findNearestNode far_side (mkCoord 2.5 0) = -1).
    { unfold findNearestNode, far_side. cbn [nodes fold_left].
      rewrite nearest_step_eq. unfold distance_to. cbn [snd lat lon n_lat n_lon].
      by rewrite haversineDistance_antipodes. }
    split_and!; [done|done|].
    intros endCoord. unfold calculateRoute, calculateRoute_with. by rewrite Hlost.
  - intros graph point (e0 & He0 & Hnum).
    destruct (findNearestNode_spec graph point)
      as [[Hnan _]|(pre & key & node & post & d & Hl & Hd & Hr & Hpre & Hpost)];
      [by specialize (Hnan e0 He0)|].
    exists pre, key, node, post, d. repeat split; try done.
    intros e dx He Hdx. rewrite Hl in He. apply in_app_or in He as [He|[<-|He]].
    + left. by eapply Hpre.
    + simpl in Hdx. assert (dx = d) as -> by congruence. lra.
    + by eapply Hpost.
Qed.

(** The estimate is the distance at 50 km/h in seconds. *)
Lemma heuristicDistance_present graph nodeId endNodeId node endNode :
  nodes_get graph nodeId = Some node -> nodes_get graph endNodeId = Some endNode ->
  heuristicDistance graph nodeId endNodeId =
  match haversineDistance (n_lat node) (n_lon node) (n_lat endNode) (n_lon endNode) with
  | NaN => NaN
  | Number _ =>
      Fin (seconds_at_50kmh
             (great_circle_km (n_lat node) (n_lon node) (n_lat endNode) (n_lon endNode)))
  end.
Proof.
  intros Hn He. unfold heuristicDistance, seconds_at_50kmh. rewrite Hn, He. cbv zeta.
  destruct (haversineDistance_cases (n_lat node) (n_lon node) (n_lat endNode) (n_lon endNode))
    as [[-> _]| ->]; [done|].
  simpl. by rewrite haversine_km_great_circle.
Qed.

Lemma heuristicDistance_absent graph nodeId endNodeId :
  nodes_get graph nodeId = None ∨ nodes_get graph endNodeId = None ->
  heuristicDistance graph nodeId endNodeId = Infinity.
Proof.
  unfold heuristicDistance. intros [->| ->]; [done|].
  by destruct (nodes_get graph nodeId).
Qed.


(** ** The node mapping *)

Lemma assoc_get_In entries key node :
  assoc_get entries key = Some node -> In (key, node) entries.
Proof.
  induction entries as [|[k n] rest IH]; simpl; [done|].
  destruct (decide (k = key)) as [->|Hne].
  - intros [= ->]. by left.
  - intros H. right. by apply IH.
Qed.

Lemma assoc_get_is_Some entries key node :
  In (key, node) entries -> is_Some (assoc_get entries key).
Proof.
  induction entries as [|[k n] rest IH]; simpl; [done|].
  intros [[= -> ->]|Hin].
  - rewrite decide_True by done. by eexists.
  - destruct (decide (k = key)); [by eexists|by apply IH].
Qed.

Lemma snaps_to_entry graph point nodeId :
  snaps_to graph point nodeId ->
  ∃ key node, In (key, node) (nodes graph) ∧ n_id node = nodeId.
Proof.
  intros [Hfind Hne].
  destruct (findNearestNode_spec graph point)
    as [[_ Hm]|(pre & key & node & post & d & Hl & Hd & Hr & _)]; [congruence|].
  exists key, node. split; [|congruence].
  rewrite Hl. apply in_or_app. right. by left.
Qed.

Lemma snaps_to_node graph point nodeId :
  well_formed graph -> snaps_to graph point nodeId ->
  ∃ node, nodes_get graph nodeId = Some node ∧ In (nodeId, node) (nodes graph).
Proof.
  intros [Hkeys _] Hsnap.
  destruct (snaps_to_entry _ _ _ Hsnap) as (key & node & Hin & Hid).
  rewrite (Hkeys _ _ Hin) in Hid. subst key.
  destruct (assoc_get_is_Some _ _ _ Hin) as [node' Hget].
  exists node'. split; [done|]. by apply assoc_get_In.
Qed.

(** ** The initial tables *)

Lemma init_fold_openSet l st :
  openSet (fold_left init_step l st) = openSet st.
Proof. revert st. induction l as [|e l IH]; intros st; simpl; [done|]. by rewrite IH. Qed.

Lemma init_fold_closedSet l st :
  closedSet (fold_left init_step l st) = closedSet st.
Proof. revert st. induction l as [|e l IH]; intros st; simpl; [done|]. by rewrite IH. Qed.

Lemma init_fold_previous l st n :
  (∀ p, previous st !! n = Some p -> p = None) ->
  ∀ p, previous (fold_left init_step l st) !! n = Some p -> p = None.
Proof.
  revert st. induction l as [|e l IH]; intros st Hst; simpl; [done|].
  apply IH. simpl. intros p.
  destruct (decide (n_id e.2 = n)) as [->|Hne].
  - rewrite lookup_insert_eq. congruence.
  - rewrite lookup_insert_ne by done. apply Hst.
Qed.

Lemma init_fold_gScore l st n :
  (∀ x, gScore st !! n = Some x -> x = Infinity) ->
  ∀ x, gScore (fold_left init_step l st) !! n = Some x -> x = Infinity.
Proof.
  revert st. induction l as [|e l IH]; intros st Hst; simpl; [done|].
  apply IH. simpl. intros x.
  destruct (decide (n_id e.2 = n)) as [->|Hne].
  - rewrite lookup_insert_eq. congruence.
  - rewrite lookup_insert_ne by done. apply Hst.
Qed.

Lemma init_fold_fScore l st n :
  (∀ x, fScore st !! n = Some x -> x = Number Infinity) ->
  ∀ x, fScore (fold_left init_step l st) !! n = Some x -> x = Number Infinity.
Proof.
  revert st. induction l as [|e l IH]; intros st Hst; simpl; [done|].
  apply IH. simpl. intros x.
  destruct (decide (n_id e.2 = n)) as [->|Hne].
  - rewrite lookup_insert_eq. congruence.
  - rewrite lookup_insert_ne by done. apply Hst.
Qed.

Lemma init_state_openSet graph startNode endNode :
  openSet (init_state graph startNode endNode) = [startNode].
Proof. unfold init_state. simpl. by rewrite init_fold_openSet. Qed.

Lemma init_state_closedSet graph startNode endNode :
  closedSet (init_state graph startNode endNode) = [].
Proof. unfold init_state. simpl. by rewrite init_fold_closedSet. Qed.

Lemma init_state_fScore_start graph startNode endNode :
  fScore (init_state graph startNode endNode) !! startNode
  = Some (heuristicDistance graph startNode endNode).
Proof. unfold init_state. simpl. by rewrite lookup_insert_eq. Qed.

Lemma init_state_gScore_start graph startNode endNode :
  gScore (init_state graph startNode endNode) !! startNode = Some (Fin 0).
Proof. unfold init_state. simpl. by rewrite lookup_insert_eq. Qed.

Lemma init_state_previous graph startNode endNode n p :
  previous (init_state graph startNode endNode) !! n = Some p -> p = None.
Proof.
  unfold init_state. simpl. apply init_fold_previous. intros q. simpl.
  by rewrite lookup_empty.
Qed.

Lemma init_state_gScore_other graph startNode endNode n x :
  n ≠ startNode ->
  gScore (init_state graph startNode endNode) !! n = Some x -> x = Infinity.
Proof.
  intros Hne. unfold init_state. simpl. rewrite lookup_insert_ne by done.
  apply init_fold_gScore. intros y. simpl. by rewrite lookup_empty.
Qed.

(** ** The adjacency index *)

Lemma adjacency_step_lookup adj edge u :
  neighbors (adjacency_step adj edge) u =
  neighbors adj u ++ (if decide (e_from edge = u) then [neighbor_of edge] else []).
Proof.
  unfold neighbors, adjacency_step. cbv zeta.
  destruct (decide (e_from edge = u)) as [->|Hne].
  - rewrite lookup_insert_eq. simpl.
    destruct (adj !! u) as [l|] eqn:Hl.
    + by rewrite Hl.
    + by rewrite lookup_insert_eq.
  - rewrite lookup_insert_ne by done. rewrite app_nil_r.
    destruct (adj !! e_from edge); [done|]. by rewrite lookup_insert_ne.
Qed.

Lemma adjacency_fold_lookup es adj u :
  neighbors (fold_left adjacency_step es adj) u =
  neighbors adj u ++ map neighbor_of (filter (λ e, e_from e = u) es).
Proof.
  revert adj. induction es as [|edge es IH]; intros adj; simpl.
  - by rewrite app_nil_r.
  - rewrite IH, adjacency_step_lookup, <- app_assoc. f_equal.
    rewrite filter_cons. by destruct (decide (e_from edge = u)).
Qed.

(** The entries under a node, in order: one per edge leaving it. *)
Lemma buildAdjacencyList_neighbors graph u :
  neighbors (buildAdjacencyList graph) u =
  map neighbor_of (filter (λ e, e_from e = u) (edges graph)).
Proof.
  unfold buildAdjacencyList. rewrite adjacency_fold_lookup.
  unfold neighbors at 1. by rewrite lookup_empty.
Qed.

Lemma neighbors_In graph u nb :
  In nb (neighbors (buildAdjacencyList graph) u) ↔
  ∃ edge, In edge (edges graph) ∧ e_from edge = u ∧ nb = neighbor_of edge.
Proof.
  rewrite buildAdjacencyList_neighbors, in_map_iff. split.
  - intros (edge & <- & Hin). apply list_elem_of_In, list_elem_of_filter in Hin as [Hf Hin].
    exists edge. by rewrite <- list_elem_of_In.
  - intros (edge & Hin & Hf & ->). exists edge. split; [done|].
    apply list_elem_of_In, list_elem_of_filter. by rewrite list_elem_of_In.
Qed.

(** ** The order on numbers *)

Lemma lt_false_nle a b : Num.lt a b = false ↔ nle b a.
Proof.
  destruct a as [x|], b as [y|]; simpl; try done.
  rewrite bool_decide_eq_false. split; intros H; lra.
Qed.

Lemma lt_true_not_nle a b : Num.lt a b = true ↔ ¬ nle b a.
Proof.
  rewrite <- lt_false_nle. destruct (Num.lt a b); split; intros H; congruence.
Qed.

Lemma nle_refl a : nle a a.
Proof. destruct a; simpl; [lra|done]. Qed.

Lemma nle_trans a b c : nle a b -> nle b c -> nle a c.
Proof. destruct a, b, c; simpl; try done. lra. Qed.

Lemma nle_total a b : nle a b ∨ nle b a.
Proof. destruct a as [x|], b as [y|]; simpl; auto. destruct (Rle_dec x y); [auto|right; lra]. Qed.

Lemma nle_Infinity a : nle Infinity a -> a = Infinity.
Proof. by destruct a. Qed.

Lemma lt_Infinity_r a : Num.lt a Infinity = true ↔ ∃ r, a = Fin r.
Proof. destruct a; simpl; split; try done; eauto. by intros [r Hr]. Qed.

Lemma is_infinity_false a : Num.is_infinity a = false ↔ ∃ r, a = Fin r.
Proof. destruct a; simpl; split; try done; eauto. by intros [r Hr]. Qed.

Lemma add_Fin_inv a b r :
  Num.add a b = Fin r -> ∃ x y, a = Fin x ∧ b = Fin y ∧ r = (x + y)%R.
Proof. destruct a, b; simpl; try done. intros [= <-]. eauto. Qed.

(** ** The scan for the lowest fScore *)

Lemma lowest_step_eq f c0 m0 n :
  lowest_step f (c0, m0) n =
  if Num.lt (Num.or_else_double (f !! n) Infinity) m0
  then (n, Num.or_else_double (f !! n) Infinity) else (c0, m0).
Proof. reflexivity. Qed.

Lemma lowest_fold f l c0 m0 :
  let read n := Num.or_else_double (f !! n) Infinity in
  let r := fold_left (lowest_step f) l (c0, m0) in
  (r = (c0, m0) ∧ ∀ n, n ∈ l -> nle m0 (read n))
  ∨ (∃ pre c post,
       l = pre ++ c :: post ∧ r = (c, read c) ∧ ¬ nle m0 (read c) ∧
       (∀ x, x ∈ pre -> ¬ nle (read x) (read c)) ∧
       (∀ x, x ∈ post -> nle (read c) (read x))).
Proof.
  cbv zeta. revert c0 m0. induction l as [|n l IH]; intros c0 m0; cbn [fold_left].
  - left. split; [done|]. intros n Hn. by apply elem_of_nil in Hn.
  - rewrite lowest_step_eq.
    destruct (Num.lt (Num.or_else_double (f !! n) Infinity) m0) eqn:Hlt.
    + right. apply lt_true_not_nle in Hlt.
      destruct (IH n (Num.or_else_double (f !! n) Infinity))
        as [[Hr Hall]|(pre & c & post & Hl & Hr & Hbeat & Hpre & Hpost)].
      * exists [], n, l. split_and!; try done.
        intros x Hx. by apply elem_of_nil in Hx.
      * exists (n :: pre), c, post. subst l. split_and!; try done.
        -- intros Hle. apply Hlt. eapply nle_trans; [exact Hle|].
           destruct (nle_total (Num.or_else_double (f !! c) Infinity)
                       (Num.or_else_double (f !! n) Infinity)); [done|by destruct Hbeat].
        -- intros x [->|Hx]%elem_of_cons; [done|by apply Hpre].
    + apply lt_false_nle in Hlt.
      destruct (IH c0 m0) as [[Hr Hall]|(pre & c & post & Hl & Hr & Hbeat & Hpre & Hpost)].
      * left. split; [done|]. intros x [->|Hx]%elem_of_cons; [done|by apply Hall].
      * right. exists (n :: pre), c, post. subst l. split_and!; try done.
        intros x [->|Hx]%elem_of_cons; [|by apply Hpre].
        intros Hle. apply Hbeat. by eapply nle_trans.
Qed.

(** The scan either finds nothing, and then every open node reads as
    infinite, or returns the first open node of least score, which is finite. *)
Lemma select_lowest_spec st :
  (select_lowest (fScore st) (openSet st) = (-1, Infinity) ∧
   ∀ n, n ∈ openSet st -> read_f st n = Infinity)
  ∨ (∃ c r pre post,
       select_lowest (fScore st) (openSet st) = (c, Fin r) ∧
       openSet st = pre ++ c :: post ∧
       read_f st c = Fin r ∧
       (∀ x, x ∈ pre -> ¬ nle (read_f st x) (Fin r)) ∧
       (∀ x, x ∈ openSet st -> nle (Fin r) (read_f st x))).
Proof.
  unfold select_lowest, read_f.
  destruct (lowest_fold (fScore st) (openSet st) (-1) Infinity)
    as [[Hr Hall]|(pre & c & post & Hl & Hr & Hbeat & Hpre & Hpost)].
  - left. split; [done|]. intros n Hn. by apply nle_Infinity, Hall.
  - right. destruct (Num.or_else_double (fScore st !! c) Infinity) as [r|] eqn:Hc; [|done].
    exists c, r, pre, post. split_and!; try done.
    intros x Hx. rewrite Hl in Hx.
    apply elem_of_app in Hx as [Hx|[->|Hx]%elem_of_cons].
    + destruct (nle_total (Fin r) (Num.or_else_double (fScore st !! x) Infinity)); [done|].
      by destruct (Hpre x Hx).
    + rewrite Hc. apply nle_refl.
    + by apply Hpost.
Qed.

Lemma select_lowest_exhausted st :
  exhausted st -> openSet st ≠ [] ->
  select_lowest (fScore st) (openSet st) = (-1, Infinity).
Proof.
  intros [Hnil|Hall] Hne; [done|].
  destruct (select_lowest_spec st) as [[Hs _]|(c & r & pre & post & Hs & Hl & Hc & _)]; [done|].
  rewrite Hall in Hc; [done|]. rewrite Hl. apply elem_of_app. right. by left.
Qed.

(** ** The main loop, round by round *)

Lemma search_unfold fuel graph adj endNode st :
  search fuel graph adj endNode st =
  match round graph adj endNode st with
  | Some st1 =>
      match fuel with
      | O => OutOfFuel
      | S fuel' => search fuel' graph adj endNode st1
      end
  | None => finish endNode st
  end.
Proof.
  unfold round, finish. destruct fuel; simpl.
  - destruct (openSet st); [done|].
    destruct (select_lowest _ _) as [c m].
    destruct (bool_decide (c = -1) || Num.is_infinity m); [done|].
    destruct (bool_decide (c = endNode)) eqn:Hc; [|done].
    apply bool_decide_eq_true in Hc. by subst c.
  - destruct (openSet st); [done|].
    destruct (select_lowest _ _) as [c m].
    destruct (bool_decide (c = -1) || Num.is_infinity m); [done|].
    destruct (bool_decide (c = endNode)) eqn:Hc; [|done].
    apply bool_decide_eq_true in Hc. by subst c.
Qed.

Lemma round_exhausted graph adj endNode st :
  exhausted st -> round graph adj endNode st = None ∧ finish endNode st = NoPath.
Proof.
  intros Hex. unfold round, finish.
  destruct (openSet st) as [|n l] eqn:Hopen; [done|].
  rewrite <- Hopen, select_lowest_exhausted; [|done|by rewrite Hopen].
  by rewrite orb_true_r.
Qed.

Lemma search_exhausted fuel graph adj endNode st :
  exhausted st -> search fuel graph adj endNode st = NoPath.
Proof.
  intros Hex. rewrite search_unfold.
  by destruct (round_exhausted graph adj endNode st Hex) as [-> ->].
Qed.

(** ** Resolving a query that lies on a node *)

Lemma haversine_equator_abs lon1 lon2 :
  (Rabs (lon2 - lon1) < 180)%R ->
  haversine_km 0 lon1 0 lon2 = (6371 * (Rabs (lon2 - lon1) * (PI / 180)))%R.
Proof.
  intros Habs. destruct (Rle_dec lon1 lon2) as [Hle|Hgt].
  - rewrite Rabs_pos_eq in * by lra. apply haversine_equator. lra.
  - rewrite Rabs_left in * by lra. rewrite haversine_sym, haversine_equator by lra.
    lra.
Qed.

Lemma haversine_equator_pos lon1 lon2 :
  (Rabs (lon2 - lon1) < 180)%R -> lon1 ≠ lon2 ->
  (0 < haversine_km 0 lon1 0 lon2)%R.
Proof.
  intros Habs Hne. rewrite haversine_equator_abs by done.
  pose proof PI_RGT_0. assert (0 < Rabs (lon2 - lon1))%R by (apply Rabs_pos_lt; lra).
  nra.
Qed.

Lemma nearest_fold_positive point l m i :
  (∀ e d, In e l -> distance_to point (snd e) = Fin d -> (0 < d)%R) ->
  (∀ r, m = Fin r -> (0 < r)%R) ->
  ∀ r, fst (fold_left (nearest_step point) l (m, i)) = Fin r -> (0 < r)%R.
Proof.
  revert m i. induction l as [|e l IH]; intros m i Hl Hm; cbn [fold_left]; [done|].
  rewrite nearest_step_eq.
  destruct (distance_to_cases point (snd e)) as [->|[d Hd]].
  { apply IH; [intros x dx Hx; apply Hl; by right|done]. }
  rewrite Hd. destruct (Num.lt _ m).
  - apply IH; [intros x dx Hx; apply Hl; by right|].
    intros r [= <-]. apply (Hl e); [by left|done].
  - apply IH; [intros x dx Hx; apply Hl; by right|done].
Qed.

Lemma distance_to_nonneg point node d :
  distance_to point node = Fin d -> (0 <= d)%R.
Proof.
  unfold distance_to. intros ->%haversineDistance_Fin. apply haversine_nonneg.
Qed.

Lemma nearest_fold_zero point l i :
  fold_left (nearest_step point) l (Fin 0, i) = (Fin 0, i).
Proof.
  induction l as [|e l IH]; cbn [fold_left]; [done|].
  rewrite nearest_step_eq.
  destruct (distance_to_cases point (snd e)) as [->|[d Hd]]; [done|].
  rewrite Hd, lt_Fin_false; [done|]. by eapply distance_to_nonneg.
Qed.

(** A query at distance zero from an entry, every earlier entry being
    further away, resolves to that entry. *)
Lemma findNearestNode_exact graph point pre key node post :
  nodes graph = pre ++ (key, node) :: post ->
  distance_to point node = Fin 0 ->
  (∀ e d, In e pre -> distance_to point (snd e) = Fin d -> (0 < d)%R) ->
  findNearestNode graph point = n_id node.
Proof.
  intros Hl Hzero Hpre. unfold findNearestNode. rewrite Hl, fold_left_app.
  destruct (fold_left (nearest_step point) pre (Infinity, -1)) as [m i] eqn:Hm.
  cbn [fold_left]. rewrite nearest_step_eq. cbn [snd]. rewrite Hzero.
  assert (Hlt : Num.lt (Fin 0) m = true).
  { destruct m as [r|]; [|done]. apply lt_Fin_true.
    apply (nearest_fold_positive point pre Infinity (-1)); [done|done|by rewrite Hm]. }
  by rewrite Hlt, nearest_fold_zero.
Qed.

(** ** The claims on the short paths through [calculateRoute] *)

(** C4. When both coordinates resolve to the same node, the call returns
    the one-element route made of that node's position, and it does so
    whatever search procedure it is given: the search is not run. *)
Theorem C4_same_node_single_point :
  ∀ (graph : GraphData) (startCoord endCoord : Coordinate) (nodeId : Z),
    well_formed graph ->
    snaps_to graph startCoord nodeId ->
    snaps_to graph endCoord nodeId ->
    ∃ node,
      In (nodeId, node) (nodes graph) ∧
      calculateRoute graph startCoord endCoord = Returns [coord_of node] ∧
      ∀ search_from,
        calculateRoute_with search_from graph startCoord endCoord
        = Returns [coord_of node].
Proof.
  intros graph startCoord endCoord nodeId Hwf Hs He.
  destruct (snaps_to_node _ _ _ Hwf Hs) as (node & Hget & Hin).
  exists node. split; [done|].
  assert (Hall : ∀ search_from,
    calculateRoute_with search_from graph startCoord endCoord = Returns [coord_of node]).
  { intros search_from. unfold calculateRoute_with.
    destruct Hs as [-> Hne]. destruct He as [-> _].
    rewrite (bool_decide_eq_false_2 _ Hne). simpl.
    rewrite bool_decide_eq_true_2 by done. by rewrite Hget. }
  split; [apply Hall|done].
Qed.

Lemma two_nodes_well_formed : well_formed two_nodes.
Proof.
  split.
  - intros key node [[= <- <-]|[[= <- <-]|[]]]; done.
  - by apply (bool_decide_unpack _).
Qed.

Lemma two_nodes_snap_first : snaps_to two_nodes (mkCoord 0 0) 1.
Proof.
  split; [|done].
  apply (findNearestNode_exact two_nodes (mkCoord 0 0) [] 1 (mkNode 1 0 0)
           [(2, mkNode 2 0 0.001%R)]); [done| |by intros e d []].
  apply haversineDistance_same.
Qed.

Lemma two_nodes_snap_second : snaps_to two_nodes (mkCoord 0 0.001) 2.
Proof.
  split; [|done].
  apply (findNearestNode_exact two_nodes (mkCoord 0 0.001) [(1, mkNode 1 0 0)] 2
           (mkNode 2 0 0.001%R) []); [done| |].
  - apply haversineDistance_same.
  - intros e d [<-|[]]. unfold distance_to. simpl. intros ->%haversineDistance_Fin.
    rewrite haversine_sym. apply haversine_equator_pos; [|lra].
    rewrite Rabs_pos_eq; lra.
Qed.

(** C6. On a graph with no nodes the call throws the nearest-node error,
    whatever the edges, the advisory counts and the query coordinates, and
    whatever search procedure it is given: the marker -1 goes no further. *)
Theorem C6_empty_graph_nearest_node_not_found :
  ∀ (es : list GraphEdge) (nc ec : Z) (startCoord endCoord : Coordinate),
    findNearestNode (mkGraph [] es nc ec) startCoord = -1 ∧
    calculateRoute (mkGraph [] es nc ec) startCoord endCoord
    = Throws NearestNodeNotFound ∧
    ∀ search_from,
      calculateRoute_with search_from (mkGraph [] es nc ec) startCoord endCoord
      = Throws NearestNodeNotFound.
Proof. done. Qed.

(** C10. When the start node and the end node are distinct and their
    positions are at haversine distance zero, the start node enters the open
    set with fScore 0, the scan reads that 0 as infinite and selects nothing,
    and the search ends without a path, whatever the edges of the graph; a
    call whose coordinates resolve to these two nodes throws the no-path
    error. *)
Theorem C10_zero_estimate_start_is_never_selected :
  ∀ (graph : GraphData) (startNode endNode : Z) (ns ne : GraphNode),
    startNode ≠ endNode ->
    nodes_get graph startNode = Some ns ->
    nodes_get graph endNode = Some ne ->
    haversineDistance (n_lat ns) (n_lon ns) (n_lat ne) (n_lon ne) = Fin 0 ->
    let st := init_state graph startNode endNode in
    fScore st !! startNode = Some (Number (Fin 0)) ∧
    openSet st = [startNode] ∧
    select_lowest (fScore st) (openSet st) = (-1, Infinity) ∧
    astar graph startNode endNode = NoPath ∧
    ∀ startCoord endCoord,
      snaps_to graph startCoord startNode ->
      snaps_to graph endCoord endNode ->
      calculateRoute graph startCoord endCoord = Throws NoPathFound.
Proof.
  intros graph startNode endNode ns ne Hne Hns Hne' Hzero st.
  assert (Hf : fScore st !! startNode = Some (Number (Fin 0))).
  { unfold st. rewrite init_state_fScore_start. unfold heuristicDistance.
    rewrite Hns, Hne'. cbv zeta. rewrite Hzero. simpl. do 3 f_equal. lra. }
  assert (Hopen : openSet st = [startNode]) by apply init_state_openSet.
  assert (Hex : exhausted st).
  { right. intros n. rewrite Hopen. intros ->%list_elem_of_singleton.
    unfold read_f. rewrite Hf. apply or_else_zero. }
  assert (Hno : astar graph startNode endNode = NoPath).
  { unfold astar. fold st. by rewrite search_exhausted. }
  split_and!; try done.
  - apply select_lowest_exhausted; [done|by rewrite Hopen].
  - intros startCoord endCoord [Hs Hs1] [He He1].
    unfold calculateRoute, calculateRoute_with. rewrite Hs, He.
    rewrite (bool_decide_eq_false_2 _ Hs1), (bool_decide_eq_false_2 _ He1). simpl.
    by rewrite (bool_decide_eq_false_2 _ Hne), Hno.
Qed.

Lemma mislabelled_snap_start : snaps_to mislabelled (mkCoord 0 0) 3.
Proof.
  split; [|done].
  apply (findNearestNode_exact mislabelled (mkCoord 0 0) [] 1 (mkNode 3 0 0)
           [(2, mkNode 4 0 1); (3, mkNode 30 0 50); (4, mkNode 40 0 50)]);
    [done| |by intros e d []].
  apply haversineDistance_same.
Qed.

Lemma mislabelled_snap_end : snaps_to mislabelled (mkCoord 0 1) 4.
Proof.
  split; [|done].
  apply (findNearestNode_exact mislabelled (mkCoord 0 1) [(1, mkNode 3 0 0)] 2
           (mkNode 4 0 1) [(3, mkNode 30 0 50); (4, mkNode 40 0 50)]); [done| |].
  - apply haversineDistance_same.
  - intros e d [<-|[]]. unfold distance_to. simpl. intros ->%haversineDistance_Fin.
    rewrite haversine_sym. apply haversine_equator_pos; [|lra].
    rewrite Rabs_pos_eq; lra.
Qed.

(** ** The search always ends *)

Section Structural.
Context (graph : GraphData) (startNode endNode : Z).
Let adj := buildAdjacencyList graph.

Lemma neighbors_universe u nb :
  nb ∈ neighbors adj u -> nb_node nb ∈ universe graph startNode.
Proof.
  intros Hnb. apply list_elem_of_In, neighbors_In in Hnb as (edge & Hin & _ & ->).
  unfold universe. apply elem_of_cons. right.
  apply list_elem_of_In, in_map_iff. by exists edge.
Qed.

Lemma chain_insert prev cs n v :
  n ∉ cs -> chain prev cs -> chain (<[n := v]> prev) cs.
Proof.
  intros Hn Hc. induction Hc as [|c cs Hc IH Hp]; [constructor|].
  apply not_elem_of_cons in Hn as [Hnc Hn].
  constructor; [by apply IH|].
  intros p. rewrite lookup_insert_ne by done. apply Hp.
Qed.

Lemma structural_init : structural graph startNode (init_state graph startNode endNode).
Proof.
  split.
  - rewrite init_state_closedSet. constructor.
  - intros n. rewrite init_state_closedSet. by intros ?%elem_of_nil.
  - intros n. rewrite init_state_openSet, init_state_closedSet.
    intros ->%list_elem_of_singleton. split; [by left|by intros ?%elem_of_nil].
  - rewrite init_state_closedSet. constructor.
  - intros n p _ Hp. by apply init_state_previous in Hp.
Qed.

Lemma structural_close c st :
  c ∈ openSet st -> structural graph startNode st ->
  structural graph startNode (close_node c st).
Proof.
  intros Hc [Hnd Hcl Hop Hch Hpr]. split; simpl.
  - constructor; [by apply Hop|done].
  - intros n [->|Hn]%elem_of_cons; [by apply Hop|by apply Hcl].
  - intros n [Hne Hn]%list_elem_of_filter. split; [by apply Hop|].
    apply not_elem_of_cons. split; [done|by apply Hop].
  - constructor; [done|]. intros p Hp. by eapply Hpr.
  - intros n p [_ Hn]%list_elem_of_filter Hp. apply elem_of_cons. right. by eapply Hpr.
Qed.

Lemma relax_closedSet c st nb :
  closedSet (relax graph endNode c st nb) = closedSet st.
Proof.
  unfold relax. destruct (bool_decide (nb_node nb ∈ closedSet st)); [done|].
  destruct (negb _); [done|]. by destruct (Num.ge _ _).
Qed.

Lemma relax_fold_closedSet c l st :
  closedSet (fold_left (relax graph endNode c) l st) = closedSet st.
Proof.
  revert st. induction l as [|nb l IH]; intros st; simpl; [done|].
  by rewrite IH, relax_closedSet.
Qed.

Lemma structural_record c st nb g :
  c ∈ closedSet st -> nb_node nb ∉ closedSet st ->
  structural graph startNode st ->
  structural graph startNode (record_best graph endNode c g nb st).
Proof.
  intros Hc Hnb [Hnd Hcl Hop Hch Hpr]. split; simpl; try done.
  - by apply chain_insert.
  - intros n p Hn. destruct (decide (nb_node nb = n)) as [->|Hne].
    + rewrite lookup_insert_eq. by intros [= <-].
    + rewrite lookup_insert_ne by done. by apply Hpr.
Qed.

Lemma structural_open_add st n :
  n ∈ universe graph startNode -> n ∉ closedSet st ->
  (∀ p, previous st !! n = Some (Some p) -> p ∈ closedSet st) ->
  structural graph startNode st ->
  structural graph startNode (open_add n st).
Proof.
  intros Hu Hn Hp [Hnd Hcl Hop Hch Hpr]. split; simpl; try done.
  - intros m [Hm| ->%list_elem_of_singleton]%elem_of_app; [by apply Hop|done].
  - intros m p [Hm| ->%list_elem_of_singleton]%elem_of_app; [by apply Hpr|by apply Hp].
Qed.

Lemma structural_relax c st nb :
  c ∈ closedSet st -> nb ∈ neighbors adj c ->
  structural graph startNode st ->
  structural graph startNode (relax graph endNode c st nb).
Proof.
  intros Hc Hnb Hst. unfold relax.
  destruct (bool_decide (nb_node nb ∈ closedSet st)) eqn:Hcl; [done|].
  apply bool_decide_eq_false in Hcl.
  destruct (bool_decide (nb_node nb ∈ openSet st)) eqn:Hop; simpl.
  - destruct (Num.ge _ _); [done|]. by apply structural_record.
  - apply bool_decide_eq_false in Hop.
    pose proof (neighbors_universe _ _ Hnb) as Hu.
    destruct Hst as [Hnd Hcls Hopn Hch Hpr]. split; simpl; try done.
    + intros m [Hm| ->%list_elem_of_singleton]%elem_of_app; [by apply Hopn|done].
    + by apply chain_insert.
    + intros m p Hm. destruct (decide (nb_node nb = m)) as [->|Hne].
      * rewrite lookup_insert_eq. by intros [= <-].
      * rewrite lookup_insert_ne by done.
        apply elem_of_app in Hm as [Hm|Hm%list_elem_of_singleton]; [by apply Hpr|done].
Qed.

Lemma structural_relax_fold c l st :
  c ∈ closedSet st -> (∀ nb, nb ∈ l -> nb ∈ neighbors adj c) ->
  structural graph startNode st ->
  structural graph startNode (fold_left (relax graph endNode c) l st).
Proof.
  revert st. induction l as [|nb l IH]; intros st Hc Hl Hst; simpl; [done|].
  apply IH.
  - by rewrite relax_closedSet.
  - intros x Hx. apply Hl. by right.
  - apply structural_relax; [done| |done]. apply Hl. by left.
Qed.

(** What a round that goes on does. *)
Lemma round_Some st st1 :
  round graph adj endNode st = Some st1 ->
  ∃ c r,
    select_lowest (fScore st) (openSet st) = (c, Fin r) ∧
    c ∈ openSet st ∧ read_f st c = Fin r ∧ c ≠ endNode ∧
    (∀ x, x ∈ openSet st -> nle (Fin r) (read_f st x)) ∧
    st1 = fold_left (relax graph endNode c) (neighbors adj c) (close_node c st).
Proof.
  unfold round. destruct (openSet st) as [|n l] eqn:Hopen; [done|]. rewrite <- Hopen.
  destruct (select_lowest_spec st)
    as [[-> _]|(c & r & pre & post & -> & Hl & Hc & _ & Hmin)]; [by rewrite orb_true_r|].
  destruct (bool_decide (c = -1)); [done|]. simpl.
  destruct (bool_decide (c = endNode)) eqn:He; [done|].
  apply bool_decide_eq_false in He. intros [= <-].
  exists c, r. split_and!; try done.
  rewrite Hl. apply elem_of_app. right. by left.
Qed.

Lemma structural_round st st1 :
  structural graph startNode st ->
  round graph adj endNode st = Some st1 ->
  structural graph startNode st1 ∧ length (closedSet st1) = S (length (closedSet st)).
Proof.
  intros Hst (c & r & _ & Hc & _ & _ & _ & ->)%round_Some. split.
  - apply structural_relax_fold; [by left|done|by apply structural_close].
  - by rewrite relax_fold_closedSet.
Qed.

Lemma structural_rounds st st1 :
  structural graph startNode st ->
  rounds graph adj endNode st st1 ->
  structural graph startNode st1.
Proof.
  intros Hst Hr. induction Hr as [|st st1 st2 Hround _ IH]; [done|].
  apply IH. by eapply structural_round.
Qed.

Lemma closed_bounded st :
  structural graph startNode st ->
  (length (closedSet st) <= length (universe graph startNode))%nat.
Proof.
  intros [Hnd Hcl _ _ _]. by apply submseteq_length, NoDup_submseteq.
Qed.

Lemma reconstruct_None fuel prev path :
  reconstruct fuel prev None path = Some path.
Proof. by destruct fuel. Qed.

Lemma reconstruct_total prev cs :
  chain prev cs ->
  ∀ fuel o path,
    (∀ p, o = Some p -> p ∈ cs) -> (length cs <= fuel)%nat ->
    is_Some (reconstruct fuel prev o path).
Proof.
  induction 1 as [|c cs Hc IH Hp]; intros fuel o path Ho Hfuel.
  - destruct o as [p|]; [|by rewrite reconstruct_None].
    specialize (Ho p eq_refl). by apply elem_of_nil in Ho.
  - destruct o as [p|]; [|by rewrite reconstruct_None].
    destruct fuel as [|fuel]; [simpl in Hfuel; lia|].
    destruct (decide (p = c)) as [->|Hne].
    + simpl. apply IH; [|simpl in Hfuel; lia].
      intros q Hq. apply Hp. unfold previous_or_null in Hq.
      destruct (prev !! c) as [[q'|]|]; try done.
      destruct (decide (q' = 0)); [done|]. by injection Hq as ->.
    + apply IH; [|simpl in Hfuel; lia].
      intros q [= <-]. specialize (Ho p eq_refl).
      apply elem_of_cons in Ho as [?|?]; done.
Qed.

Lemma finish_total st :
  structural graph startNode st ->
  round graph adj endNode st = None ->
  finish endNode st ≠ OutOfFuel.
Proof.
  intros Hst. unfold round, finish.
  destruct (openSet st) as [|n l] eqn:Hopen; [done|]. rewrite <- Hopen.
  destruct (select_lowest_spec st)
    as [[-> _]|(c & r & pre & post & -> & Hl & Hc & _ & Hmin)]; [by rewrite orb_true_r|].
  destruct (bool_decide (c = -1)); [done|]. simpl.
  destruct (bool_decide (c = endNode)) eqn:He; [|done].
  apply bool_decide_eq_true in He. subst c. intros _.
  assert (Hend : endNode ∈ openSet st).
  { rewrite Hl. apply elem_of_app. right. by left. }
  destruct (reconstruct_total (previous st) (closedSet st) (st_chain _ _ _ Hst)
              (length (closedSet st))
              (previous_or_null (previous st) endNode) [endNode]) as [path Hpath].
  - intros p Hp. apply (st_open_pred _ _ _ Hst endNode); [done|].
    unfold previous_or_null in Hp.
    destruct (previous st !! endNode) as [[q|]|]; try done.
    destruct (decide (q = 0)); [done|]. by injection Hp as ->.
  - done.
  - cbn [reconstruct]. by rewrite Hpath.
Qed.

Lemma search_total fuel st :
  structural graph startNode st ->
  (length (universe graph startNode) <= fuel + length (closedSet st))%nat ->
  search fuel graph adj endNode st ≠ OutOfFuel.
Proof.
  revert st. induction fuel as [|fuel IH]; intros st Hst Hfuel;
    rewrite search_unfold;
    destruct (round graph adj endNode st) as [st1|] eqn:Hround;
    try by apply finish_total.
  - destruct (structural_round _ _ Hst Hround) as [Hst1 Hlen].
    pose proof (closed_bounded _ Hst1). lia.
  - destruct (structural_round _ _ Hst Hround) as [Hst1 Hlen].
    apply IH; [done|lia].
Qed.

(** The search between two nodes always ends, with a path or without. *)
Lemma astar_total : astar graph startNode endNode ≠ OutOfFuel.
Proof.
  unfold astar. apply search_total; [apply structural_init|].
  rewrite init_state_closedSet. unfold universe. simpl. rewrite length_map. lia.
Qed.

(** The result of a search is the result of the round in which it ends. *)
Lemma search_rounds fuel st result :
  search fuel graph adj endNode st = result -> result ≠ OutOfFuel ->
  ∃ st1,
    rounds graph adj endNode st st1 ∧
    round graph adj endNode st1 = None ∧ finish endNode st1 = result.
Proof.
  revert st. induction fuel as [|fuel IH]; intros st; rewrite search_unfold;
    destruct (round graph adj endNode st) as [st1|] eqn:Hround.
  - by intros <-.
  - intros <- _. exists st. split_and!; [constructor|done|done].
  - intros Hs Hne. destruct (IH _ Hs Hne) as (st2 & Hr & Hn & Hf).
    exists st2. split_and!; [by econstructor|done|done].
  - intros <- _. exists st. split_and!; [constructor|done|done].
Qed.

Lemma rounds_search st st1 :
  rounds graph adj endNode st st1 ->
  round graph adj endNode st1 = None ->
  ∀ fuel,
    search fuel graph adj endNode st ≠ OutOfFuel ->
    search fuel graph adj endNode st = finish endNode st1.
Proof.
  intros Hr Hnone. induction Hr as [st|st st1 st2 Hround _ IH]; intros fuel.
  - rewrite search_unfold. by rewrite Hnone.
  - rewrite search_unfold, Hround. destruct fuel; [done|]. by apply IH.
Qed.

End Structural.

(** ** No path *)

Lemma astar_exhausted graph startNode endNode st :
  rounds graph (buildAdjacencyList graph) endNode (init_state graph startNode endNode) st ->
  exhausted st ->
  astar graph startNode endNode = NoPath.
Proof.
  intros Hr Hex. unfold astar.
  destruct (round_exhausted graph (buildAdjacencyList graph) endNode st Hex) as [Hnone Hfin].
  rewrite (rounds_search graph endNode _ _ Hr Hnone); [done|].
  apply astar_total.
Qed.

Lemma astar_NoPath_exhausted graph startNode endNode :
  startNode ≠ -1 ->
  (∀ edge, In edge (edges graph) -> e_to edge ≠ -1) ->
  astar graph startNode endNode = NoPath ->
  ∃ st,
    rounds graph (buildAdjacencyList graph) endNode (init_state graph startNode endNode) st ∧
    exhausted st.
Proof.
  intros Hs Hto Hno. unfold astar in Hno.
  apply search_rounds in Hno as (st & Hr & Hnone & Hfin); [|done].
  exists st. split; [done|].
  pose proof (structural_rounds graph startNode endNode _ _
                (structural_init graph startNode endNode) Hr) as Hst.
  unfold finish in Hfin. destruct (openSet st) as [|n l] eqn:Hopen; [by left|].
  rewrite <- Hopen in *. right.
  destruct (select_lowest_spec st)
    as [[_ Hall]|(c & r & pre & post & Hsel & Hl & Hc & _ & Hmin)]; [done|].
  rewrite Hsel in Hfin. simpl in Hfin.
  destruct (bool_decide (c = -1)) eqn:Hc1.
  - apply bool_decide_eq_true in Hc1. subst c.
    assert (Hin : -1 ∈ openSet st) by (rewrite Hl; apply elem_of_app; right; by left).
    apply (st_open _ _ _ Hst) in Hin as [Hu _].
    unfold universe in Hu. apply elem_of_cons in Hu as [Hu|Hu]; [done|].
    apply list_elem_of_In, in_map_iff in Hu as (edge & Hedge & Hin).
    by destruct (Hto edge Hin).
  - simpl in Hfin. by destruct (reconstruct _ _ _ _).
Qed.

Lemma no_edge_no_neighbor graph u :
  (∀ edge, In edge (edges graph) -> e_from edge ≠ u) ->
  neighbors (buildAdjacencyList graph) u = [].
Proof.
  intros Hfrom. rewrite buildAdjacencyList_neighbors.
  induction (edges graph) as [|edge es IH]; [done|].
  rewrite filter_cons, decide_False by (apply Hfrom; by left).
  apply IH. intros e He. apply Hfrom. by right.
Qed.

Lemma astar_dead_end graph startNode endNode :
  startNode ≠ -1 -> startNode ≠ endNode ->
  (∀ edge, In edge (edges graph) -> e_from edge ≠ startNode) ->
  astar graph startNode endNode = NoPath.
Proof.
  intros Hs Hne Hfrom.
  set (init := init_state graph startNode endNode).
  destruct (round graph (buildAdjacencyList graph) endNode init) as [st1|] eqn:Hround.
  - apply (astar_exhausted _ _ _ st1); [econstructor; [exact Hround|constructor]|].
    apply round_Some in Hround as (c & r & _ & Hc & _ & _ & _ & ->).
    unfold init in Hc. rewrite init_state_openSet in Hc.
    apply list_elem_of_singleton in Hc. subst c.
    assert (Hnb := no_edge_no_neighbor graph startNode Hfrom).
    rewrite Hnb. left. unfold init. simpl. rewrite init_fold_openSet. simpl.
    rewrite filter_cons, decide_False by auto. done.
  - unfold astar. fold init. rewrite search_unfold, Hround.
    unfold round, finish in *. unfold init in *.
    rewrite init_state_openSet in *.
    destruct (select_lowest _ [startNode]) as [c m] eqn:Hsel.
    destruct (bool_decide (c = -1) || Num.is_infinity m) eqn:Hbad; [done|].
    apply orb_false_iff in Hbad as [Hc1 Hm]. apply bool_decide_eq_false in Hc1.
    destruct (bool_decide (c = endNode)) eqn:Hce; [|done].
    apply bool_decide_eq_true in Hce. subst c.
    unfold select_lowest in Hsel. cbn [fold_left] in Hsel.
    rewrite lowest_step_eq in Hsel.
    destruct (Num.lt _ _); [congruence|]. by injection Hsel as <- <-.
Qed.


(** A call ends in a route or in one of the errors: the loops never run
    out of fuel. *)
Lemma calculateRoute_returns_or_throws graph startCoord endCoord :
  (∃ route, calculateRoute graph startCoord endCoord = Returns route) ∨
  (∃ e, calculateRoute graph startCoord endCoord = Throws e).
Proof.
  unfold calculateRoute, calculateRoute_with.
  destruct (_ || _); [right; by eexists|].
  destruct (bool_decide _).
  - destruct (nodes_get _ _); [left|right]; by eexists.
  - pose proof (astar_total graph (findNearestNode graph startCoord)
                  (findNearestNode graph endCoord)) as Htot.
    destruct (astar _ _ _); [left|right|done]; by eexists.
Qed.

(** ** The tables describe walks *)

Lemma or_else_Fin_0 r : Num.or_else (Some (Fin r)) (Fin 0) = Fin r.
Proof. simpl. destruct (decide (r = 0%R)); by subst. Qed.

Lemma add_Fin_0_l a : Num.add (Fin 0) a = a.
Proof. destruct a as [x|]; simpl; [|done]. f_equal. lra. Qed.

Lemma add_double_0_l a : Num.add_double (Fin 0) a = a.
Proof. destruct a as [|[x|]]; simpl; [done| |done]. do 2 f_equal. lra. Qed.

Lemma add_double_Fin_inv a b r :
  Num.add_double a b = Number (Fin r) ->
  ∃ x y, a = Fin x ∧ b = Number (Fin y) ∧ r = (x + y)%R.
Proof.
  destruct b as [|b]; simpl; [done|]. intros [= H].
  apply add_Fin_inv in H as (x & y & -> & -> & ->). eauto.
Qed.

Lemma read_nonzero r d : r ≠ 0%R -> Num.or_else_double (Some (Number (Fin r))) d = Fin r.
Proof. apply or_else_nonzero. Qed.

Lemma read_f_Fin st n r :
  read_f st n = Fin r -> fScore st !! n = Some (Number (Fin r)) ∧ r ≠ 0%R.
Proof.
  unfold read_f, Num.or_else_double, Num.or_else.
  destruct (fScore st !! n) as [[|[x|]]|]; try done.
  destruct (decide (x = 0%R)); [done|]. by intros [= <-].
Qed.

Section Scored.
Context (graph : GraphData) (startNode endNode : Z).
Let adj := buildAdjacencyList graph.
Let h n := heuristicDistance graph n endNode.

Lemma scored_init : scored graph startNode endNode (init_state graph startNode endNode).
Proof.
  split.
  - left. by rewrite init_state_openSet, init_state_closedSet.
  - apply init_state_gScore_start.
  - intros p. apply init_state_previous.
  - intros n. rewrite init_state_openSet. intros ->%list_elem_of_singleton.
    exists (Fin 0). split; [apply init_state_gScore_start|].
    by rewrite init_state_fScore_start, add_double_0_l.
  - intros n. rewrite init_state_closedSet. by intros ?%elem_of_nil.
  - intros n. rewrite init_state_openSet, init_state_closedSet.
    intros [->%list_elem_of_singleton|?%elem_of_nil]; done.
Qed.

Lemma scored_close c r st :
  c ∈ openSet st -> read_f st c = Fin r ->
  scored graph startNode endNode st ->
  scored graph startNode endNode (close_node c st).
Proof.
  intros Hc Hr [Hs Hsg Hsp Ho Hcl Hp]. split; simpl; try done.
  - right. destruct Hs as [[Hopen _]|Hs].
    + rewrite Hopen in Hc. apply list_elem_of_singleton in Hc. subst c. by left.
    + by right.
  - intros n [_ Hn]%list_elem_of_filter. by apply Ho.
  - intros n [->|Hn]%elem_of_cons; [|by apply Hcl].
    destruct (Ho _ Hc) as (g & Hg & Hf).
    apply read_f_Fin in Hr as [Hr _]. rewrite Hf in Hr. injection Hr as Hr.
    apply add_double_Fin_inv in Hr as (x & y & -> & _). by exists x.
  - intros n Hn Hne.
    destruct (Hp n) as (p & w & gp & H1 & H2 & H3 & H4 & H5); [|done|].
    + destruct Hn as [[_ Hn]%list_elem_of_filter|[->|Hn]%elem_of_cons]; auto.
    + exists p, w, gp. split_and!; try done. by right.
Qed.

(** Recording a better path to a node that is not closed, from a closed
    node: [st0] is [st] with the node possibly added to the open set. *)
Lemma scored_record c gc nb st st0 :
  gScore st0 = gScore st -> fScore st0 = fScore st ->
  previous st0 = previous st -> closedSet st0 = closedSet st ->
  (∀ m, m ∈ openSet st0 -> m = nb_node nb ∨ m ∈ openSet st) ->
  c ∈ closedSet st -> nb ∈ neighbors adj c -> nb_node nb ∉ closedSet st ->
  gScore st !! c = Some (Fin gc) ->
  scored graph startNode endNode st ->
  scored graph startNode endNode
    (record_best graph endNode c (Fin (gc + nb_weight nb)) nb st0).
Proof.
  intros Eg Ef Ep Ec Hopen Hc Hnb Hn Hgc [Hs Hsg Hsp Ho Hcl Hp].
  assert (Hstart : startNode ∈ closedSet st).
  { destruct Hs as [[_ Hnil]|Hs]; [|done]. rewrite Hnil in Hc. by apply elem_of_nil in Hc. }
  assert (Hns : nb_node nb ≠ startNode) by (intros Heq; by rewrite Heq in Hn).
  assert (Hnc : nb_node nb ≠ c) by (intros Heq; by rewrite Heq in Hn).
  split; simpl; rewrite ?Eg, ?Ef, ?Ep, ?Ec.
  - by right.
  - by rewrite lookup_insert_ne.
  - intros p. by rewrite lookup_insert_ne; [apply Hsp|].
  - intros m Hm. destruct (decide (nb_node nb = m)) as [<-|Hne].
    + rewrite !lookup_insert_eq. by eexists.
    + rewrite !lookup_insert_ne by done. apply Ho.
      by destruct (Hopen m Hm) as [->|?].
  - intros m Hm. rewrite lookup_insert_ne; [by apply Hcl|].
    intros Heq. by rewrite Heq in Hn.
  - intros m Hm Hms. destruct (decide (nb_node nb = m)) as [<-|Hne].
    + exists c, (nb_weight nb), gc. rewrite !lookup_insert_eq.
      rewrite lookup_insert_ne by done. split_and!; try done. by destruct nb.
    + destruct (Hp m) as (p & w & gp & H1 & H2 & H3 & H4 & H5); [|done|].
      * destruct Hm as [Hm|Hm]; [|by right].
        destruct (Hopen m Hm) as [->|?]; [done|by left].
      * assert (nb_node nb ≠ p) by (intros Heq; by rewrite Heq in Hn).
        exists p, w, gp. by rewrite !lookup_insert_ne.
Qed.

Lemma relax_cases c st nb gc :
  gScore st !! c = Some (Fin gc) ->
  let n := nb_node nb in
  let best := Fin (gc + nb_weight nb) in
  let old := Num.or_else (gScore st !! n) Infinity in
  ((n ∈ closedSet st) ∧ (relax graph endNode c st nb = st))
  ∨ ((n ∉ closedSet st) ∧ (n ∉ openSet st) ∧
     (relax graph endNode c st nb = record_best graph endNode c best nb (open_add n st)))
  ∨ ((n ∉ closedSet st) ∧ (n ∈ openSet st) ∧ (Num.ge best old = true) ∧
     (relax graph endNode c st nb = st))
  ∨ ((n ∉ closedSet st) ∧ (n ∈ openSet st) ∧ (Num.ge best old = false) ∧
     (relax graph endNode c st nb = record_best graph endNode c best nb st)).
Proof.
  intros Hgc n best old. unfold relax. rewrite Hgc, or_else_Fin_0.
  change (Num.add (Fin gc) (Fin (nb_weight nb))) with best. fold n. fold old.
  destruct (bool_decide (n ∈ closedSet st)) eqn:Hcl.
  { left. by apply bool_decide_eq_true in Hcl. }
  apply bool_decide_eq_false in Hcl. right.
  destruct (bool_decide (n ∈ openSet st)) eqn:Hop; cbn [negb].
  - apply bool_decide_eq_true in Hop. right.
    destruct (Num.ge best old) eqn:Hge; [left|right]; done.
  - apply bool_decide_eq_false in Hop. by left.
Qed.

Lemma scored_relax c st nb :
  c ∈ closedSet st -> nb ∈ neighbors adj c ->
  scored graph startNode endNode st ->
  scored graph startNode endNode (relax graph endNode c st nb).
Proof.
  intros Hc Hnb Hsc. destruct (sc_closed _ _ _ _ Hsc c Hc) as [gc Hgc].
  destruct (relax_cases c st nb gc Hgc)
    as [[_ ->]|[(Hcl & Hop & ->)|[(_ & _ & _ & ->)|(Hcl & Hop & _ & ->)]]]; try done.
  - apply (scored_record c gc nb st); try done.
    simpl. intros m [Hm|Hm%list_elem_of_singleton]%elem_of_app; auto.
  - apply (scored_record c gc nb st); auto.
Qed.

Lemma scored_relax_fold c l st :
  c ∈ closedSet st -> (∀ nb, nb ∈ l -> nb ∈ neighbors adj c) ->
  scored graph startNode endNode st ->
  scored graph startNode endNode (fold_left (relax graph endNode c) l st).
Proof.
  revert st. induction l as [|nb l IH]; intros st Hc Hl Hst; simpl; [done|].
  apply IH.
  - by rewrite relax_closedSet.
  - intros x Hx. apply Hl. by right.
  - apply scored_relax; [done| |done]. apply Hl. by left.
Qed.

Lemma scored_round st st1 :
  scored graph startNode endNode st ->
  round graph adj endNode st = Some st1 ->
  scored graph startNode endNode st1.
Proof.
  intros Hst (c & r & _ & Hc & Hr & _ & _ & ->)%round_Some.
  apply scored_relax_fold; [by left|done|by eapply scored_close].
Qed.

Lemma scored_rounds st st1 :
  scored graph startNode endNode st ->
  rounds graph adj endNode st st1 ->
  scored graph startNode endNode st1.
Proof.
  intros Hst Hr. induction Hr as [|st st1 st2 Hround _ IH]; [done|].
  apply IH. by eapply scored_round.
Qed.

End Scored.

(** ** The reconstructed path is a walk *)

Lemma walk_cost adj u path v c c' : walk adj u path v c -> c = c' -> walk adj u path v c'.
Proof. by intros H <-. Qed.

Lemma walk_snoc adj u path v c n w :
  walk adj u path v c -> In (mkNeighbor n w) (neighbors adj v) ->
  walk adj u (path ++ [n]) n (c + w).
Proof.
  intros Hw Hn. induction Hw as [u|u x wx path t cost Hx Hw IH].
  - simpl. eapply walk_cost; [eapply walk_edge; [exact Hn|apply walk_stay]|]. lra.
  - simpl. eapply walk_cost; [eapply walk_edge; [exact Hx|by apply IH]|]. lra.
Qed.

Lemma walk_ends adj u path v c :
  walk adj u path v c -> head path = Some u ∧ last path = Some v.
Proof.
  induction 1 as [u|u x wx path t cost Hx Hw [Hh Hl]]; [done|].
  split; [done|]. destruct path as [|y path]; [done|]. by rewrite last_cons, Hl.
Qed.

Lemma walk_source adj u path v c :
  walk adj u path v c -> u = v ∨ neighbors adj u ≠ [].
Proof.
  destruct 1 as [u|u x wx path t cost Hx Hw]; [by left|].
  right. intros Hnil. by rewrite Hnil in Hx.
Qed.

Section Walks.
Context (graph : GraphData) (startNode endNode : Z).
Let adj := buildAdjacencyList graph.

(** No edge leaves the id 0, which the reconstruction cannot tell from
    the absence of a predecessor. *)
Hypothesis no_edge_from_0 : ∀ edge, In edge (edges graph) -> e_from edge ≠ 0.

Lemma source_not_0 u nb : nb ∈ neighbors adj u -> u ≠ 0.
Proof.
  intros (edge & Hin & <- & _)%list_elem_of_In%neighbors_In. by apply no_edge_from_0.
Qed.

Lemma chain_walk st cs :
  scored graph startNode endNode st ->
  chain (previous st) cs ->
  (∀ n, n ∈ cs -> n ∈ closedSet st) ->
  ∀ n, n ∈ cs ->
    ∃ path r,
      gScore st !! n = Some (Fin r) ∧ walk adj startNode path n r ∧
      ∀ fuel acc, (length cs <= fuel)%nat ->
        reconstruct fuel (previous st) (Some n) acc = Some (path ++ acc).
Proof.
  intros Hsc Hch. induction Hch as [|c cs Hch IH Hp]; intros Hsub n Hn.
  { by apply elem_of_nil in Hn. }
  assert (Hsub' : ∀ m, m ∈ cs -> m ∈ closedSet st) by (intros m Hm; apply Hsub; by right).
  apply elem_of_cons in Hn as [->|Hn].
  - destruct (decide (c = startNode)) as [->|Hne].
    + exists [startNode], 0%R. split_and!; [apply Hsc|constructor|].
      intros [|fuel] acc Hfuel; [simpl in Hfuel; lia|]. simpl.
      unfold previous_or_null.
      destruct (previous st !! startNode) as [[p|]|] eqn:Hprev;
        [by apply (sc_start_prev _ _ _ _ Hsc) in Hprev|..];
        by rewrite reconstruct_None.
    + destruct (sc_pred _ _ _ _ Hsc c) as (p & w & gp & H1 & H2 & H3 & H4 & H5);
        [right; apply Hsub; by left|done|].
      destruct (IH Hsub' p (Hp p H1)) as (path & r & Hg & Hw & Hrec).
      rewrite H4 in Hg. injection Hg as <-.
      exists (path ++ [c]), (gp + w)%R. split_and!; [done| |].
      * apply (walk_snoc _ _ _ p); [done|]. by apply list_elem_of_In.
      * intros [|fuel] acc Hfuel; [simpl in Hfuel; lia|]. simpl.
        unfold previous_or_null. rewrite H1.
        rewrite decide_False by (by eapply source_not_0).
        rewrite Hrec by (simpl in Hfuel; lia). by rewrite <- app_assoc.
  - destruct (IH Hsub' n Hn) as (path & r & Hg & Hw & Hrec).
    exists path, r. split_and!; [done|done|].
    intros fuel acc Hfuel. apply Hrec. simpl in Hfuel. lia.
Qed.

(** From a node met by the search, the reconstruction returns a walk from
    the start node whose cost is the gScore of the node. *)
Lemma reconstruct_walk st n :
  structural graph startNode st -> scored graph startNode endNode st ->
  n ∈ openSet st ∨ n ∈ closedSet st ->
  ∃ path r,
    gScore st !! n = Some (Fin r) ∧ walk adj startNode path n r ∧
    reconstruct (S (length (closedSet st))) (previous st) (Some n) [] = Some path.
Proof.
  intros Hst Hsc [Hn|Hn].
  - destruct (decide (n = startNode)) as [->|Hne].
    + exists [startNode], 0%R. split_and!; [apply Hsc|constructor|].
      simpl. unfold previous_or_null.
      destruct (previous st !! startNode) as [[p|]|] eqn:Hprev;
        [by apply (sc_start_prev _ _ _ _ Hsc) in Hprev|..];
        by rewrite reconstruct_None.
    + destruct (sc_pred _ _ _ _ Hsc n) as (p & w & gp & H1 & H2 & H3 & H4 & H5);
        [by left|done|].
      destruct (chain_walk st (closedSet st) Hsc (st_chain _ _ _ Hst) ltac:(done) p H2)
        as (path & r & Hg & Hw & Hrec).
      rewrite H4 in Hg. injection Hg as <-.
      exists (path ++ [n]), (gp + w)%R. split_and!; [done| |].
      * apply (walk_snoc _ _ _ p); [done|]. by apply list_elem_of_In.
      * simpl. unfold previous_or_null. rewrite H1.
        rewrite decide_False by (by eapply source_not_0).
        by rewrite Hrec.
  - destruct (chain_walk st (closedSet st) Hsc (st_chain _ _ _ Hst) ltac:(done) n Hn)
      as (path & r & Hg & Hw & Hrec).
    exists path, r. split_and!; [done|done|].
    rewrite Hrec by lia. by rewrite app_nil_r.
Qed.

(** A round in which the loop ends with a path ends on the goal node. *)
Lemma finish_PathFound st path :
  round graph adj endNode st = None ->
  finish endNode st = PathFound path ->
  ∃ f,
    select_lowest (fScore st) (openSet st) = (endNode, Fin f) ∧
    endNode ∈ openSet st ∧ read_f st endNode = Fin f ∧
    (∀ x, x ∈ openSet st -> nle (Fin f) (read_f st x)) ∧
    reconstruct (S (length (closedSet st))) (previous st) (Some endNode) [] = Some path.
Proof.
  unfold round, finish. destruct (openSet st) as [|n l] eqn:Hopen; [done|].
  rewrite <- Hopen.
  destruct (select_lowest_spec st)
    as [[-> _]|(c & r & pre & post & -> & Hl & Hc & _ & Hmin)]; [by rewrite orb_true_r|].
  destruct (bool_decide (c = -1)); [done|]. simpl.
  destruct (bool_decide (c = endNode)) eqn:He; [|done].
  apply bool_decide_eq_true in He. subst c. intros _ Hrec.
  exists r. split_and!; try done.
  - rewrite Hl. apply elem_of_app. right. by left.
  - by destruct (reconstruct _ _ _ _) as [p|]; [injection Hrec as ->|].
Qed.

(** The path a search returns is a walk from the start node to the goal
    node along the adjacency entries. *)
Lemma astar_walk path :
  astar graph startNode endNode = PathFound path ->
  ∃ cost, walk adj startNode path endNode cost.
Proof.
  intros Hfound. unfold astar in Hfound.
  apply search_rounds in Hfound as (st & Hr & Hnone & Hfin); [|done].
  pose proof (structural_rounds graph startNode endNode _ _
                (structural_init graph startNode endNode) Hr) as Hst.
  pose proof (scored_rounds graph startNode endNode _ _
                (scored_init graph startNode endNode) Hr) as Hsc.
  destruct (finish_PathFound st path Hnone Hfin) as (f & _ & Hend & _ & _ & Hrec).
  destruct (reconstruct_walk st endNode Hst Hsc (or_introl Hend))
    as (path' & r & _ & Hw & Hrec').
  rewrite Hrec in Hrec'. injection Hrec' as <-. by exists r.
Qed.

End Walks.

(** ** With a consistent estimate the closed scores are final *)

(** The estimate is NaN, infinite, or a number that is not negative. *)
Lemma heuristicDistance_cases graph n endNode :
  heuristicDistance graph n endNode = NaN
  ∨ heuristicDistance graph n endNode = Infinity
  ∨ ∃ r, heuristicDistance graph n endNode = Fin r ∧ (0 <= r)%R.
Proof.
  unfold heuristicDistance.
  destruct (nodes_get graph n) as [node|]; [|by right; left].
  destruct (nodes_get graph endNode) as [endNode'|]; [|by right; left].
  cbv zeta.
  destruct (haversineDistance_cases (n_lat node) (n_lon node) (n_lat endNode') (n_lon endNode'))
    as [[-> _]| ->]; [by left|].
  right; right. eexists. split; [done|].
  pose proof (haversine_nonneg (n_lat node) (n_lon node) (n_lat endNode') (n_lon endNode')).
  lra.
Qed.

Lemma estimate_Fin graph n endNode r :
  estimate graph n endNode = Fin r ↔ heuristicDistance graph n endNode = Fin r.
Proof.
  unfold estimate. destruct (heuristicDistance graph n endNode) as [|x]; [done|].
  split; [by intros ->|by intros [= ->]].
Qed.

Lemma heuristicDistance_Fin_nonneg graph n endNode r :
  heuristicDistance graph n endNode = Fin r -> (0 <= r)%R.
Proof.
  intros H.
  destruct (heuristicDistance_cases graph n endNode) as [H'|[H'|(r' & H' & Hr)]];
    rewrite H in H'; try done.
  by injection H' as ->.
Qed.

Lemma heuristic_nonneg graph n endNode : nle (Fin 0) (estimate graph n endNode).
Proof.
  unfold estimate.
  destruct (heuristicDistance_cases graph n endNode) as [->|[->|(r & -> & Hr)]]; done.
Qed.

Section Optimal.
Context (graph : GraphData) (startNode endNode : Z).
Let adj := buildAdjacencyList graph.
Let h n := estimate graph n endNode.

Hypothesis no_edge_from_0 : ∀ edge, In edge (edges graph) -> e_from edge ≠ 0.
Hypothesis weights_positive : positive_weights graph.
Hypothesis estimate_consistent : consistent graph endNode.

Lemma neighbor_positive u nb : In nb (neighbors adj u) -> (0 < nb_weight nb)%R.
Proof. intros (edge & Hin & _ & ->)%neighbors_In. by apply weights_positive. Qed.

Lemma neighbor_consistent u nb :
  In nb (neighbors adj u) -> nle (h u) (Num.add (Fin (nb_weight nb)) (h (nb_node nb))).
Proof. intros (edge & Hin & <- & ->)%neighbors_In. by apply estimate_consistent. Qed.

Lemma walk_cost_nonneg u path v cost : walk adj u path v cost -> (0 <= cost)%R.
Proof.
  induction 1 as [u|u x w path t cost Hx Hw IH]; [lra|].
  apply neighbor_positive in Hx. simpl in Hx. lra.
Qed.

Lemma walk_consistent u path v cost :
  walk adj u path v cost -> nle (h u) (Num.add (Fin cost) (h v)).
Proof.
  induction 1 as [u|u x w path t cost Hx Hw IH].
  - rewrite add_Fin_0_l. apply nle_refl.
  - apply neighbor_consistent in Hx. simpl in Hx.
    destruct (h u) as [hu|], (h x) as [hx|], (h t) as [ht|]; simpl in *; try done. lra.
Qed.

Abbreviation settled := (optimal graph startNode (λ _ _, False)).
Abbreviation expanding c l := (optimal graph startNode (λ u nb, u = c ∧ nb ∈ l)).

Lemma optimal_weaken (P Q : Z -> Neighbor -> Prop) st :
  (∀ u nb, P u nb -> Q u nb) ->
  optimal graph startNode P st -> optimal graph startNode Q st.
Proof.
  intros HPQ [Hpos Hcl Hrel]. split; [done|done|].
  intros c nb gc Hc Hnb HQ. apply Hrel; auto.
Qed.

Lemma optimal_init : settled (init_state graph startNode endNode).
Proof.
  split.
  - intros n r. rewrite init_state_openSet, init_state_closedSet.
    intros [->%list_elem_of_singleton|?%elem_of_nil]; done.
  - intros n r path cost. rewrite init_state_closedSet. by intros ?%elem_of_nil.
  - intros c nb gc. rewrite init_state_closedSet. by intros ?%elem_of_nil.
Qed.

(** From a closed node, a walk to a node that is not closed goes through
    an open node, reached at no more than the cost of the walk so far. *)
Lemma frontier st u path v cost :
  settled st ->
  walk adj u path v cost ->
  ∀ gu, u ∈ closedSet st -> gScore st !! u = Some (Fin gu) -> v ∉ closedSet st ->
  ∃ y gy path2 cost2,
    y ∈ openSet st ∧ (y ∉ closedSet st) ∧ gScore st !! y = Some (Fin gy) ∧
    walk adj y path2 v cost2 ∧ (gy + cost2 <= gu + cost)%R.
Proof.
  intros Hopt Hw. induction Hw as [u|u x w path t cost Hx Hw IH]; intros gu Hu Hgu Hv.
  { done. }
  destruct (op_relaxed _ _ _ _ Hopt u (mkNeighbor x w) gu) as [Hin (gx & Hgx & Hle)];
    [done|by apply list_elem_of_In|tauto|done|]. simpl in *.
  destruct (decide (x ∈ closedSet st)) as [Hxc|Hxc].
  - destruct (IH gx Hxc Hgx Hv) as (y & gy & path2 & cost2 & H1 & H2 & H3 & H4 & H5).
    exists y, gy, path2, cost2. split_and!; try done. lra.
  - destruct Hin as [Hxo|?]; [|done].
    exists x, gx, path, cost. split_and!; try done. lra.
Qed.

(** The node the scan selects has its final score. *)
Lemma select_optimal st c f gc :
  structural graph startNode st -> scored graph startNode endNode st -> settled st ->
  c ∈ openSet st -> read_f st c = Fin f ->
  (∀ x, x ∈ openSet st -> nle (Fin f) (read_f st x)) ->
  gScore st !! c = Some (Fin gc) ->
  ∀ path cost, walk adj startNode path c cost -> (gc <= cost)%R.
Proof.
  intros Hst Hsc Hopt Hc Hf Hmin Hgc path cost Hw.
  destruct (sc_start _ _ _ _ Hsc) as [[Hopen Hclosed]|Hstart].
  { rewrite Hopen in Hc. apply list_elem_of_singleton in Hc. subst c.
    rewrite (sc_start_g _ _ _ _ Hsc) in Hgc. injection Hgc as <-.
    by eapply walk_cost_nonneg. }
  destruct (st_open _ _ _ Hst c Hc) as [_ Hcc].
  destruct (frontier st _ _ _ _ Hopt Hw 0%R Hstart (sc_start_g _ _ _ _ Hsc) Hcc)
    as (y & gy & path2 & cost2 & Hy & Hyc & Hgy & Hw2 & Hle).
  apply read_f_Fin in Hf as [Hfc _].
  destruct (sc_open _ _ _ _ Hsc c Hc) as (g & Hg & Hfg).
  rewrite Hgc in Hg. injection Hg as <-.
  rewrite Hfg in Hfc. injection Hfc as Hadd.
  apply add_double_Fin_inv in Hadd as (x & hc & [= <-] & Hhc%estimate_Fin & ->).
  fold (h c) in Hhc.
  pose proof (walk_consistent _ _ _ _ Hw2) as Hcons. rewrite Hhc in Hcons.
  destruct (h y) as [hy|] eqn:Hhy; [|done]. simpl in Hcons.
  pose proof (heuristic_nonneg graph y endNode) as Hnn. fold (h y) in Hnn.
  rewrite Hhy in Hnn. simpl in Hnn.
  assert (Hys : y ≠ startNode) by (intros ->; done).
  pose proof (op_pos _ _ _ _ Hopt y gy (or_introl Hy) Hys Hgy) as Hpos.
  specialize (Hmin y Hy). unfold read_f in Hmin.
  destruct (sc_open _ _ _ _ Hsc y Hy) as (g & Hg & Hfy).
  rewrite Hgy in Hg. injection Hg as <-.
  unfold h in Hhy. apply estimate_Fin in Hhy. rewrite Hhy in Hfy.
  rewrite Hfy in Hmin. simpl in Hmin.
  rewrite decide_False in Hmin by lra. simpl in Hmin. lra.
Qed.

Lemma closed_score_nonneg st c gc :
  scored graph startNode endNode st -> settled st ∨ (∃ l : list Neighbor, expanding c l st) ->
  c ∈ closedSet st -> gScore st !! c = Some (Fin gc) -> (0 <= gc)%R.
Proof.
  intros Hsc Hopt Hc Hgc. destruct (decide (c = startNode)) as [->|Hne].
  - rewrite (sc_start_g _ _ _ _ Hsc) in Hgc. injection Hgc as <-. lra.
  - left. destruct Hopt as [Hopt|[l Hopt]]; eapply (op_pos _ _ _ _ Hopt); eauto.
Qed.

Lemma optimal_close st c f :
  structural graph startNode st -> scored graph startNode endNode st -> settled st ->
  c ∈ openSet st -> read_f st c = Fin f ->
  (∀ x, x ∈ openSet st -> nle (Fin f) (read_f st x)) ->
  expanding c (neighbors adj c) (close_node c st).
Proof.
  intros Hst Hsc Hopt Hc Hf Hmin. split; simpl.
  - intros n r Hn. apply (op_pos _ _ _ _ Hopt).
    destruct Hn as [[_ Hn]%list_elem_of_filter|[->|Hn]%elem_of_cons]; auto.
  - intros n r path cost [->|Hn]%elem_of_cons Hg Hw.
    + by eapply select_optimal.
    + by eapply (op_closed _ _ _ _ Hopt).
  - intros u nb gu [->|Hu]%elem_of_cons Hnb Hpend Hgu; [tauto|].
    destruct (op_relaxed _ _ _ _ Hopt u nb gu) as [Hin Hg]; [done|done|tauto|done|].
    split; [|done]. destruct (decide (nb_node nb = c)) as [->|Hne].
    + right. by left.
    + destruct Hin as [Hin|Hin]; [left|right; by right].
      by apply list_elem_of_filter.
Qed.

(** The entry just handled is no longer pending once the score of its
    node is at most the score of the expanded node plus its weight. *)
Lemma optimal_keep c gc nb l st :
  gScore st !! c = Some (Fin gc) ->
  (nb_node nb ∈ openSet st ∨ nb_node nb ∈ closedSet st) ->
  (∃ gn, gScore st !! nb_node nb = Some (Fin gn) ∧ (gn <= gc + nb_weight nb)%R) ->
  expanding c (nb :: l) st -> expanding c l st.
Proof.
  intros Hgc Hin Hgn [Hpos Hcl Hrel]. split; [done|done|].
  intros u x gu Hu Hx Hpend Hgu.
  destruct (decide (u = c ∧ x = nb)) as [[-> ->]|Hother].
  - rewrite Hgc in Hgu. injection Hgu as <-. done.
  - apply (Hrel u x gu); try done. intros [-> [->|Hxl]%elem_of_cons]; tauto.
Qed.

Lemma optimal_record c gc nb l st st0 :
  gScore st0 = gScore st -> closedSet st0 = closedSet st ->
  (∀ m, m ∈ openSet st -> m ∈ openSet st0) ->
  (∀ m, m ∈ openSet st0 -> m = nb_node nb ∨ m ∈ openSet st) ->
  nb_node nb ∈ openSet st0 ->
  c ∈ closedSet st -> nb_node nb ∉ closedSet st ->
  gScore st !! c = Some (Fin gc) -> (0 <= gc)%R -> (0 < nb_weight nb)%R ->
  (∀ gn, nb_node nb ∈ openSet st ∨ nb_node nb ∈ closedSet st ->
         gScore st !! nb_node nb = Some (Fin gn) -> (gc + nb_weight nb < gn)%R) ->
  expanding c (nb :: l) st ->
  expanding c l (record_best graph endNode c (Fin (gc + nb_weight nb)) nb st0).
Proof.
  intros Eg Ec Hsub Hopen Hn Hc Hnc Hgc Hgc0 Hw Hbetter [Hpos Hcl Hrel].
  split; simpl; rewrite ?Eg, ?Ec.
  - intros m r Hm Hms. destruct (decide (nb_node nb = m)) as [<-|Hne].
    + rewrite lookup_insert_eq. intros [= <-]. lra.
    + rewrite lookup_insert_ne by done. apply Hpos; [|done].
      destruct Hm as [Hm|Hm]; [|by right].
      destruct (Hopen m Hm) as [->|?]; [done|by left].
  - intros m r path cost Hm. rewrite lookup_insert_ne; [by apply Hcl|].
    intros Heq. by rewrite Heq in Hnc.
  - intros u x gu Hu Hx Hpend.
    assert (Hun : nb_node nb ≠ u) by (intros Heq; by rewrite Heq in Hnc).
    rewrite lookup_insert_ne by done. intros Hgu.
    destruct (decide (u = c ∧ x = nb)) as [[-> ->]|Hother].
    { rewrite Hgc in Hgu. injection Hgu as <-. split; [by left|].
      rewrite lookup_insert_eq. eexists. split; [done|lra]. }
    destruct (Hrel u x gu) as [Hin (gn & Hgn & Hle)]; try done.
    { intros [-> [->|Hxl]%elem_of_cons]; tauto. }
    destruct (decide (nb_node nb = nb_node x)) as [Heq|Hne].
    + rewrite <- Heq in *. split; [by left|].
      rewrite lookup_insert_eq. eexists. split; [done|].
      specialize (Hbetter gn Hin Hgn). lra.
    + rewrite lookup_insert_ne by done. split; [|by eexists].
      destruct Hin as [Hin|Hin]; [left; by apply Hsub|by right].
Qed.

Lemma optimal_relax c nb l st :
  structural graph startNode st -> scored graph startNode endNode st ->
  c ∈ closedSet st -> nb ∈ neighbors adj c ->
  expanding c (nb :: l) st ->
  expanding c l (relax graph endNode c st nb).
Proof.
  intros Hst Hsc Hc Hnb Hopt.
  destruct (sc_closed _ _ _ _ Hsc c Hc) as [gc Hgc].
  assert (Hgc0 : (0 <= gc)%R) by (eapply closed_score_nonneg; eauto).
  assert (Hw : (0 < nb_weight nb)%R) by (by eapply neighbor_positive, list_elem_of_In).
  assert (Hstart : startNode ∈ closedSet st).
  { destruct (sc_start _ _ _ _ Hsc) as [[_ Hnil]|Hs]; [|done].
    rewrite Hnil in Hc. by apply elem_of_nil in Hc. }
  destruct (relax_cases graph endNode c st nb gc Hgc)
    as [[Hcl ->]|[(Hcl & Hop & ->)|[(Hcl & Hop & Hge & ->)|(Hcl & Hop & Hge & ->)]]].
  - destruct (sc_closed _ _ _ _ Hsc _ Hcl) as [gn Hgn].
    apply (optimal_keep c gc nb l st Hgc); [by right| |done].
    exists gn. split; [done|].
    destruct (reconstruct_walk graph startNode endNode no_edge_from_0 st c Hst Hsc
                (or_intror Hc)) as (path & r & Hr & Hwalk & _).
    rewrite Hgc in Hr. injection Hr as <-.
    apply (op_closed _ _ _ _ Hopt (nb_node nb) gn (path ++ [nb_node nb])); [done|done|].
    apply (walk_snoc _ _ _ c); [done|]. apply list_elem_of_In. by destruct nb.
  - apply (optimal_record c gc nb l st); try done.
    + simpl. intros m Hm. apply elem_of_app. by left.
    + simpl. intros m [Hm|Hm%list_elem_of_singleton]%elem_of_app; auto.
    + simpl. apply elem_of_app. right. by left.
    + intros gn [?|?]; done.
  - assert (Hns : nb_node nb ≠ startNode) by (intros Heq; by rewrite Heq in Hcl).
    destruct (sc_pred _ _ _ _ Hsc (nb_node nb) (or_introl Hop) Hns)
      as (p & w & gp & _ & _ & _ & _ & Hgn).
    pose proof (op_pos _ _ _ _ Hopt _ _ (or_introl Hop) Hns Hgn) as Hpos.
    rewrite Hgn in Hge. rewrite or_else_nonzero in Hge by lra.
    apply ge_Fin_iff in Hge.
    apply (optimal_keep c gc nb l st Hgc); [by left| |done]. by eexists.
  - assert (Hns : nb_node nb ≠ startNode) by (intros Heq; by rewrite Heq in Hcl).
    apply (optimal_record c gc nb l st); try done; [auto|].
    intros gn _ Hgn.
    pose proof (op_pos _ _ _ _ Hopt _ _ (or_introl Hop) Hns Hgn) as Hpos.
    rewrite Hgn in Hge. rewrite or_else_nonzero in Hge by lra.
    simpl in Hge. apply bool_decide_eq_false in Hge. lra.
Qed.

Lemma optimal_relax_fold c l st :
  structural graph startNode st -> scored graph startNode endNode st ->
  c ∈ closedSet st -> (∀ nb, nb ∈ l -> nb ∈ neighbors adj c) ->
  expanding c l st ->
  settled (fold_left (relax graph endNode c) l st).
Proof.
  revert st. induction l as [|nb l IH]; intros st Hst Hsc Hc Hl Hopt; simpl.
  - eapply optimal_weaken; [|exact Hopt]. by intros u nb [_ ?%elem_of_nil].
  - assert (Hnb : nb ∈ neighbors adj c) by (apply Hl; by left).
    apply IH.
    + by apply structural_relax.
    + by apply scored_relax.
    + by rewrite relax_closedSet.
    + intros x Hx. apply Hl. by right.
    + by apply optimal_relax.
Qed.

Lemma optimal_round st st1 :
  structural graph startNode st -> scored graph startNode endNode st -> settled st ->
  round graph adj endNode st = Some st1 ->
  settled st1.
Proof.
  intros Hst Hsc Hopt (c & r & _ & Hc & Hr & _ & Hmin & ->)%round_Some.
  apply optimal_relax_fold.
  - by apply structural_close.
  - by eapply scored_close.
  - by left.
  - done.
  - by eapply optimal_close.
Qed.

Lemma optimal_rounds st st1 :
  structural graph startNode st -> scored graph startNode endNode st -> settled st ->
  rounds graph adj endNode st st1 ->
  settled st1.
Proof.
  intros Hst Hsc Hopt Hr. induction Hr as [|st st1 st2 Hround _ IH]; [done|].
  apply IH.
  - by eapply structural_round.
  - by eapply scored_round.
  - by eapply optimal_round.
Qed.

(** The path a search returns is a cheapest walk. *)
Lemma astar_cheapest path :
  astar graph startNode endNode = PathFound path ->
  ∃ cost, cheapest_walk graph startNode endNode path cost.
Proof.
  intros Hfound. unfold astar in Hfound.
  apply search_rounds in Hfound as (st & Hr & Hnone & Hfin); [|done].
  pose proof (structural_rounds graph startNode endNode _ _
                (structural_init graph startNode endNode) Hr) as Hst.
  pose proof (scored_rounds graph startNode endNode _ _
                (scored_init graph startNode endNode) Hr) as Hsc.
  pose proof (optimal_rounds _ _ (structural_init graph startNode endNode)
                (scored_init graph startNode endNode) optimal_init Hr) as Hopt.
  destruct (finish_PathFound graph endNode st path Hnone Hfin)
    as (f & _ & Hend & Hf & Hmin & Hrec).
  destruct (reconstruct_walk graph startNode endNode no_edge_from_0 st endNode Hst Hsc
              (or_introl Hend)) as (path' & r & Hg & Hw & Hrec').
  rewrite Hrec in Hrec'. injection Hrec' as <-.
  exists r. split; [done|]. by eapply select_optimal.
Qed.

End Optimal.

(** ** Running the search on a given graph *)

Lemma kappa_bounds : (7645 < kappa <= 10194)%R.
Proof. unfold kappa. pose proof PI2_3_2. pose proof PI_4. lra. Qed.

(** The estimate from a node on the equator to a goal at longitude 0. *)
Lemma heuristic_towards_origin graph n endNode idn ide x :
  nodes_get graph n = Some (mkNode idn 0 x) ->
  nodes_get graph endNode = Some (mkNode ide 0 0) ->
  (0 <= x <= 90)%R ->
  heuristicDistance graph n endNode = Fin (kappa * x).
Proof.
  intros Hn He Hx. unfold heuristicDistance. rewrite Hn, He. cbv zeta. simpl.
  rewrite haversineDistance_low
    by (rewrite haversine_term_sym; apply haversine_term_equator_low; lra).
  rewrite haversine_sym, haversine_equator by lra. simpl.
  do 2 f_equal. unfold kappa. lra.
Qed.

Lemma search_round fuel graph adj endNode st st1 :
  round graph adj endNode st = Some st1 ->
  search (S fuel) graph adj endNode st = search fuel graph adj endNode st1.
Proof. intros H. by rewrite search_unfold, H. Qed.

Lemma search_finish fuel graph adj endNode st :
  round graph adj endNode st = None ->
  search fuel graph adj endNode st = finish endNode st.
Proof. intros H. by rewrite search_unfold, H. Qed.

Lemma round_select graph adj endNode st c f :
  openSet st ≠ [] ->
  select_lowest (fScore st) (openSet st) = (c, Fin f) ->
  c ≠ -1 -> c ≠ endNode ->
  round graph adj endNode st
  = Some (fold_left (relax graph endNode c) (neighbors adj c) (close_node c st)).
Proof.
  intros Hopen Hsel Hc He. unfold round. destruct (openSet st); [done|].
  rewrite Hsel. rewrite (bool_decide_eq_false_2 _ Hc). simpl.
  by rewrite (bool_decide_eq_false_2 _ He).
Qed.

Lemma finish_select graph adj endNode st f :
  openSet st ≠ [] ->
  select_lowest (fScore st) (openSet st) = (endNode, Fin f) ->
  endNode ≠ -1 ->
  round graph adj endNode st = None ∧
  finish endNode st =
    match reconstruct (S (length (closedSet st))) (previous st) (Some endNode) [] with
    | Some path => PathFound path
    | None => OutOfFuel
    end.
Proof.
  intros Hopen Hsel He. unfold round, finish. destruct (openSet st); [done|].
  rewrite Hsel. rewrite (bool_decide_eq_false_2 _ He). simpl.
  by rewrite bool_decide_eq_true_2.
Qed.

(** The tables after the tactics below have pushed the projections
    through the state constructors. *)
Ltac push_projections :=
  cbn [fold_left init_step init_state empty_state record_best open_add close_node
       gScore fScore previous openSet closedSet nb_node nb_weight snd n_id app].

Ltac push_state :=
  push_projections;
  repeat match goal with
  | |- context [nodes ?g] =>
      let r := eval hnf in (nodes g) in progress change (nodes g) with r
  end;
  push_projections.

Ltac eval_lookups :=
  repeat first
    [ rewrite lookup_insert_eq
    | rewrite lookup_insert_ne by done
    | rewrite lookup_empty ].

Ltac eval_members :=
  repeat match goal with
  | |- context [bool_decide (?x ∈ ?l)] =>
      let r := eval vm_compute in (bool_decide (x ∈ l)) in
      change (bool_decide (x ∈ l)) with r
  | |- context [filter ?P ?l] =>
      let r := eval vm_compute in (filter P l) in
      change (filter P l) with r
  end.

Ltac eval_state := repeat (progress (push_state; eval_members)).

Ltac start_select := unfold select_lowest; eval_state; rewrite lowest_step_eq; eval_lookups.

(** ** The graph with a node of id 0 *)

Lemma zero_id_adj0 : neighbors (buildAdjacencyList zero_id) 0 = [mkNeighbor 1 5].
Proof.
  rewrite buildAdjacencyList_neighbors. simpl.
  unfold neighbor_of, edge_weight. simpl. by rewrite decide_True by lra.
Qed.

Lemma zero_id_search : astar zero_id 0 1 = PathFound [1].
Proof.
  pose proof kappa_bounds as Hk.
  assert (H01 : heuristicDistance zero_id 0 1 = Fin (kappa * 0.001)).
  { apply (heuristic_towards_origin zero_id 0 1 0 1); [done|done|lra]. }
  assert (H11 : heuristicDistance zero_id 1 1 = Fin (kappa * 0)).
  { apply (heuristic_towards_origin zero_id 1 1 1 1); [done|done|lra]. }
  unfold astar. change (length (edges zero_id)) with 1%nat.
  erewrite search_round; cycle 1.
  { eapply round_select; [by push_state| |..].
    - start_select. rewrite H01, read_nonzero by nra. reflexivity.
    - done.
    - done. }
  rewrite zero_id_adj0. push_state. unfold relax. eval_state. cbn [negb].
  eval_lookups. rewrite or_else_Fin_0.
  match goal with |- search _ _ _ _ ?st = _ => set (st1 := st) end.
  assert (Hopen : openSet st1 ≠ []) by (unfold st1; by eval_state).
  assert (Hsel : select_lowest (fScore st1) (openSet st1) = (1, Fin (0 + 5 + kappa * 0))).
  { unfold st1. start_select. rewrite H11. cbn [Num.add Num.add_double].
    by rewrite read_nonzero by lra. }
  destruct (finish_select zero_id (buildAdjacencyList zero_id) 1 st1 _
              Hopen Hsel ltac:(done)) as [Hnone Hfin].
  rewrite search_finish, Hfin by done. unfold st1.
  eval_state. cbn [reconstruct length]. unfold previous_or_null. eval_lookups.
  by rewrite decide_True.
Qed.

Lemma zero_id_snap_start : snaps_to zero_id (mkCoord 0 0.001) 0.
Proof.
  split; [|done].
  apply (findNearestNode_exact zero_id (mkCoord 0 0.001) [] 0 (mkNode 0 0 0.001)
           [(1, mkNode 1 0 0)]); [done| |by intros e d []].
  apply haversineDistance_same.
Qed.

Lemma zero_id_snap_end : snaps_to zero_id (mkCoord 0 0) 1.
Proof.
  split; [|done].
  apply (findNearestNode_exact zero_id (mkCoord 0 0) [(0, mkNode 0 0 0.001)] 1
           (mkNode 1 0 0) []); [done| |].
  - apply haversineDistance_same.
  - intros e d [<-|[]]. unfold distance_to. simpl. intros ->%haversineDistance_Fin.
    apply haversine_equator_pos; [|lra]. rewrite Rabs_pos_eq; lra.
Qed.

(** C3, where the code departs from it.  On the graph [zero_id] the start
    coordinate resolves to node 0 at (0, 0.001) and the end coordinate to
    node 1 at (0, 0); the call succeeds, and the route it returns is the
    single position of the end node: the walk back over the predecessors
    stops at the predecessor 0, and the position of the start node is lost. *)
Theorem C3_route_loses_start_node_of_id_0 :
  snaps_to zero_id (mkCoord 0 0.001) 0 ∧
  snaps_to zero_id (mkCoord 0 0) 1 ∧
  nodes_get zero_id 0 = Some (mkNode 0 0 0.001) ∧
  previous_or_null (<[1 := Some 0]> ∅) 1 = None ∧
  calculateRoute zero_id (mkCoord 0 0.001) (mkCoord 0 0) = Returns [mkCoord 0 0].
Proof.
  split_and!; [exact zero_id_snap_start|exact zero_id_snap_end|done| |].
  - unfold previous_or_null. by rewrite lookup_insert_eq, decide_True.
  - unfold calculateRoute, calculateRoute_with.
    destruct zero_id_snap_start as [-> _]. destruct zero_id_snap_end as [-> _].
    rewrite !bool_decide_eq_false_2 by done. cbn [orb].
    by rewrite zero_id_search.
Qed.

(** ** Edge weights and the three-node chain *)

Lemma edge_weight_cases edge :
  ((e_travel_time edge > 0)%R ∧ edge_weight edge = e_travel_time edge) ∨
  (¬ (e_travel_time edge > 0)%R ∧ edge_weight edge = e_length edge).
Proof. unfold edge_weight. destruct (decide (e_travel_time edge > 0)%R); auto. Qed.

Section Chain3.
Context (p1 p2 p3 : Coordinate).
Let adj := buildAdjacencyList (chain3 p1 p2 p3).

Lemma chain3_adj1 : neighbors adj 1 = [mkNeighbor 2 5].
Proof.
  unfold adj. rewrite buildAdjacencyList_neighbors. simpl.
  unfold neighbor_of, edge_weight. simpl. by rewrite decide_True by lra.
Qed.

Lemma chain3_adj2 : neighbors adj 2 = [mkNeighbor 3 20].
Proof.
  unfold adj. rewrite buildAdjacencyList_neighbors. simpl.
  unfold neighbor_of, edge_weight. simpl. by rewrite decide_False by lra.
Qed.

Lemma chain3_adj3 : neighbors adj 3 = [].
Proof. unfold adj. by rewrite buildAdjacencyList_neighbors. Qed.

(** The chain has one walk from 1 to 3, and it costs 25. *)
Lemma chain3_walk path cost :
  walk adj 1 path 3 cost ↔ path = [1; 2; 3] ∧ cost = 25%R.
Proof.
  split.
  - intros Hw. inversion Hw as [|u v w path1 t cost1 H1 Hw1]; subst.
    rewrite chain3_adj1 in H1. destruct H1 as [[= <- <-]|[]].
    inversion Hw1 as [|u v w path2 t cost2 H2 Hw2]; subst.
    rewrite chain3_adj2 in H2. destruct H2 as [[= <- <-]|[]].
    inversion Hw2 as [|u v w path3 t cost3 H3 Hw3]; subst.
    + split; [done|lra].
    + rewrite chain3_adj3 in H3. destruct H3.
  - intros [-> ->]. eapply walk_cost.
    + eapply (walk_edge _ 1 2 5); [rewrite chain3_adj1; by left|].
      eapply (walk_edge _ 2 3 20); [rewrite chain3_adj2; by left|].
      apply walk_stay.
    + lra.
Qed.

End Chain3.

Lemma neighbors_weight graph u nb :
  In nb (neighbors (buildAdjacencyList graph) u) ↔
  ∃ edge,
    In edge (edges graph) ∧ e_from edge = u ∧ nb_node nb = e_to edge ∧
    (((e_travel_time edge > 0)%R ∧ nb_weight nb = e_travel_time edge) ∨
     (¬ (e_travel_time edge > 0)%R ∧ nb_weight nb = e_length edge)).
Proof.
  rewrite neighbors_In. split.
  - intros (edge & Hin & Hu & ->). exists edge. split_and!; try done.
    apply edge_weight_cases.
  - intros (edge & Hin & Hu & Hto & Hw). exists edge. split_and!; try done.
    destruct nb as [n w]. simpl in *. subst n. unfold neighbor_of. f_equal.
    destruct (edge_weight_cases edge) as [[? ->]|[? ->]], Hw as [[? ->]|[? ->]]; done.
Qed.

Lemma chain3_found p1 p2 p3 path :
  astar (chain3 p1 p2 p3) 1 3 = PathFound path -> path = [1; 2; 3].
Proof.
  intros Hfound.
  destruct (astar_walk (chain3 p1 p2 p3) 1 3) with (path := path) as [cost Hw];
    [|done|].
  { intros edge [<-|[<-|[]]]; done. }
  by apply chain3_walk in Hw as [-> ->].
Qed.

(** ** One relaxation at a time *)

Lemma relax_closed_eq graph endNode c st nb :
  nb_node nb ∈ closedSet st -> relax graph endNode c st nb = st.
Proof. intros H. unfold relax. by rewrite bool_decide_eq_true_2. Qed.

Lemma relax_new_eq graph endNode c st nb gc :
  gScore st !! c = Some (Fin gc) ->
  nb_node nb ∉ closedSet st -> nb_node nb ∉ openSet st ->
  relax graph endNode c st nb
  = record_best graph endNode c (Fin (gc + nb_weight nb)) nb (open_add (nb_node nb) st).
Proof.
  intros Hgc Hcl Hop.
  destruct (relax_cases graph endNode c st nb gc Hgc)
    as [[? _]|[(_ & _ & ->)|[(_ & ? & _)|(_ & ? & _)]]]; done.
Qed.

Ltac solve_member := eval_state; apply (bool_decide_unpack _); vm_compute; exact I.
Ltac solve_lookup := eval_state; eval_lookups; reflexivity.
Ltac relax_new := erewrite relax_new_eq; [|solve_lookup|solve_member|solve_member].
Ltac relax_closed := rewrite relax_closed_eq by solve_member.

(** ** The chain, wherever its nodes lie *)

Lemma heuristicDistance_self graph n node :
  nodes_get graph n = Some node -> heuristicDistance graph n n = Fin 0.
Proof.
  intros Hn. unfold heuristicDistance. rewrite Hn. cbv zeta.
  rewrite haversineDistance_same. simpl. do 2 f_equal. lra.
Qed.

Section Chain3Search.
Context (p1 p2 p3 : Coordinate) (r1 r2 : R).

(** The estimates from the nodes 1 and 2 to the node 3 are numbers, and
    that from node 1 is not zero. *)
Hypothesis estimate_1 : heuristicDistance (chain3 p1 p2 p3) 1 3 = Fin r1.
Hypothesis estimate_1_not_0 : r1 ≠ 0%R.
Hypothesis estimate_2 : heuristicDistance (chain3 p1 p2 p3) 2 3 = Fin r2.

Lemma chain3_round_1 :
  round (chain3 p1 p2 p3) (buildAdjacencyList (chain3 p1 p2 p3)) 3
    (init_state (chain3 p1 p2 p3) 1 3)
  = Some (record_best (chain3 p1 p2 p3) 3 1 (Fin (0 + 5)) (mkNeighbor 2 5)
            (open_add 2 (close_node 1 (init_state (chain3 p1 p2 p3) 1 3)))).
Proof.
  erewrite round_select; cycle 1.
  - by eval_state.
  - start_select. rewrite estimate_1, read_nonzero by done. reflexivity.
  - done.
  - done.
  - rewrite chain3_adj1. cbn [fold_left]. by relax_new.
Qed.

Lemma chain3_round_2 :
  round (chain3 p1 p2 p3) (buildAdjacencyList (chain3 p1 p2 p3)) 3
    (record_best (chain3 p1 p2 p3) 3 1 (Fin (0 + 5)) (mkNeighbor 2 5)
       (open_add 2 (close_node 1 (init_state (chain3 p1 p2 p3) 1 3))))
  = Some (record_best (chain3 p1 p2 p3) 3 2 (Fin (0 + 5 + 20)) (mkNeighbor 3 20)
            (open_add 3 (close_node 2
               (record_best (chain3 p1 p2 p3) 3 1 (Fin (0 + 5)) (mkNeighbor 2 5)
                  (open_add 2 (close_node 1 (init_state (chain3 p1 p2 p3) 1 3))))))).
Proof.
  pose proof (heuristicDistance_Fin_nonneg _ _ _ _ estimate_2) as Hr2.
  erewrite round_select; cycle 1.
  - by eval_state.
  - start_select. rewrite estimate_2. cbn [Num.add Num.add_double].
    rewrite read_nonzero by lra. reflexivity.
  - done.
  - done.
  - rewrite chain3_adj2. cbn [fold_left]. by relax_new.
Qed.

(** The search closes 1, then 2, and ends on 3 with the score 25. *)
Lemma chain3_run :
  ∃ st,
    rounds (chain3 p1 p2 p3) (buildAdjacencyList (chain3 p1 p2 p3)) 3
      (init_state (chain3 p1 p2 p3) 1 3) st ∧
    round (chain3 p1 p2 p3) (buildAdjacencyList (chain3 p1 p2 p3)) 3 st = None ∧
    finish 3 st = PathFound [1; 2; 3] ∧
    closedSet st = [2; 1] ∧
    gScore st !! 2 = Some (Fin 5) ∧
    gScore st !! 3 = Some (Fin 25).
Proof.
  assert (H3 : heuristicDistance (chain3 p1 p2 p3) 3 3 = Fin 0)
    by by apply (heuristicDistance_self _ 3 (mkNode 3 (lat p3) (lon p3))).
  eexists. split; [|split; [|split]].
  - eapply rounds_next; [exact chain3_round_1|].
    eapply rounds_next; [exact chain3_round_2|]. apply rounds_here.
  - apply (finish_select _ _ 3 _ (0 + 5 + 20 + 0)); [by eval_state| |done].
    start_select. rewrite H3. cbn [Num.add Num.add_double].
    by rewrite read_nonzero by lra.
  - match goal with |- finish 3 ?st = _ =>
      destruct (finish_select (chain3 p1 p2 p3) (buildAdjacencyList (chain3 p1 p2 p3)) 3 st
                  (0 + 5 + 20 + 0)) as [_ ->] end; [by eval_state| |done|].
    + start_select. rewrite H3. cbn [Num.add Num.add_double].
      by rewrite read_nonzero by lra.
    + eval_state. cbn [reconstruct length]. unfold previous_or_null. eval_lookups.
      rewrite !decide_False by done. eval_lookups. by rewrite !decide_False by done.
  - eval_state. split; [done|]. eval_lookups.
    split; do 2 f_equal; lra.
Qed.

Lemma chain3_search : astar (chain3 p1 p2 p3) 1 3 = PathFound [1; 2; 3].
Proof.
  destruct chain3_run as (st & Hr & Hnone & Hfin & _).
  unfold astar. rewrite (rounds_search _ 3 _ _ Hr Hnone); [done|].
  apply astar_total.
Qed.

End Chain3Search.

(** C2. The weight of an adjacency entry is the travel time of its edge
    when that is strictly positive and the length of the edge otherwise,
    edge by edge.  On the three-node chain, wherever its nodes lie, as long
    as the estimates from the nodes 1 and 2 to the node 3 are numbers and
    that from node 1 is not zero, the search from node 1 to node 3 closes 1
    and 2, reaches node 2 at the score 5 and node 3 at the score 25, and
    finds the path 1, 2, 3, whose total weight is 25; and whatever the
    estimates, a path it finds is that one. *)
Theorem C2_weight_is_travel_time_else_length :
  (∀ (graph : GraphData) (u : Z) (nb : Neighbor),
     In nb (neighbors (buildAdjacencyList graph) u) ↔
     ∃ edge,
       In edge (edges graph) ∧ e_from edge = u ∧ nb_node nb = e_to edge ∧
       (((e_travel_time edge > 0)%R ∧ nb_weight nb = e_travel_time edge) ∨
        (¬ (e_travel_time edge > 0)%R ∧ nb_weight nb = e_length edge))) ∧
  (∀ (p1 p2 p3 : Coordinate) (r1 r2 : R),
     heuristicDistance (chain3 p1 p2 p3) 1 3 = Fin r1 -> r1 ≠ 0%R ->
     heuristicDistance (chain3 p1 p2 p3) 2 3 = Fin r2 ->
     astar (chain3 p1 p2 p3) 1 3 = PathFound [1; 2; 3] ∧
     (∀ cost, walk (buildAdjacencyList (chain3 p1 p2 p3)) 1 [1; 2; 3] 3 cost ↔ cost = 25%R) ∧
     ∃ st,
       rounds (chain3 p1 p2 p3) (buildAdjacencyList (chain3 p1 p2 p3)) 3
         (init_state (chain3 p1 p2 p3) 1 3) st ∧
       finish 3 st = PathFound [1; 2; 3] ∧
       gScore st !! 2 = Some (Fin 5) ∧
       gScore st !! 3 = Some (Fin 25)) ∧
  (∀ (p1 p2 p3 : Coordinate) (path : list Z),
     astar (chain3 p1 p2 p3) 1 3 = PathFound path ->
     path = [1; 2; 3] ∧
     ∀ cost, walk (buildAdjacencyList (chain3 p1 p2 p3)) 1 path 3 cost ↔ cost = 25%R).
Proof.
  split_and!.
  - apply neighbors_weight.
  - intros p1 p2 p3 r1 r2 H1 Hr1 H2. split_and!.
    + by apply (chain3_search p1 p2 p3 r1 r2).
    + intros cost. rewrite chain3_walk. tauto.
    + destruct (chain3_run p1 p2 p3 r1 r2 H1 Hr1 H2) as (st & Hr & _ & Hfin & _ & Hg2 & Hg3).
      by exists st.
  - intros p1 p2 p3 path ->%chain3_found. split; [done|].
    intros cost. rewrite chain3_walk. tauto.
Qed.

(** ** The detour graph *)

Lemma relax_fold_cons graph endNode c nb l st :
  fold_left (relax graph endNode c) (nb :: l) st
  = fold_left (relax graph endNode c) l (relax graph endNode c st nb).
Proof. reflexivity. Qed.

Lemma relax_fold_nil graph endNode c st :
  fold_left (relax graph endNode c) [] st = st.
Proof. reflexivity. Qed.

Lemma detour_adj1 :
  neighbors (buildAdjacencyList detour) 1 = [mkNeighbor 2 10; mkNeighbor 3 30].
Proof.
  rewrite buildAdjacencyList_neighbors. simpl.
  unfold neighbor_of, edge_weight. simpl. by rewrite !decide_True by lra.
Qed.

Lemma detour_adj2 : neighbors (buildAdjacencyList detour) 2 = [mkNeighbor 3 10].
Proof.
  rewrite buildAdjacencyList_neighbors. simpl.
  unfold neighbor_of, edge_weight. simpl. by rewrite !decide_True by lra.
Qed.

Lemma detour_adj3 : neighbors (buildAdjacencyList detour) 3 = [mkNeighbor 4 100].
Proof.
  rewrite buildAdjacencyList_neighbors. simpl.
  unfold neighbor_of, edge_weight. simpl. by rewrite !decide_True by lra.
Qed.

Lemma detour_adj4 : neighbors (buildAdjacencyList detour) 4 = [].
Proof. by rewrite buildAdjacencyList_neighbors. Qed.

Lemma detour_estimates :
  heuristicDistance detour 1 4 = Fin (kappa * 0.011) ∧
  heuristicDistance detour 2 4 = Fin (kappa * 0.01) ∧
  heuristicDistance detour 3 4 = Fin (kappa * 0.001) ∧
  heuristicDistance detour 4 4 = Fin (kappa * 0).
Proof.
  split_and!.
  - apply (heuristic_towards_origin detour 1 4 1 4); [done|done|lra].
  - apply (heuristic_towards_origin detour 2 4 2 4); [done|done|lra].
  - apply (heuristic_towards_origin detour 3 4 3 4); [done|done|lra].
  - apply (heuristic_towards_origin detour 4 4 4 4); [done|done|lra].
Qed.

(** The search expands 1, then 3, whose score 30 it never revises, then 2,
    whose edge to 3 it skips, and ends on 4. *)
Lemma detour_search : astar detour 1 4 = PathFound [1; 3; 4].
Proof.
  pose proof kappa_bounds as Hk.
  destruct detour_estimates as (H1 & H2 & H3 & H4).
  unfold astar. change (length (edges detour)) with 4%nat.
  erewrite search_round; cycle 1.
  { eapply round_select; [by eval_state| |..].
    - start_select. rewrite H1, read_nonzero by nra. reflexivity.
    - done.
    - done. }
  rewrite detour_adj1, relax_fold_cons. relax_new.
  rewrite relax_fold_cons. relax_new. rewrite relax_fold_nil.
  erewrite search_round; cycle 1.
  { eapply round_select; [by eval_state| |..].
    - start_select. rewrite H2. cbn [Num.add Num.add_double]. rewrite read_nonzero by nra.
      cbn [Num.lt]. rewrite lowest_step_eq. eval_lookups. rewrite H3. cbn [Num.add Num.add_double].
      rewrite read_nonzero by nra. rewrite lt_Fin_true by nra. reflexivity.
    - done.
    - done. }
  rewrite detour_adj3, relax_fold_cons. relax_new. rewrite relax_fold_nil.
  erewrite search_round; cycle 1.
  { eapply round_select; [by eval_state| |..].
    - start_select. rewrite H2. cbn [Num.add Num.add_double]. rewrite read_nonzero by nra.
      cbn [Num.lt]. rewrite lowest_step_eq. eval_lookups. rewrite H4. cbn [Num.add Num.add_double].
      rewrite read_nonzero by nra. rewrite lt_Fin_false by nra. reflexivity.
    - done.
    - done. }
  rewrite detour_adj2, relax_fold_cons. relax_closed. rewrite relax_fold_nil.
  match goal with |- search _ _ _ _ ?st = _ => set (st3 := st) end.
  assert (Hopen : openSet st3 ≠ []) by (unfold st3; by eval_state).
  assert (Hsel : select_lowest (fScore st3) (openSet st3)
                 = (4, Fin (0 + 30 + 100 + kappa * 0))).
  { unfold st3. start_select. rewrite H4. cbn [Num.add Num.add_double].
    by rewrite read_nonzero by lra. }
  destruct (finish_select detour (buildAdjacencyList detour) 4 st3 _
              Hopen Hsel ltac:(done)) as [Hnone Hfin].
  rewrite search_finish, Hfin by done. unfold st3.
  eval_state. cbn [reconstruct length]. unfold previous_or_null. eval_lookups.
  rewrite !decide_False by done. eval_lookups. by rewrite !decide_False by done.
Qed.

Lemma detour_walk_from_4 path cost :
  walk (buildAdjacencyList detour) 4 path 4 cost -> path = [4] ∧ cost = 0%R.
Proof.
  intros Hw. inversion Hw as [|u v w path1 t cost1 H1 Hw1]; subst; [done|].
  rewrite detour_adj4 in H1. destruct H1.
Qed.

Lemma detour_walk_from_3 path cost :
  walk (buildAdjacencyList detour) 3 path 4 cost -> path = [3; 4] ∧ cost = 100%R.
Proof.
  intros Hw. inversion Hw as [|u v w path1 t cost1 H1 Hw1]; subst.
  rewrite detour_adj3 in H1. destruct H1 as [[= <- <-]|[]].
  apply detour_walk_from_4 in Hw1 as [-> ->]. split; [done|lra].
Qed.

Lemma detour_walk_from_2 path cost :
  walk (buildAdjacencyList detour) 2 path 4 cost -> path = [2; 3; 4] ∧ cost = 110%R.
Proof.
  intros Hw. inversion Hw as [|u v w path1 t cost1 H1 Hw1]; subst.
  rewrite detour_adj2 in H1. destruct H1 as [[= <- <-]|[]].
  apply detour_walk_from_3 in Hw1 as [-> ->]. split; [done|lra].
Qed.

Lemma detour_walk_from_1 path cost :
  walk (buildAdjacencyList detour) 1 path 4 cost ->
  (path = [1; 2; 3; 4] ∧ cost = 120%R) ∨ (path = [1; 3; 4] ∧ cost = 130%R).
Proof.
  intros Hw. inversion Hw as [|u v w path1 t cost1 H1 Hw1]; subst.
  rewrite detour_adj1 in H1. destruct H1 as [[= <- <-]|[[= <- <-]|[]]].
  - apply detour_walk_from_2 in Hw1 as [-> ->]. left. split; [done|lra].
  - apply detour_walk_from_3 in Hw1 as [-> ->]. right. split; [done|lra].
Qed.

Lemma detour_short_walk : walk (buildAdjacencyList detour) 1 [1; 2; 3; 4] 4 120.
Proof.
  eapply walk_cost.
  - eapply (walk_edge _ 1 2 10); [rewrite detour_adj1; by left|].
    eapply (walk_edge _ 2 3 10); [rewrite detour_adj2; by left|].
    eapply (walk_edge _ 3 4 100); [rewrite detour_adj3; by left|].
    apply walk_stay.
  - lra.
Qed.

(** On the detour graph the estimate never exceeds the cost of a walk to
    the goal. *)
Lemma detour_admissible : admissible detour 4.
Proof.
  pose proof kappa_bounds as Hk.
  destruct detour_estimates as (H1 & H2 & H3 & H4).
  intros n path cost Hw.
  assert (Hn : n = 1 ∨ n = 2 ∨ n = 3 ∨ n = 4).
  { inversion Hw as [|u v w path1 t cost1 Hnb Hw1]; subst; [auto|].
    apply neighbors_In in Hnb as (edge & Hin & Hfrom & _).
    destruct Hin as [<-|[<-|[<-|[<-|[]]]]]; simpl in Hfrom; auto. }
  apply estimate_Fin in H1, H2, H3, H4.
  destruct Hn as [-> | [-> | [-> | ->]]].
  - rewrite H1. simpl. apply detour_walk_from_1 in Hw as [[_ ->]|[_ ->]]; lra.
  - rewrite H2. simpl. apply detour_walk_from_2 in Hw as [_ ->]. lra.
  - rewrite H3. simpl. apply detour_walk_from_3 in Hw as [_ ->]. lra.
  - rewrite H4. simpl. apply detour_walk_from_4 in Hw as [_ ->]. lra.
Qed.

Lemma detour_snap_start : snaps_to detour (mkCoord 0 0.011) 1.
Proof.
  split; [|done].
  apply (findNearestNode_exact detour (mkCoord 0 0.011) [] 1 (mkNode 1 0 0.011)
           [(2, mkNode 2 0 0.01); (3, mkNode 3 0 0.001); (4, mkNode 4 0 0)]);
    [done| |by intros e d []].
  apply haversineDistance_same.
Qed.

Lemma detour_snap_end : snaps_to detour (mkCoord 0 0) 4.
Proof.
  split; [|done].
  apply (findNearestNode_exact detour (mkCoord 0 0)
           [(1, mkNode 1 0 0.011); (2, mkNode 2 0 0.01); (3, mkNode 3 0 0.001)] 4
           (mkNode 4 0 0) []); [done| |].
  - apply haversineDistance_same.
  - intros e d [<-|[<-|[<-|[]]]]; unfold distance_to; simpl;
      intros ->%haversineDistance_Fin;
      (apply haversine_equator_pos; [rewrite Rabs_pos_eq; lra|lra]).
Qed.

(** On the detour graph the estimate is admissible towards node 4, the
    call from the place of node 1 to the place of node 4 succeeds, and the
    route it returns follows 1, 3, 4 at a cost of 130 while the walk
    1, 2, 3, 4 costs 120: no cheapest walk has the positions of the returned
    route. *)
Lemma detour_costlier_route :
  snaps_to detour (mkCoord 0 0.011) 1 ∧
  snaps_to detour (mkCoord 0 0) 4 ∧
  admissible detour 4 ∧
  calculateRoute detour (mkCoord 0 0.011) (mkCoord 0 0)
  = Returns [mkCoord 0 0.011; mkCoord 0 0.001; mkCoord 0 0] ∧
  walk (buildAdjacencyList detour) 1 [1; 3; 4] 4 130 ∧
  walk (buildAdjacencyList detour) 1 [1; 2; 3; 4] 4 120 ∧
  ¬ ∃ path cost,
      [mkCoord 0 0.011; mkCoord 0 0.001; mkCoord 0 0] = path_coords detour path ∧
      cheapest_walk detour 1 4 path cost.
Proof.
  split_and!.
  - exact detour_snap_start.
  - exact detour_snap_end.
  - exact detour_admissible.
  - unfold calculateRoute, calculateRoute_with.
    destruct detour_snap_start as [-> _]. destruct detour_snap_end as [-> _].
    rewrite !bool_decide_eq_false_2 by done. cbn [orb].
    by rewrite detour_search.
  - eapply walk_cost.
    + eapply (walk_edge _ 1 3 30); [rewrite detour_adj1; right; by left|].
      eapply (walk_edge _ 3 4 100); [rewrite detour_adj3; by left|].
      apply walk_stay.
    + lra.
  - exact detour_short_walk.
  - intros (path & cost & Hroute & Hw & Hmin).
    apply detour_walk_from_1 in Hw as [[-> ->]|[-> ->]].
    + discriminate Hroute.
    + specialize (Hmin _ _ detour_short_walk). lra.
Qed.


(** ** The slow road *)

Lemma slow_road_adj1 : neighbors (buildAdjacencyList slow_road) 1 = [mkNeighbor 2 5].
Proof.
  rewrite buildAdjacencyList_neighbors. simpl.
  unfold neighbor_of, edge_weight. simpl. by rewrite decide_True by lra.
Qed.

Lemma slow_road_estimates :
  heuristicDistance slow_road 1 2 = Fin (kappa * 0.0001) ∧
  heuristicDistance slow_road 2 2 = Fin (kappa * 0).
Proof.
  split.
  - apply (heuristic_towards_origin slow_road 1 2 1 2); [done|done|lra].
  - apply (heuristic_towards_origin slow_road 2 2 2 2); [done|done|lra].
Qed.

Lemma slow_road_search : astar slow_road 1 2 = PathFound [1; 2].
Proof.
  pose proof kappa_bounds as Hk.
  destruct slow_road_estimates as [H1 H2].
  unfold astar. change (length (edges slow_road)) with 1%nat.
  erewrite search_round; cycle 1.
  { eapply round_select; [by eval_state| |..].
    - start_select. rewrite H1, read_nonzero by nra. reflexivity.
    - done.
    - done. }
  rewrite slow_road_adj1, relax_fold_cons. relax_new. rewrite relax_fold_nil.
  match goal with |- search _ _ _ _ ?st = _ => set (st1 := st) end.
  assert (Hopen : openSet st1 ≠ []) by (unfold st1; by eval_state).
  assert (Hsel : select_lowest (fScore st1) (openSet st1) = (2, Fin (0 + 5 + kappa * 0))).
  { unfold st1. start_select. rewrite H2. cbn [Num.add Num.add_double].
    by rewrite read_nonzero by lra. }
  destruct (finish_select slow_road (buildAdjacencyList slow_road) 2 st1 _
              Hopen Hsel ltac:(done)) as [Hnone Hfin].
  rewrite search_finish, Hfin by done. unfold st1.
  eval_state. cbn [reconstruct length]. unfold previous_or_null. eval_lookups.
  rewrite !decide_False by done. by eval_lookups.
Qed.

Lemma slow_road_snap_start : snaps_to slow_road (mkCoord 0 0.0001) 1.
Proof.
  split; [|done].
  apply (findNearestNode_exact slow_road (mkCoord 0 0.0001) [] 1 (mkNode 1 0 0.0001)
           [(2, mkNode 2 0 0)]); [done| |by intros e d []].
  apply haversineDistance_same.
Qed.

Lemma slow_road_snap_end : snaps_to slow_road (mkCoord 0 0) 2.
Proof.
  split; [|done].
  apply (findNearestNode_exact slow_road (mkCoord 0 0) [(1, mkNode 1 0 0.0001)] 2
           (mkNode 2 0 0) []); [done| |].
  - apply haversineDistance_same.
  - intros e d [<-|[]]. unfold distance_to. simpl. intros ->%haversineDistance_Fin.
    apply haversine_equator_pos; [|lra]. rewrite Rabs_pos_eq; lra.
Qed.

Lemma slow_road_positive : positive_weights slow_road.
Proof.
  intros edge [<-|[]]. unfold edge_weight. simpl. rewrite decide_True by lra. lra.
Qed.

Lemma slow_road_consistent : consistent slow_road 2.
Proof.
  pose proof kappa_bounds as Hk. destruct slow_road_estimates as [H1 H2].
  apply estimate_Fin in H1, H2.
  intros edge [<-|[]]. cbn [e_from e_to]. rewrite H1, H2. unfold edge_weight. simpl.
  rewrite decide_True by lra. lra.
Qed.

Lemma slow_road_route :
  calculateRoute slow_road (mkCoord 0 0.0001) (mkCoord 0 0)
  = Returns [mkCoord 0 0.0001; mkCoord 0 0].
Proof.
  unfold calculateRoute, calculateRoute_with.
  destruct slow_road_snap_start as [-> _]. destruct slow_road_snap_end as [-> _].
  rewrite !bool_decide_eq_false_2 by done. cbn [orb].
  by rewrite slow_road_search.
Qed.

(** ** Where a route starts and ends *)

Lemma path_coords_app graph l1 l2 :
  path_coords graph (l1 ++ l2) = path_coords graph l1 ++ path_coords graph l2.
Proof.
  induction l1 as [|n l1 IH]; simpl; [done|].
  destruct (nodes_get graph n); [|done]. by rewrite IH.
Qed.

Lemma path_coords_positions graph path c :
  In c (path_coords graph path) ->
  ∃ key node, nodes_get graph key = Some node ∧ c = coord_of node.
Proof.
  induction path as [|n path IH]; simpl; [done|].
  destruct (nodes_get graph n) as [node|] eqn:Hn; [|done].
  intros [<-|Hc]; [by exists n, node|by apply IH].
Qed.

(** A search that finds a path has read a finite estimate for its start
    node, so both ends have a node in the mapping. *)
Lemma astar_found_ends graph startNode endNode path :
  astar graph startNode endNode = PathFound path ->
  is_Some (nodes_get graph startNode) ∧ is_Some (nodes_get graph endNode).
Proof.
  intros Hfound. unfold astar in Hfound.
  assert (Hfin : ∃ r, heuristicDistance graph startNode endNode = Fin r).
  { apply search_rounds in Hfound as (st & Hr & Hnone & Hfin); [|done].
    assert (Hread : ∃ r, read_f (init_state graph startNode endNode) startNode = Fin r).
    { inversion Hr as [st0|st0 st1 st2 Hround Hrest]; subst.
      - destruct (finish_PathFound graph endNode _ path Hnone Hfin)
          as (f & _ & Hend & Hf & _).
        rewrite init_state_openSet in Hend. apply list_elem_of_singleton in Hend.
        subst endNode. by exists f.
      - apply round_Some in Hround as (c & r & _ & Hc & Hf & _).
        rewrite init_state_openSet in Hc. apply list_elem_of_singleton in Hc.
        subst c. by exists r. }
    destruct Hread as [r Hread]. apply read_f_Fin in Hread as [Hread _].
    rewrite init_state_fScore_start in Hread. exists r. congruence. }
  destruct Hfin as [r Hfin]. unfold heuristicDistance in Hfin.
  destruct (nodes_get graph startNode); [|done].
  destruct (nodes_get graph endNode); [|done]. by split.
Qed.

(** X23. When no edge leaves a node of id 0, a returned route starts at the
    position of the resolved start node, ends at the position of the
    resolved end node, and is made of positions of nodes of the mapping. *)
Lemma route_ends_at_resolved_nodes graph startCoord endCoord startNode endNode route :
  snaps_to graph startCoord startNode ->
  snaps_to graph endCoord endNode ->
  (∀ edge, In edge (edges graph) -> e_from edge ≠ 0) ->
  calculateRoute graph startCoord endCoord = Returns route ->
  ∃ ns ne,
    nodes_get graph startNode = Some ns ∧ nodes_get graph endNode = Some ne ∧
    head route = Some (coord_of ns) ∧ last route = Some (coord_of ne) ∧
    ∀ c, In c route -> ∃ key node, nodes_get graph key = Some node ∧ c = coord_of node.
Proof.
  intros [Hs Hs1] [He He1] Hno0.
  unfold calculateRoute, calculateRoute_with. rewrite Hs, He.
  rewrite (bool_decide_eq_false_2 _ Hs1), (bool_decide_eq_false_2 _ He1). cbn [orb].
  destruct (decide (startNode = endNode)) as [<-|Hne].
  - rewrite bool_decide_eq_true_2 by done.
    destruct (nodes_get graph startNode) as [node|] eqn:Hnode; [|done].
    intros [= <-]. exists node, node. split_and!; try done.
    intros c [<-|[]]. by exists startNode, node.
  - rewrite (bool_decide_eq_false_2 _ Hne).
    destruct (astar graph startNode endNode) as [path| |] eqn:Hfound; try done.
    intros [= <-].
    destruct (astar_found_ends _ _ _ _ Hfound) as [[ns Hns] [ne Hne']].
    destruct (astar_walk graph startNode endNode Hno0 path Hfound) as [cost Hw].
    apply walk_ends in Hw as [Hhead Hlast].
    exists ns, ne. split_and!; try done.
    + destruct path as [|n path]; [done|]. injection Hhead as ->. simpl. by rewrite Hns.
    + apply last_Some in Hlast as [front ->].
      rewrite path_coords_app. simpl. rewrite Hne'. by rewrite last_snoc.
    + apply path_coords_positions.
Qed.

(** ** The shape of a returned path *)

Lemma previous_or_null_Some prev n q :
  previous_or_null prev n = Some q -> prev !! n = Some (Some q) ∧ q ≠ 0.
Proof.
  unfold previous_or_null. destruct (prev !! n) as [[p|]|]; try done.
  destruct (decide (p = 0)); [done|]. by intros [= ->].
Qed.

Lemma previous_or_null_None prev n p :
  previous_or_null prev n = None -> prev !! n = Some (Some p) -> p = 0.
Proof.
  unfold previous_or_null. intros H Hp. rewrite Hp in H.
  by destruct (decide (p = 0)).
Qed.

Section PathShape.
Context (graph : GraphData) (startNode endNode : Z).
Let adj := buildAdjacencyList graph.

(** Where the walk back over the predecessors can stop: at the start node,
    or at a node whose recorded predecessor is 0. *)
Lemma trail_head st u :
  scored graph startNode endNode st ->
  u ∈ openSet st ∨ u ∈ closedSet st ->
  previous_or_null (previous st) u = None ->
  u = startNode ∨ ∃ w, In (mkNeighbor u w) (neighbors adj 0).
Proof.
  intros Hsc Hu Hnone. destruct (decide (u = startNode)) as [->|Hne]; [by left|].
  right. destruct (sc_pred _ _ _ _ Hsc u Hu Hne) as (p & w & gp & H1 & _ & H3 & _).
  apply (previous_or_null_None _ _ _ Hnone) in H1. subst p.
  exists w. by apply list_elem_of_In.
Qed.

Lemma trail_step st n q :
  scored graph startNode endNode st ->
  n ∈ openSet st ∨ n ∈ closedSet st ->
  previous_or_null (previous st) n = Some q ->
  q ∈ closedSet st ∧ ∃ w, In (mkNeighbor n w) (neighbors adj q).
Proof.
  intros Hsc Hn [Hq Hq0]%previous_or_null_Some.
  destruct (decide (n = startNode)) as [->|Hne].
  { by apply (sc_start_prev _ _ _ _ Hsc) in Hq. }
  destruct (sc_pred _ _ _ _ Hsc n Hn Hne) as (p & w & gp & H1 & H2 & H3 & _).
  rewrite Hq in H1. injection H1 as <-. split; [done|].
  exists w. by apply list_elem_of_In.
Qed.

(** From a closed node, the walk back over the predecessors goes through
    closed nodes only, each at most once, along edges of the graph. *)
Lemma chain_trail st cs :
  scored graph startNode endNode st ->
  chain (previous st) cs -> NoDup cs ->
  (∀ n, n ∈ cs -> n ∈ closedSet st) ->
  ∀ n, n ∈ cs ->
    ∃ path u cost,
      walk adj u path n cost ∧ NoDup path ∧ (∀ m, m ∈ path -> m ∈ cs) ∧
      (u = startNode ∨ ∃ w, In (mkNeighbor u w) (neighbors adj 0)) ∧
      ∀ fuel acc, (length cs <= fuel)%nat ->
        reconstruct fuel (previous st) (Some n) acc = Some (path ++ acc).
Proof.
  intros Hsc Hch. induction Hch as [|c cs Hch IH Hp]; intros Hnd Hsub n Hn.
  { by apply elem_of_nil in Hn. }
  apply NoDup_cons in Hnd as [Hc Hnd].
  assert (Hsub' : ∀ m, m ∈ cs -> m ∈ closedSet st) by (intros m Hm; apply Hsub; by right).
  assert (Hrest : n ∈ cs ->
    ∃ path u cost,
      walk adj u path n cost ∧ NoDup path ∧ (∀ m, m ∈ path -> m ∈ c :: cs) ∧
      (u = startNode ∨ ∃ w, In (mkNeighbor u w) (neighbors adj 0)) ∧
      ∀ fuel acc, (length (c :: cs) <= fuel)%nat ->
        reconstruct fuel (previous st) (Some n) acc = Some (path ++ acc)).
  { intros Hn'. destruct (IH Hnd Hsub' n Hn') as (path & u & cost & Hw & Hpn & Hin & Hu & Hrec).
    exists path, u, cost. split_and!; try done.
    - intros m Hm. right. by apply Hin.
    - intros fuel acc Hfuel. apply Hrec. simpl in Hfuel. lia. }
  apply elem_of_cons in Hn as [->|Hn]; [|by apply Hrest].
  assert (Hcc : c ∈ closedSet st) by (apply Hsub; by left).
  destruct (previous_or_null (previous st) c) as [q|] eqn:Hprev.
  - destruct (trail_step st c q Hsc (or_intror Hcc) Hprev) as [_ [w Hedge]].
    apply previous_or_null_Some in Hprev as Hq. destruct Hq as [Hq _].
    destruct (IH Hnd Hsub' q (Hp q Hq)) as (path & u & cost & Hw & Hpn & Hin & Hu & Hrec).
    exists (path ++ [c]), u, (cost + w)%R. split_and!; try done.
    + by apply (walk_snoc _ _ _ q).
    + apply NoDup_app. split_and!; [done| |apply NoDup_singleton].
      intros m Hm ->%list_elem_of_singleton. by apply Hc, Hin.
    + intros m [Hm| ->%list_elem_of_singleton]%elem_of_app; [right; by apply Hin|by left].
    + intros [|fuel] acc Hfuel; [simpl in Hfuel; lia|]. cbn [reconstruct].
      rewrite Hprev, Hrec by (simpl in Hfuel; lia). by rewrite <- app_assoc.
  - exists [c], c, 0%R. split_and!.
    + constructor.
    + apply NoDup_singleton.
    + intros m ->%list_elem_of_singleton. by left.
    + apply (trail_head st); [done|by right|done].
    + intros [|fuel] acc Hfuel; [simpl in Hfuel; lia|]. cbn [reconstruct].
      by rewrite Hprev, reconstruct_None.
Qed.

(** The path the last round rebuilds from the goal node. *)
Lemma finish_trail st path :
  structural graph startNode st -> scored graph startNode endNode st ->
  round graph adj endNode st = None ->
  finish endNode st = PathFound path ->
  ∃ u cost,
    endNode ∈ openSet st ∧
    walk adj u path endNode cost ∧ NoDup path ∧
    (∀ m, m ∈ path -> m = endNode ∨ m ∈ closedSet st) ∧
    (u = startNode ∨ ∃ w, In (mkNeighbor u w) (neighbors adj 0)).
Proof.
  intros Hst Hsc Hnone Hfin.
  destruct (finish_PathFound graph endNode st path Hnone Hfin)
    as (f & _ & Hend & _ & _ & Hrec).
  cbn [reconstruct] in Hrec.
  destruct (previous_or_null (previous st) endNode) as [q|] eqn:Hprev.
  - destruct (trail_step st endNode q Hsc (or_introl Hend) Hprev) as [Hq [w Hedge]].
    destruct (chain_trail st (closedSet st) Hsc (st_chain _ _ _ Hst) (st_nodup _ _ _ Hst)
                ltac:(done) q Hq) as (front & u & cost & Hw & Hnd & Hin & Hu & Hrec').
    rewrite Hrec' in Hrec by done. injection Hrec as <-.
    exists u, (cost + w)%R. split_and!; try done.
    + by apply (walk_snoc _ _ _ q).
    + apply NoDup_app. split_and!; [done| |apply NoDup_singleton].
      intros m Hm ->%list_elem_of_singleton.
      by apply (st_open _ _ _ Hst endNode Hend), Hin.
    + intros m [Hm| ->%list_elem_of_singleton]%elem_of_app; [right; by apply Hin|by left].
  - rewrite reconstruct_None in Hrec. injection Hrec as <-.
    exists endNode, 0%R. split_and!; try done.
    + constructor.
    + apply NoDup_singleton.
    + intros m ->%list_elem_of_singleton. by left.
    + apply (trail_head st); [done|by left|done].
Qed.

(** Every closed node was selected with a finite score, so its estimate
    is finite. *)
Lemma closed_estimate_finite st st1 :
  scored graph startNode endNode st ->
  (∀ c, c ∈ closedSet st -> ∃ r, heuristicDistance graph c endNode = Fin r) ->
  rounds graph adj endNode st st1 ->
  ∀ c, c ∈ closedSet st1 -> ∃ r, heuristicDistance graph c endNode = Fin r.
Proof.
  intros Hsc Hfin Hr. induction Hr as [|st st1 st2 Hround _ IH]; [done|].
  apply IH; [by eapply scored_round|].
  apply round_Some in Hround as (c0 & r & _ & Hc0 & Hread & _ & _ & ->).
  intros c. rewrite relax_fold_closedSet. cbn [close_node closedSet].
  intros [->|Hc]%elem_of_cons; [|by apply Hfin].
  destruct (sc_open _ _ _ _ Hsc c0 Hc0) as (g & _ & Hf).
  apply read_f_Fin in Hread as [Hread _]. rewrite Hf in Hread. injection Hread as Hread.
  apply add_double_Fin_inv in Hread as (x & y & _ & Hy & _). by exists y.
Qed.

Lemma estimate_finite_keyed n r :
  heuristicDistance graph n endNode = Fin r ->
  is_Some (nodes_get graph n) ∧ is_Some (nodes_get graph endNode).
Proof.
  unfold heuristicDistance. destruct (nodes_get graph n); [|done].
  destruct (nodes_get graph endNode); [|done]. by split.
Qed.

(** What a found path is made of. *)
Lemma astar_trail path :
  astar graph startNode endNode = PathFound path ->
  ∃ u cost,
    walk adj u path endNode cost ∧ NoDup path ∧
    (∀ m, m ∈ path -> m ∈ universe graph startNode ∧ is_Some (nodes_get graph m)) ∧
    (u = startNode ∨ ∃ w, In (mkNeighbor u w) (neighbors adj 0)).
Proof.
  intros Hfound. unfold astar in Hfound.
  apply search_rounds in Hfound as (st & Hr & Hnone & Hfin); [|done].
  pose proof (structural_rounds graph startNode endNode _ _
                (structural_init graph startNode endNode) Hr) as Hst.
  pose proof (scored_rounds graph startNode endNode _ _
                (scored_init graph startNode endNode) Hr) as Hsc.
  destruct (finish_trail st path Hst Hsc Hnone Hfin) as (u & cost & Hend & Hw & Hnd & Hin & Hu).
  exists u, cost. split_and!; try done.
  intros m Hm. destruct (Hin m Hm) as [->|Hc].
  - split; [by apply (st_open _ _ _ Hst)|].
    destruct (finish_PathFound graph endNode st path Hnone Hfin)
      as (f & _ & _ & Hread & _).
    destruct (sc_open _ _ _ _ Hsc endNode Hend) as (g & _ & Hf).
    apply read_f_Fin in Hread as [Hread _]. rewrite Hf in Hread. injection Hread as Hread.
    apply add_double_Fin_inv in Hread as (x & y & _ & Hy & _).
    by apply estimate_finite_keyed in Hy as [? _].
  - split; [by apply (st_closed _ _ _ Hst)|].
    destruct (closed_estimate_finite _ st (scored_init graph startNode endNode)) with (c := m)
      as [r Hr']; [|done|done|].
    + intros c. rewrite init_state_closedSet. by intros ?%elem_of_nil.
    + by apply estimate_finite_keyed in Hr' as [? _].
Qed.

End PathShape.

Lemma path_coords_keyed graph path :
  (∀ m, m ∈ path -> is_Some (nodes_get graph m)) ->
  Forall2 (position_of graph) path (path_coords graph path).
Proof.
  induction path as [|n path IH]; intros Hkeys; simpl; [constructor|].
  destruct (Hkeys n) as [node Hnode]; [by left|]. rewrite Hnode.
  constructor; [by exists node|]. apply IH. intros m Hm. apply Hkeys. by right.
Qed.

(** X1. A returned route is, point by point, the positions of the nodes of
    a walk along edges of the graph: no node of the walk is skipped for want
    of a position, no node occurs twice, the walk ends at the node the end
    coordinate resolves to, and it begins at the node the start coordinate
    resolves to or, cut short, at the target of an edge that leaves the
    node 0. *)
Theorem route_follows_simple_walk :
  ∀ (graph : GraphData) (startCoord endCoord : Coordinate) (route : list Coordinate),
    calculateRoute graph startCoord endCoord = Returns route ->
    ∃ path u cost,
      walk (buildAdjacencyList graph) u path (findNearestNode graph endCoord) cost ∧
      NoDup path ∧
      Forall2 (position_of graph) path route ∧
      (u = findNearestNode graph startCoord ∨
       ∃ w, In (mkNeighbor u w) (neighbors (buildAdjacencyList graph) 0)).
Proof.
  intros graph startCoord endCoord route.
  unfold calculateRoute, calculateRoute_with.
  set (startNode := findNearestNode graph startCoord).
  set (endNode := findNearestNode graph endCoord).
  destruct (_ || _); [done|].
  destruct (bool_decide (startNode = endNode)) eqn:Hsame.
  - apply bool_decide_eq_true in Hsame. rewrite <- Hsame.
    destruct (nodes_get graph startNode) as [node|] eqn:Hnode; [|done].
    intros [= <-]. exists [startNode], startNode, 0%R. split_and!.
    + constructor.
    + apply NoDup_singleton.
    + constructor; [by exists node|constructor].
    + by left.
  - destruct (astar graph startNode endNode) as [path| |] eqn:Hfound; try done.
    intros [= <-].
    destruct (astar_trail graph startNode endNode path Hfound)
      as (u & cost & Hw & Hnd & Hin & Hu).
    exists path, u, cost. split_and!; try done.
    apply path_coords_keyed. intros m Hm. by apply Hin.
Qed.

(** ** A goal that can be reached is found *)

Lemma relax_openSet_mono graph endNode c st nb n :
  n ∈ openSet st -> n ∈ openSet (relax graph endNode c st nb).
Proof.
  intros Hn. unfold relax. destruct (bool_decide (nb_node nb ∈ closedSet st)); [done|].
  destruct (negb _); [|by destruct (Num.ge _ _)].
  simpl. apply elem_of_app. by left.
Qed.

Lemma relax_met graph endNode c st nb :
  nb_node nb ∈ openSet (relax graph endNode c st nb) ∨ nb_node nb ∈ closedSet st.
Proof.
  unfold relax. destruct (bool_decide (nb_node nb ∈ closedSet st)) eqn:Hcl.
  { right. by apply bool_decide_eq_true in Hcl. }
  left. destruct (bool_decide (nb_node nb ∈ openSet st)) eqn:Hop; cbn [negb].
  - apply bool_decide_eq_true in Hop. by destruct (Num.ge _ _).
  - simpl. apply elem_of_app. right. by left.
Qed.

Lemma relax_fold_openSet_mono graph endNode c l st n :
  n ∈ openSet st -> n ∈ openSet (fold_left (relax graph endNode c) l st).
Proof.
  revert st. induction l as [|nb l IH]; intros st Hn; simpl; [done|].
  by apply IH, relax_openSet_mono.
Qed.

(** After the "Explore neighbors" loop every neighbour is open or closed. *)
Lemma relax_fold_met graph endNode c l st nb :
  nb ∈ l ->
  nb_node nb ∈ openSet (fold_left (relax graph endNode c) l st) ∨
  nb_node nb ∈ closedSet st.
Proof.
  revert st. induction l as [|x l IH]; intros st Hnb; simpl.
  { by apply elem_of_nil in Hnb. }
  apply elem_of_cons in Hnb as [->|Hnb].
  - destruct (relax_met graph endNode c st x) as [Hop|Hcl]; [left|by right].
    by apply relax_fold_openSet_mono.
  - destruct (IH (relax graph endNode c st x) Hnb) as [Hop|Hcl]; [by left|right].
    by rewrite relax_closedSet in Hcl.
Qed.

Section Complete.
Context (graph : GraphData) (startNode endNode : Z).
Let adj := buildAdjacencyList graph.
Let met (st : SearchState) (n : Z) : Prop := n ∈ openSet st ∨ n ∈ closedSet st.

(** The score of every node met, the start node apart, is positive. *)
Let positive (st : SearchState) : Prop :=
  ∀ n r, met st n -> n ≠ startNode -> gScore st !! n = Some (Fin r) -> (0 < r)%R.

(** Every neighbour of a closed node has been met. *)
Let relaxed (st : SearchState) : Prop :=
  ∀ c nb, c ∈ closedSet st -> nb ∈ neighbors adj c -> met st (nb_node nb).

Hypothesis weights_positive : positive_weights graph.

Lemma positive_record c gc nb st st0 :
  gScore st0 = gScore st -> closedSet st0 = closedSet st ->
  (∀ m, m ∈ openSet st0 -> m = nb_node nb ∨ m ∈ openSet st) ->
  (0 <= gc)%R -> (0 < nb_weight nb)%R ->
  positive st ->
  positive (record_best graph endNode c (Fin (gc + nb_weight nb)) nb st0).
Proof.
  intros Eg Ec Hopen Hgc Hw Hpos m r Hm Hms. simpl. rewrite Eg.
  destruct (decide (nb_node nb = m)) as [<-|Hne].
  - rewrite lookup_insert_eq. intros [= <-]. lra.
  - rewrite lookup_insert_ne by done. apply Hpos; [|done].
    destruct Hm as [Hm|Hm]; simpl in Hm.
    + destruct (Hopen m Hm) as [->|?]; [done|by left].
    + right. by rewrite <- Ec.
Qed.

Lemma positive_relax c st nb :
  scored graph startNode endNode st ->
  c ∈ closedSet st -> nb ∈ neighbors adj c ->
  positive st -> positive (relax graph endNode c st nb).
Proof.
  intros Hsc Hc Hnb Hpos. destruct (sc_closed _ _ _ _ Hsc c Hc) as [gc Hgc].
  assert (Hgc0 : (0 <= gc)%R).
  { destruct (decide (c = startNode)) as [->|Hne].
    - rewrite (sc_start_g _ _ _ _ Hsc) in Hgc. injection Hgc as <-. lra.
    - left. apply (Hpos c gc); [by right|done|done]. }
  assert (Hw : (0 < nb_weight nb)%R).
  { apply list_elem_of_In, neighbors_In in Hnb as (edge & Hin & _ & ->).
    by apply weights_positive. }
  destruct (relax_cases graph endNode c st nb gc Hgc)
    as [[_ ->]|[(Hcl & Hop & ->)|[(_ & _ & _ & ->)|(Hcl & Hop & _ & ->)]]]; try done.
  - apply (positive_record c gc nb st); try done.
    simpl. intros m [Hm|Hm%list_elem_of_singleton]%elem_of_app; auto.
  - apply (positive_record c gc nb st); auto.
Qed.

Lemma positive_relax_fold c l st :
  scored graph startNode endNode st ->
  c ∈ closedSet st -> (∀ nb, nb ∈ l -> nb ∈ neighbors adj c) ->
  positive st -> positive (fold_left (relax graph endNode c) l st).
Proof.
  revert st. induction l as [|nb l IH]; intros st Hsc Hc Hl Hpos; simpl; [done|].
  assert (Hnb : nb ∈ neighbors adj c) by (apply Hl; by left).
  apply IH.
  - by apply scored_relax.
  - by rewrite relax_closedSet.
  - intros x Hx. apply Hl. by right.
  - by apply positive_relax.
Qed.

Lemma positive_round st st1 :
  scored graph startNode endNode st -> positive st ->
  round graph adj endNode st = Some st1 -> positive st1.
Proof.
  intros Hsc Hpos (c & r & _ & Hc & Hr & _ & _ & ->)%round_Some.
  apply positive_relax_fold; [by eapply scored_close|by left|done|].
  intros n x Hn. apply Hpos.
  destruct Hn as [[_ Hn]%list_elem_of_filter|[->|Hn]%elem_of_cons]; [by left|by left|by right].
Qed.

Lemma relaxed_round st st1 :
  relaxed st -> round graph adj endNode st = Some st1 -> relaxed st1.
Proof.
  intros Hrel (c & r & _ & Hc & _ & _ & _ & ->)%round_Some u nb.
  unfold met. rewrite relax_fold_closedSet. cbn [close_node closedSet].
  intros [->|Hu]%elem_of_cons Hnb.
  - destruct (relax_fold_met graph endNode c (neighbors adj c) (close_node c st) nb Hnb)
      as [Hop|Hcl]; [by left|by right].
  - destruct (decide (nb_node nb = c)) as [->|Hne]; [right; by left|].
    destruct (Hrel u nb Hu Hnb) as [Hop|Hcl]; [left|right; by right].
    apply relax_fold_openSet_mono. simpl. by apply list_elem_of_filter.
Qed.

Lemma complete_rounds st st1 :
  scored graph startNode endNode st -> positive st -> relaxed st ->
  endNode ∉ closedSet st ->
  rounds graph adj endNode st st1 ->
  positive st1 ∧ relaxed st1 ∧ endNode ∉ closedSet st1.
Proof.
  intros Hsc Hpos Hrel Hend Hr. induction Hr as [|st st1 st2 Hround _ IH]; [done|].
  apply IH; [by eapply scored_round|by eapply positive_round|by eapply relaxed_round|].
  apply round_Some in Hround as (c & r & _ & _ & _ & Hce & _ & ->).
  rewrite relax_fold_closedSet. cbn [close_node closedSet].
  apply not_elem_of_cons. by split.
Qed.

(** A walk from a node met to a node that is not closed goes through an
    open node. *)
Lemma open_on_walk st u path v cost :
  relaxed st -> walk adj u path v cost ->
  met st u -> v ∉ closedSet st -> ∃ y, y ∈ openSet st.
Proof.
  intros Hrel Hw. induction Hw as [u|u x w path t cost Hx Hw IH]; intros Hu Hv.
  - destruct Hu as [Hu|Hu]; [by exists u|done].
  - destruct Hu as [Hu|Hu]; [by exists u|].
    apply IH; [|done]. apply (Hrel u (mkNeighbor x w)); [done|by apply list_elem_of_In].
Qed.

(** The estimates the search computes are numbers: those of the targets
    of the edges, and that of the start node, which is not zero. *)
Hypothesis targets_estimated :
  ∀ edge, In edge (edges graph) -> ∃ r, heuristicDistance graph (e_to edge) endNode = Fin r.
Hypothesis targets_not_marker : ∀ edge, In edge (edges graph) -> e_to edge ≠ -1.
Hypothesis start_not_marker : startNode ≠ -1.
Hypothesis start_estimate :
  ∃ r, heuristicDistance graph startNode endNode = Fin r ∧ r ≠ 0%R.

Lemma universe_keyed n :
  n ∈ universe graph startNode -> n ≠ -1 ∧ ∃ r, heuristicDistance graph n endNode = Fin r.
Proof.
  unfold universe. intros [->|Hn]%elem_of_cons.
  - split; [done|]. destruct start_estimate as (r & Hr & _). by exists r.
  - apply list_elem_of_In, in_map_iff in Hn as (edge & <- & Hin).
    split; [by apply targets_not_marker|by apply targets_estimated].
Qed.

(** Every open node reads as finite: the scan cannot come back empty
    while a node is open. *)
Lemma open_reads_finite st n :
  structural graph startNode st -> scored graph startNode endNode st -> positive st ->
  n ∈ openSet st -> ∃ r, read_f st n = Fin r.
Proof.
  intros Hst Hsc Hpos Hn.
  destruct (st_open _ _ _ Hst n Hn) as [Hu Hnc].
  destruct (universe_keyed n Hu) as [_ [hn Hhn]].
  destruct (sc_open _ _ _ _ Hsc n Hn) as (g & Hg & Hf).
  unfold read_f. rewrite Hf, Hhn. cbn [Num.add_double].
  destruct (decide (n = startNode)) as [->|Hne].
  - rewrite (sc_start_g _ _ _ _ Hsc) in Hg. injection Hg as <-.
    rewrite add_Fin_0_l. exists hn. apply read_nonzero. intros ->.
    destruct start_estimate as (r & Hr & Hr0). congruence.
  - destruct (sc_pred _ _ _ _ Hsc n (or_introl Hn) Hne) as (p & w & gp & _ & _ & _ & _ & Hgn).
    rewrite Hgn in Hg. injection Hg as <-.
    pose proof (Hpos n _ (or_introl Hn) Hne Hgn) as Hgpos.
    pose proof (heuristicDistance_Fin_nonneg graph n endNode hn Hhn) as Hnn.
    exists (gp + w + hn)%R. simpl. rewrite decide_False by lra. done.
Qed.

Lemma astar_complete path cost :
  walk adj startNode path endNode cost ->
  ∃ found, astar graph startNode endNode = PathFound found.
Proof.
  intros Hw.
  destruct (astar graph startNode endNode) as [found| |] eqn:Hres;
    [by exists found| |by apply astar_total in Hres].
  exfalso. unfold astar in Hres.
  apply search_rounds in Hres as (st & Hr & Hnone & Hfin); [|done].
  pose proof (structural_rounds graph startNode endNode _ _
                (structural_init graph startNode endNode) Hr) as Hst.
  pose proof (scored_rounds graph startNode endNode _ _
                (scored_init graph startNode endNode) Hr) as Hsc.
  destruct (complete_rounds _ st (scored_init graph startNode endNode))
    as (Hpos & Hrel & Hend); [| | |done|].
  { intros n r. unfold met. rewrite init_state_openSet, init_state_closedSet.
    intros [->%list_elem_of_singleton|?%elem_of_nil]; done. }
  { intros c nb. rewrite init_state_closedSet. by intros ?%elem_of_nil. }
  { rewrite init_state_closedSet. by intros ?%elem_of_nil. }
  assert (Hmet : met st startNode).
  { destruct (sc_start _ _ _ _ Hsc) as [[Hopen _]|Hcl]; [left|by right].
    rewrite Hopen. by left. }
  unfold round, finish in *.
  destruct (openSet st) as [|n0 l0] eqn:Hopen.
  - (* the open set is empty although the goal can be reached *)
    destruct (open_on_walk st _ _ _ _ Hrel Hw Hmet Hend) as [y Hy].
    rewrite Hopen in Hy. by apply elem_of_nil in Hy.
  - rewrite <- Hopen in *.
    destruct (select_lowest_spec st)
      as [[Hsel Hall]|(c & r & pre & post & Hsel & Hl & Hc & _ & Hmin)].
    + destruct (open_reads_finite st n0 Hst Hsc Hpos) as [r Hr0].
      { rewrite Hopen. by left. }
      rewrite Hall in Hr0; [done|]. rewrite Hopen. by left.
    + rewrite Hsel in Hfin, Hnone. simpl in Hfin, Hnone.
      assert (Hcin : c ∈ openSet st) by (rewrite Hl; apply elem_of_app; right; by left).
      destruct (universe_keyed c (proj1 (st_open _ _ _ Hst c Hcin))) as [Hc1 _].
      rewrite (bool_decide_eq_false_2 _ Hc1) in Hfin, Hnone. simpl in Hfin, Hnone.
      by destruct (reconstruct _ _ _ _).
Qed.

End Complete.

Lemma slow_road_well_formed : well_formed slow_road.
Proof.
  split.
  - intros key node [[= <- <-]|[[= <- <-]|[]]]; done.
  - by apply (bool_decide_unpack _).
Qed.


(** ** Closed nodes are left alone *)

Lemma relax_closed_frozen graph endNode c st nb n :
  n ∈ closedSet st ->
  gScore (relax graph endNode c st nb) !! n = gScore st !! n ∧
  fScore (relax graph endNode c st nb) !! n = fScore st !! n ∧
  previous (relax graph endNode c st nb) !! n = previous st !! n.
Proof.
  intros Hn. unfold relax.
  destruct (bool_decide (nb_node nb ∈ closedSet st)) eqn:Hcl; [done|].
  apply bool_decide_eq_false in Hcl.
  assert (Hne : nb_node nb ≠ n) by (intros Heq; by rewrite Heq in Hcl).
  destruct (negb _); [|destruct (Num.ge _ _); [done|]];
    simpl; by rewrite !lookup_insert_ne.
Qed.

Lemma relax_fold_closed_frozen graph endNode c l st n :
  n ∈ closedSet st ->
  gScore (fold_left (relax graph endNode c) l st) !! n = gScore st !! n ∧
  fScore (fold_left (relax graph endNode c) l st) !! n = fScore st !! n ∧
  previous (fold_left (relax graph endNode c) l st) !! n = previous st !! n.
Proof.
  revert st. induction l as [|nb l IH]; intros st Hn; simpl; [done|].
  destruct (IH (relax graph endNode c st nb)) as (-> & -> & ->).
  - by rewrite relax_closedSet.
  - by apply relax_closed_frozen.
Qed.

Lemma round_closed_frozen graph adj endNode st st1 n :
  round graph adj endNode st = Some st1 ->
  n ∈ closedSet st ->
  n ∈ closedSet st1 ∧
  gScore st1 !! n = gScore st !! n ∧
  fScore st1 !! n = fScore st !! n ∧
  previous st1 !! n = previous st !! n.
Proof.
  unfold round. destruct (openSet st); [done|].
  destruct (select_lowest _ _) as [c m].
  destruct (_ || _); [done|]. destruct (bool_decide (c = endNode)); [done|].
  intros [= <-] Hn. split.
  - rewrite relax_fold_closedSet. by right.
  - apply (relax_fold_closed_frozen graph endNode c _ (close_node c st) n). by right.
Qed.

(** X3. Once a node is closed, the rounds of the main loop that follow
    leave it closed and never change its gScore, its fScore or its recorded
    predecessor. *)
Theorem closed_nodes_are_final :
  ∀ (graph : GraphData) (adjacencyList : gmap Z (list Neighbor)) (endNode : Z)
    (st st1 : SearchState) (n : Z),
    rounds graph adjacencyList endNode st st1 ->
    n ∈ closedSet st ->
    n ∈ closedSet st1 ∧
    gScore st1 !! n = gScore st !! n ∧
    fScore st1 !! n = fScore st !! n ∧
    previous st1 !! n = previous st !! n.
Proof.
  intros graph adj endNode st st1 n Hr.
  induction Hr as [st|st st1 st2 Hround _ IH]; intros Hn; [done|].
  destruct (round_closed_frozen _ _ _ _ _ n Hround Hn) as (Hn1 & <- & <- & <-).
  by apply IH.
Qed.

Lemma chain3_equator_estimates :
  heuristicDistance chain3_equator 1 3 = Fin (kappa * 0.002) ∧
  heuristicDistance chain3_equator 2 3 = Fin (kappa * 0.001) ∧
  heuristicDistance chain3_equator 3 3 = Fin (kappa * 0).
Proof.
  split_and!.
  - apply (heuristic_towards_origin chain3_equator 1 3 1 3); [done|done|lra].
  - apply (heuristic_towards_origin chain3_equator 2 3 2 3); [done|done|lra].
  - apply (heuristic_towards_origin chain3_equator 3 3 3 3); [done|done|lra].
Qed.

Lemma chain3_first_round_eq :
  chain3_first_round =
  record_best chain3_equator 3 1 (Fin (0 + 5)) (mkNeighbor 2 5)
    (open_add 2 (close_node 1 (init_state chain3_equator 1 3))).
Proof.
  unfold chain3_first_round.
  assert (Hadj1 : neighbors (buildAdjacencyList chain3_equator) 1 = [mkNeighbor 2 5])
    by apply chain3_adj1.
  rewrite Hadj1. cbn [fold_left]. by relax_new.
Qed.

Lemma chain3_round1 :
  round chain3_equator (buildAdjacencyList chain3_equator) 3 (init_state chain3_equator 1 3)
  = Some chain3_first_round.
Proof.
  pose proof kappa_bounds as Hk. destruct chain3_equator_estimates as (H1 & H2 & H3).
  unfold chain3_first_round.
  eapply round_select; [by eval_state| |..].
  - start_select. rewrite H1, read_nonzero by nra. reflexivity.
  - done.
  - done.
Qed.

Lemma chain3_round2 :
  round chain3_equator (buildAdjacencyList chain3_equator) 3 chain3_first_round
  = Some chain3_second_round.
Proof.
  pose proof kappa_bounds as Hk. destruct chain3_equator_estimates as (H1 & H2 & H3).
  unfold chain3_second_round. rewrite chain3_first_round_eq.
  eapply round_select; [by eval_state| |..].
  - start_select. rewrite H2. cbn [Num.add Num.add_double].
    rewrite read_nonzero by nra. reflexivity.
  - done.
  - done.
Qed.

Lemma chain3_first_round_closed : 1 ∈ closedSet chain3_first_round.
Proof.
  rewrite chain3_first_round_eq. cbn [record_best open_add close_node closedSet]. by left.
Qed.

(** ** The range of the distance and of the estimate *)

Lemma great_circle_half_way : great_circle_km 0 0 0 180 = (6371 * PI)%R.
Proof.
  unfold great_circle_km, radians, hav.
  replace (0 * PI / 180)%R with 0%R by lra.
  replace ((180 * PI / 180 - 0) / 2)%R with (PI / 2)%R by lra.
  replace ((0 - 0) / 2)%R with 0%R by lra.
  rewrite sin_0, cos_0, sin_PI2.
  replace (0 * 0 + 1 * 1 * (1 * 1))%R with 1%R by lra.
  rewrite sqrt_1, asin_1. lra.
Qed.

Lemma great_circle_range lat1 lon1 lat2 lon2 :
  (0 <= great_circle_km lat1 lon1 lat2 lon2 <= 6371 * PI)%R.
Proof.
  split.
  - rewrite <- haversine_km_great_circle. apply haversine_nonneg.
  - unfold great_circle_km.
    match goal with |- (2 * 6371 * asin ?x <= _)%R => pose proof (asin_bound x) end.
    lra.
Qed.


(** X5. The estimate is infinite exactly when one of the two ids has no
    node in the mapping, and NaN exactly when both have one and the distance
    between the two nodes is NaN; otherwise it is a number of seconds between
    0 and the time to travel half the circumference at 50 km/h.  It is zero
    from a node to itself, and the same in both directions when it is a
    number in both. *)
Theorem heuristicDistance_range :
  ∀ (graph : GraphData) (nodeId endNodeId : Z),
    (heuristicDistance graph nodeId endNodeId = Infinity ↔
     nodes_get graph nodeId = None ∨ nodes_get graph endNodeId = None) ∧
    (heuristicDistance graph nodeId endNodeId = NaN ↔
     ∃ node endNode,
       nodes_get graph nodeId = Some node ∧ nodes_get graph endNodeId = Some endNode ∧
       haversineDistance (n_lat node) (n_lon node) (n_lat endNode) (n_lon endNode) = NaN) ∧
    (∀ r, heuristicDistance graph nodeId endNodeId = Fin r ->
          (0 <= r <= 6371 * PI / 50 * 3600)%R) ∧
    (is_Some (nodes_get graph nodeId) -> heuristicDistance graph nodeId nodeId = Fin 0) ∧
    (∀ r r', heuristicDistance graph nodeId endNodeId = Fin r ->
             heuristicDistance graph endNodeId nodeId = Fin r' -> r = r').
Proof.
  intros graph n e.
  assert (Hpresent : ∀ a b na nb,
    nodes_get graph a = Some na -> nodes_get graph b = Some nb ->
    (heuristicDistance graph a b = NaN ∧
     haversineDistance (n_lat na) (n_lon na) (n_lat nb) (n_lon nb) = NaN)
    ∨ (heuristicDistance graph a b
       = Fin (seconds_at_50kmh (great_circle_km (n_lat na) (n_lon na) (n_lat nb) (n_lon nb))) ∧
       haversineDistance (n_lat na) (n_lon na) (n_lat nb) (n_lon nb) ≠ NaN)).
  { intros a b na nb Ha Hb. rewrite (heuristicDistance_present _ _ _ _ _ Ha Hb).
    destruct (haversineDistance _ _ _ _); [by left|by right]. }
  split_and!.
  - destruct (nodes_get graph n) as [node|] eqn:Hn;
      [|split; [by left|intros _; apply heuristicDistance_absent; by left]].
    destruct (nodes_get graph e) as [endNode|] eqn:He;
      [|split; [by right|intros _; apply heuristicDistance_absent; by right]].
    split; [|by intros [?|?]].
    by destruct (Hpresent n e node endNode Hn He) as [[-> _]|[-> _]].
  - split.
    + intros Hnan.
      destruct (nodes_get graph n) as [node|] eqn:Hn;
        [|by rewrite heuristicDistance_absent in Hnan by by left].
      destruct (nodes_get graph e) as [endNode|] eqn:He;
        [|by rewrite heuristicDistance_absent in Hnan by by right].
      exists node, endNode. split_and!; [done|done|].
      destruct (Hpresent n e node endNode Hn He) as [[_ ?]|[Hfin _]]; [done|congruence].
    + intros (node & endNode & Hn & He & Hnan).
      by rewrite (heuristicDistance_present _ _ _ _ _ Hn He), Hnan.
  - intros r Hr.
    destruct (nodes_get graph n) as [node|] eqn:Hn;
      [|by rewrite heuristicDistance_absent in Hr by by left].
    destruct (nodes_get graph e) as [endNode|] eqn:He;
      [|by rewrite heuristicDistance_absent in Hr by by right].
    destruct (Hpresent n e node endNode Hn He) as [[Hnan _]|[Hfin _]]; [congruence|].
    rewrite Hfin in Hr. injection Hr as <-. unfold seconds_at_50kmh.
    pose proof (great_circle_range (n_lat node) (n_lon node) (n_lat endNode) (n_lon endNode)).
    lra.
  - intros [node Hn]. rewrite (heuristicDistance_present _ _ _ _ _ Hn Hn).
    rewrite haversineDistance_same, <- haversine_km_great_circle, haversine_same.
    unfold seconds_at_50kmh. do 2 f_equal. lra.
  - intros r r' Hr Hr'.
    destruct (nodes_get graph n) as [node|] eqn:Hn;
      [|by rewrite heuristicDistance_absent in Hr by by left].
    destruct (nodes_get graph e) as [endNode|] eqn:He;
      [|by rewrite heuristicDistance_absent in Hr by by right].
    destruct (Hpresent n e node endNode Hn He) as [[Hnan _]|[Hfin _]]; [congruence|].
    destruct (Hpresent e n endNode node He Hn) as [[Hnan' _]|[Hfin' _]]; [congruence|].
    rewrite Hfin in Hr. rewrite Hfin' in Hr'. injection Hr as <-. injection Hr' as <-.
    by rewrite <- !haversine_km_great_circle, haversine_sym.
Qed.

(** ** The scan, the index and the fields the search reads *)

(** X6. The scan for the lowest fScore reads a missing score, a score of
    0 and a score that is NaN as infinite.  It returns the marker -1 when
    every open node reads as infinite; otherwise it returns the first node,
    in the order of insertion into the open set, whose score is the least,
    and that score is finite and not 0. *)
Theorem scan_selects_first_lowest :
  ∀ (fScore : gmap Z double) (openSet : list Z),
    let read n := Num.or_else_double (fScore !! n) Infinity in
    (select_lowest fScore openSet = (-1, Infinity) ∧
     ∀ n, n ∈ openSet -> read n = Infinity)
    ∨ (∃ pre c post r,
         openSet = pre ++ c :: post ∧
         select_lowest fScore openSet = (c, Fin r) ∧
         fScore !! c = Some (Number (Fin r)) ∧ r ≠ 0%R ∧
         (∀ x, x ∈ pre -> ¬ nle (read x) (Fin r)) ∧
         (∀ x, x ∈ post -> nle (Fin r) (read x))).
Proof.
  intros f l read. unfold select_lowest.
  destruct (lowest_fold f l (-1) Infinity)
    as [[Hr Hall]|(pre & c & post & Hl & Hr & Hbeat & Hpre & Hpost)].
  - left. split; [done|]. intros n Hn. by apply nle_Infinity, Hall.
  - right. fold (read c) in *. destruct (read c) as [r|] eqn:Hc; [|done].
    exists pre, c, post, r. split_and!; try done.
    + unfold read, Num.or_else_double, Num.or_else in Hc.
      destruct (f !! c) as [[|[x|]]|]; try done.
      destruct (decide (x = 0%R)); [done|]. by injection Hc as ->.
    + unfold read, Num.or_else_double, Num.or_else in Hc.
      destruct (f !! c) as [[|[x|]]|]; try done.
      destruct (decide (x = 0%R)); [done|]. by injection Hc as <-.
Qed.

Lemma adjacency_step_key adj edge u :
  adjacency_step adj edge !! u =
  if decide (e_from edge = u)
  then Some (default [] (adj !! u) ++ [neighbor_of edge]) else adj !! u.
Proof.
  unfold adjacency_step. cbv zeta.
  destruct (decide (e_from edge = u)) as [->|Hne].
  - rewrite lookup_insert_eq. destruct (adj !! u) as [l|] eqn:Hl.
    + by rewrite Hl.
    + by rewrite lookup_insert_eq.
  - rewrite lookup_insert_ne by done.
    destruct (adj !! e_from edge); [done|]. by rewrite lookup_insert_ne.
Qed.

Lemma adjacency_fold_key es adj u :
  fold_left adjacency_step es adj !! u =
  match filter (λ e, e_from e = u) es with
  | [] => adj !! u
  | out => Some (default [] (adj !! u) ++ map neighbor_of out)
  end.
Proof.
  revert adj. induction es as [|edge es IH]; intros adj; simpl; [done|].
  rewrite IH, adjacency_step_key, filter_cons.
  destruct (decide (e_from edge = u)) as [Hu|Hu].
  - simpl. destruct (filter _ es) as [|e' out]; simpl; [done|].
    by rewrite <- app_assoc.
  - done.
Qed.

(** X7. The adjacency index has an entry for a node exactly when an edge
    leaves it, and the entry lists one neighbour per such edge, parallel
    edges included, in the order of the edges in the graph. *)
Theorem buildAdjacencyList_lookup :
  ∀ (graph : GraphData) (u : Z),
    buildAdjacencyList graph !! u =
    match filter (λ e, e_from e = u) (edges graph) with
    | [] => None
    | out => Some (map neighbor_of out)
    end.
Proof.
  intros graph u. unfold buildAdjacencyList. rewrite adjacency_fold_key.
  by rewrite lookup_empty.
Qed.

Lemma adjacency_step_edge_key adj e1 e2 :
  edge_key e1 = edge_key e2 -> adjacency_step adj e1 = adjacency_step adj e2.
Proof.
  unfold edge_key, adjacency_step. intros [= Hf Ht Hw]. cbv zeta. by rewrite Hf, Ht, Hw.
Qed.

Lemma adjacency_fold_edge_key es1 es2 adj :
  map edge_key es1 = map edge_key es2 ->
  fold_left adjacency_step es1 adj = fold_left adjacency_step es2 adj.
Proof.
  revert es2 adj. induction es1 as [|e1 es1 IH]; intros [|e2 es2] adj; simpl; try done.
  intros Heq. assert (Hk : edge_key e1 = edge_key e2) by congruence.
  assert (Hrest : map edge_key es1 = map edge_key es2) by congruence.
  rewrite (adjacency_step_edge_key adj e1 e2 Hk). by apply IH.
Qed.

Section SameNodes.
Context (g1 g2 : GraphData).
Hypothesis same_nodes : nodes g1 = nodes g2.

Lemma same_nodes_get key : nodes_get g1 key = nodes_get g2 key.
Proof. unfold nodes_get. by rewrite same_nodes. Qed.

Lemma same_nodes_heuristic n e : heuristicDistance g1 n e = heuristicDistance g2 n e.
Proof. unfold heuristicDistance. by rewrite !same_nodes_get. Qed.

Lemma same_nodes_relax e c st nb : relax g1 e c st nb = relax g2 e c st nb.
Proof. unfold relax, record_best. by rewrite !same_nodes_heuristic. Qed.

Lemma same_nodes_relax_fold e c l st :
  fold_left (relax g1 e c) l st = fold_left (relax g2 e c) l st.
Proof.
  revert st. induction l as [|nb l IH]; intros st; simpl; [done|].
  by rewrite IH, same_nodes_relax.
Qed.

Lemma same_nodes_search fuel adj e st : search fuel g1 adj e st = search fuel g2 adj e st.
Proof.
  revert st. induction fuel as [|fuel IH]; intros st; simpl; [done|].
  destruct (openSet st); [done|]. destruct (select_lowest _ _) as [c m].
  destruct (_ || _); [done|]. destruct (bool_decide (c = e)); [done|].
  by rewrite IH, same_nodes_relax_fold.
Qed.

Lemma same_nodes_init s e : init_state g1 s e = init_state g2 s e.
Proof. unfold init_state. by rewrite same_nodes, same_nodes_heuristic. Qed.

Lemma same_nodes_path_coords path : path_coords g1 path = path_coords g2 path.
Proof.
  induction path as [|n path IH]; simpl; [done|]. by rewrite same_nodes_get, IH.
Qed.

End SameNodes.

(** X8. The outcome of a call depends on the graph only through the node
    mapping and, edge by edge and in order, the two ends of the edge and the
    weight it contributes: the advisory counts and [maxspeed] are never read,
    and neither is the length of an edge with a positive travel time. *)
Theorem route_depends_on_effective_weights :
  ∀ (g1 g2 : GraphData) (startCoord endCoord : Coordinate),
    nodes g1 = nodes g2 ->
    map edge_key (edges g1) = map edge_key (edges g2) ->
    calculateRoute g1 startCoord endCoord = calculateRoute g2 startCoord endCoord.
Proof.
  intros g1 g2 startCoord endCoord Hn He.
  assert (Hlen : length (edges g1) = length (edges g2)).
  { by rewrite <- (length_map edge_key (edges g1)), He, length_map. }
  assert (Hadj : buildAdjacencyList g1 = buildAdjacencyList g2).
  { unfold buildAdjacencyList. by apply adjacency_fold_edge_key. }
  unfold calculateRoute, calculateRoute_with, findNearestNode, astar.
  rewrite Hn, Hlen, Hadj, (same_nodes_get g1 g2 Hn), (same_nodes_init g1 g2 Hn),
    (same_nodes_search g1 g2 Hn).
  destruct (_ || _); [done|]. destruct (bool_decide _); [done|].
  destruct (search _ _ _ _ _); try done.
  by rewrite (same_nodes_path_coords g1 g2 Hn).
Qed.

(** ** Errors on well-formed graphs *)

(** X9. On a graph whose keys are the ids of its nodes, none of them -1,
    a call never fails on a missing node: it returns a route, or throws the
    no-path error, or throws the nearest-node error, and this last only when
    from the start or from the end coordinate the distance to every node is
    NaN, as it is on a graph without nodes. *)
Theorem well_formed_graph_errors :
  ∀ (graph : GraphData) (startCoord endCoord : Coordinate),
    well_formed graph ->
    (∀ key node, In (key, node) (nodes graph) -> key ≠ -1) ->
    (∃ route, calculateRoute graph startCoord endCoord = Returns route) ∨
    calculateRoute graph startCoord endCoord = Throws NoPathFound ∨
    (calculateRoute graph startCoord endCoord = Throws NearestNodeNotFound ∧
     ∃ point, (point = startCoord ∨ point = endCoord) ∧
              ∀ e, In e (nodes graph) -> distance_to point (snd e) = NaN).
Proof.
  intros graph startCoord endCoord Hwf Hkeys.
  assert (Hsnap : ∀ point,
    (∀ e, In e (nodes graph) -> distance_to point (snd e) = NaN) ∨
    snaps_to graph point (findNearestNode graph point)).
  { intros point.
    destruct (findNearestNode_spec graph point)
      as [[Hnan _]|(pre & key & node & post & d & Hl & _ & Hr & _)]; [by left|].
    right. split; [done|]. rewrite Hr.
    assert (Hin : In (key, node) (nodes graph)).
    { rewrite Hl. apply in_or_app. right. by left. }
    rewrite (proj1 Hwf key node Hin). by eapply Hkeys. }
  assert (Hlost : ∀ point,
    (∀ e, In e (nodes graph) -> distance_to point (snd e) = NaN) ->
    findNearestNode graph point = -1).
  { intros point Hnan.
    destruct (findNearestNode_spec graph point)
      as [[_ Hr]|(pre & key & node & post & d & Hl & Hd & _)]; [done|].
    assert (Hn : distance_to point node = NaN).
    { apply (Hnan (key, node)). rewrite Hl. apply in_or_app. right. by left. }
    congruence. }
  unfold calculateRoute, calculateRoute_with.
  destruct (Hsnap startCoord) as [Hnan|Hs].
  { right; right. rewrite (Hlost _ Hnan). split; [done|]. exists startCoord. auto. }
  destruct (Hsnap endCoord) as [Hnan|He].
  { right; right. rewrite (Hlost _ Hnan), orb_true_r. split; [done|].
    exists endCoord. auto. }
  destruct (snaps_to_node _ _ _ Hwf Hs) as (ns & Hns & _).
  destruct Hs as [_ Hs1]. destruct He as [_ He1].
  rewrite (bool_decide_eq_false_2 _ Hs1), (bool_decide_eq_false_2 _ He1). cbn [orb].
  destruct (bool_decide _).
  - rewrite Hns. left. by eexists.
  - pose proof (astar_total graph (findNearestNode graph startCoord)
                  (findNearestNode graph endCoord)) as Htot.
    destruct (astar _ _ _); [left; by eexists|right; by left|done].
Qed.

(** ** Resolving the position of a node *)

(** X10. The position of a node of the mapping resolves to a node at
    distance zero from it; when every other entry of the mapping whose
    distance from that position is a number lies at a positive distance, it
    resolves to the id of the node itself. *)
Theorem findNearestNode_on_node :
  ∀ (graph : GraphData) (key : Z) (node : GraphNode),
    In (key, node) (nodes graph) ->
    (∃ key' node',
       In (key', node') (nodes graph) ∧
       findNearestNode graph (coord_of node) = n_id node' ∧
       distance_to (coord_of node) node' = Fin 0) ∧
    ((∀ e d, In e (nodes graph) -> e ≠ (key, node) ->
             distance_to (coord_of node) (snd e) = Fin d -> (0 < d)%R) ->
     findNearestNode graph (coord_of node) = n_id node).
Proof.
  intros graph key node Hin.
  assert (Hself : distance_to (coord_of node) node = Fin 0) by apply haversineDistance_same.
  assert (Hfirst : ∃ key' node',
     In (key', node') (nodes graph) ∧
     findNearestNode graph (coord_of node) = n_id node' ∧
     distance_to (coord_of node) node' = Fin 0).
  { destruct (findNearestNode_spec graph (coord_of node))
      as [[Hnan _]|(pre & key' & node' & post & d & Hl & Hd & Hr & Hpre & Hpost)].
    { specialize (Hnan _ Hin). simpl in Hnan. congruence. }
    exists key', node'. split_and!; [rewrite Hl; apply in_or_app; right; by left|done|].
    pose proof (distance_to_nonneg _ _ _ Hd) as Hnn.
    rewrite Hl in Hin. apply in_app_or in Hin as [Hin|[Heq|Hin]].
    - specialize (Hpre _ 0%R Hin Hself). lra.
    - by injection Heq as -> ->.
    - specialize (Hpost _ 0%R Hin Hself). rewrite Hd. do 2 f_equal. lra. }
  split; [done|]. intros Hothers.
  destruct Hfirst as (key' & node' & Hin' & Hr & Hzero).
  destruct (decide ((key', node') = (key, node))) as [[= -> ->]|Hne]; [done|].
  specialize (Hothers _ 0%R Hin' Hne Hzero). lra.
Qed.

(** ** What the tables hold while the search runs *)

Section Tables.
Context (graph : GraphData) (startNode endNode : Z).
Let adj := buildAdjacencyList graph.

Lemma chain_cost st cs :
  scored graph startNode endNode st ->
  chain (previous st) cs ->
  (∀ n, n ∈ cs -> n ∈ closedSet st) ->
  ∀ n, n ∈ cs ->
    ∃ path r, gScore st !! n = Some (Fin r) ∧ walk adj startNode path n r.
Proof.
  intros Hsc Hch. induction Hch as [|c cs Hch IH Hp]; intros Hsub n Hn.
  { by apply elem_of_nil in Hn. }
  assert (Hsub' : ∀ m, m ∈ cs -> m ∈ closedSet st) by (intros m Hm; apply Hsub; by right).
  apply elem_of_cons in Hn as [->|Hn]; [|by apply IH].
  destruct (decide (c = startNode)) as [->|Hne].
  - exists [startNode], 0%R. split; [apply Hsc|constructor].
  - destruct (sc_pred _ _ _ _ Hsc c) as (p & w & gp & H1 & H2 & H3 & H4 & H5);
      [right; apply Hsub; by left|done|].
    destruct (IH Hsub' p (Hp p H1)) as (path & r & Hg & Hw).
    rewrite H4 in Hg. injection Hg as <-.
    exists (path ++ [c]), (gp + w)%R. split; [done|].
    apply (walk_snoc _ _ _ p); [done|]. by apply list_elem_of_In.
Qed.

Lemma met_cost st n :
  structural graph startNode st -> scored graph startNode endNode st ->
  n ∈ openSet st ∨ n ∈ closedSet st ->
  ∃ path r, gScore st !! n = Some (Fin r) ∧ walk adj startNode path n r.
Proof.
  intros Hst Hsc [Hn|Hn].
  - destruct (decide (n = startNode)) as [->|Hne].
    + exists [startNode], 0%R. split; [apply Hsc|constructor].
    + destruct (sc_pred _ _ _ _ Hsc n) as (p & w & gp & H1 & H2 & H3 & H4 & H5);
        [by left|done|].
      destruct (chain_cost st (closedSet st) Hsc (st_chain _ _ _ Hst) ltac:(done) p H2)
        as (path & r & Hg & Hw).
      rewrite H4 in Hg. injection Hg as <-.
      exists (path ++ [n]), (gp + w)%R. split; [done|].
      apply (walk_snoc _ _ _ p); [done|]. by apply list_elem_of_In.
  - by apply (chain_cost st (closedSet st) Hsc (st_chain _ _ _ Hst)).
Qed.

Lemma nodup_open_relax c st nb :
  NoDup (openSet st) -> NoDup (openSet (relax graph endNode c st nb)).
Proof.
  intros Hnd. unfold relax. destruct (bool_decide (nb_node nb ∈ closedSet st)); [done|].
  destruct (bool_decide (nb_node nb ∈ openSet st)) eqn:Hop; cbn [negb].
  - by destruct (Num.ge _ _).
  - apply bool_decide_eq_false in Hop. simpl. apply NoDup_app. split_and!; [done| |].
    + intros m Hm ->%list_elem_of_singleton. done.
    + apply NoDup_singleton.
Qed.

Lemma nodup_open_relax_fold c l st :
  NoDup (openSet st) -> NoDup (openSet (fold_left (relax graph endNode c) l st)).
Proof.
  revert st. induction l as [|nb l IH]; intros st Hnd; simpl; [done|].
  by apply IH, nodup_open_relax.
Qed.

Lemma nodup_open_rounds st st1 :
  NoDup (openSet st) -> rounds graph adj endNode st st1 -> NoDup (openSet st1).
Proof.
  intros Hnd Hr. induction Hr as [|st st1 st2 Hround _ IH]; [done|].
  apply IH. apply round_Some in Hround as (c & r & _ & _ & _ & _ & _ & ->).
  apply nodup_open_relax_fold. simpl. by apply NoDup_filter.
Qed.

End Tables.


Lemma chain3_rounds_second :
  rounds chain3_equator (buildAdjacencyList chain3_equator) 3
    (init_state chain3_equator 1 3) chain3_second_round.
Proof.
  eapply rounds_next; [exact chain3_round1|].
  eapply rounds_next; [exact chain3_round2|apply rounds_here].
Qed.

Lemma chain3_second_round_eq :
  chain3_second_round =
  record_best chain3_equator 3 2 (Fin (0 + 5 + 20)) (mkNeighbor 3 20)
    (open_add 3 (close_node 2 chain3_first_round)).
Proof.
  unfold chain3_second_round.
  assert (Hadj2 : neighbors (buildAdjacencyList chain3_equator) 2 = [mkNeighbor 3 20])
    by apply chain3_adj2.
  rewrite Hadj2, chain3_first_round_eq. cbn [fold_left]. by relax_new.
Qed.

Lemma chain3_second_round_met : 3 ∈ openSet chain3_second_round.
Proof. rewrite chain3_second_round_eq. by solve_member. Qed.

(** X12. The main loop expands a node at most once: at every round the
    closed set lists distinct nodes, at most one more than the graph has
    edges, the open set lists distinct nodes, and no node is both open and
    closed. *)
Theorem nodes_are_expanded_once :
  ∀ (graph : GraphData) (startNode endNode : Z) (st : SearchState),
    rounds graph (buildAdjacencyList graph) endNode
      (init_state graph startNode endNode) st ->
    NoDup (closedSet st) ∧
    (length (closedSet st) <= S (length (edges graph)))%nat ∧
    NoDup (openSet st) ∧
    ∀ n, n ∈ openSet st -> n ∉ closedSet st.
Proof.
  intros graph startNode endNode st Hr.
  pose proof (structural_rounds graph startNode endNode _ _
                (structural_init graph startNode endNode) Hr) as Hst.
  split_and!.
  - apply Hst.
  - pose proof (closed_bounded graph startNode st Hst) as Hlen.
    unfold universe in Hlen. simpl in Hlen. by rewrite length_map in Hlen.
  - apply (nodup_open_rounds graph endNode (init_state graph startNode endNode) st); [|done].
    rewrite init_state_openSet. apply NoDup_singleton.
  - intros n Hn. by apply (st_open _ _ _ Hst).
Qed.

(** ** Scores only improve, unless they are 0 *)

Section Monotone.
Context (graph : GraphData) (startNode endNode : Z).
Let adj := buildAdjacencyList graph.
Let met (st : SearchState) (n : Z) : Prop := n ∈ openSet st ∨ n ∈ closedSet st.
Let positive (st : SearchState) : Prop :=
  ∀ n r, met st n -> n ≠ startNode -> gScore st !! n = Some (Fin r) -> (0 < r)%R.

Hypothesis weights_positive : positive_weights graph.

Lemma relax_score_le c st nb n r :
  scored graph startNode endNode st -> positive st ->
  c ∈ closedSet st -> nb ∈ neighbors adj c ->
  met st n -> gScore st !! n = Some (Fin r) ->
  met (relax graph endNode c st nb) n ∧
  ∃ r1, gScore (relax graph endNode c st nb) !! n = Some (Fin r1) ∧ (r1 <= r)%R.
Proof.
  intros Hsc Hpos Hc Hnb Hn Hg. split.
  { destruct Hn as [Hn|Hn]; [left; by apply relax_openSet_mono|right].
    by rewrite relax_closedSet. }
  destruct (sc_closed _ _ _ _ Hsc c Hc) as [gc Hgc].
  destruct (relax_cases graph endNode c st nb gc Hgc)
    as [[_ ->]|[(Hcl & Hop & ->)|[(_ & _ & _ & ->)|(Hcl & Hop & Hge & ->)]]].
  - exists r. split; [done|lra].
  - exists r. split; [|lra]. simpl. rewrite lookup_insert_ne; [done|].
    intros Heq. rewrite <- Heq in Hn. by destruct Hn.
  - exists r. split; [done|lra].
  - destruct (decide (nb_node nb = n)) as [Heq|Hne].
    + exists (gc + nb_weight nb)%R. simpl. rewrite Heq, lookup_insert_eq. split; [done|].
      rewrite Heq in Hcl, Hop, Hge. rewrite Hg in Hge.
      assert (Hns : n ≠ startNode).
      { intros ->. apply Hcl. destruct (sc_start _ _ _ _ Hsc) as [[_ Hnil]|Hs]; [|done].
        rewrite Hnil in Hc. by apply elem_of_nil in Hc. }
      pose proof (Hpos n r (or_introl Hop) Hns Hg) as Hr.
      rewrite or_else_nonzero in Hge by lra.
      simpl in Hge. apply bool_decide_eq_false in Hge. lra.
    + exists r. split; [|lra]. simpl. by rewrite lookup_insert_ne.
Qed.

Lemma relax_fold_score_le c l st n r :
  scored graph startNode endNode st -> positive st ->
  c ∈ closedSet st -> (∀ nb, nb ∈ l -> nb ∈ neighbors adj c) ->
  met st n -> gScore st !! n = Some (Fin r) ->
  met (fold_left (relax graph endNode c) l st) n ∧
  ∃ r1, gScore (fold_left (relax graph endNode c) l st) !! n = Some (Fin r1) ∧ (r1 <= r)%R.
Proof.
  revert st r. induction l as [|nb l IH]; intros st r Hsc Hpos Hc Hl Hn Hg; simpl.
  { split; [done|]. exists r. split; [done|lra]. }
  assert (Hnb : nb ∈ neighbors adj c) by (apply Hl; by left).
  destruct (relax_score_le c st nb n r Hsc Hpos Hc Hnb Hn Hg) as (Hn1 & r1 & Hg1 & Hle1).
  destruct (IH (relax graph endNode c st nb) r1) as (Hn2 & r2 & Hg2 & Hle2); try done.
  - by apply scored_relax.
  - exact (positive_relax graph startNode endNode weights_positive c st nb Hsc Hc Hnb Hpos).
  - by rewrite relax_closedSet.
  - intros x Hx. apply Hl. by right.
  - split; [done|]. exists r2. split; [done|lra].
Qed.

Lemma round_score_le st st1 n r :
  scored graph startNode endNode st -> positive st ->
  round graph adj endNode st = Some st1 ->
  met st n -> gScore st !! n = Some (Fin r) ->
  met st1 n ∧ ∃ r1, gScore st1 !! n = Some (Fin r1) ∧ (r1 <= r)%R.
Proof.
  intros Hsc Hpos (c & f & _ & Hc & Hf & _ & _ & ->)%round_Some Hn Hg.
  apply relax_fold_score_le; try done.
  - by eapply scored_close.
  - intros m x Hm. apply Hpos.
    destruct Hm as [[_ Hm]%list_elem_of_filter|[->|Hm]%elem_of_cons];
      [by left|by left|by right].
  - by left.
  - destruct (decide (n = c)) as [->|Hne]; [right; by left|].
    destruct Hn as [Hn|Hn]; [left|right; by right].
    simpl. by apply list_elem_of_filter.
Qed.

Lemma rounds_score_le st st1 n r :
  scored graph startNode endNode st -> positive st ->
  rounds graph adj endNode st st1 ->
  met st n -> gScore st !! n = Some (Fin r) ->
  met st1 n ∧ ∃ r1, gScore st1 !! n = Some (Fin r1) ∧ (r1 <= r)%R.
Proof.
  intros Hsc Hpos Hr. revert r. induction Hr as [st|st st1 st2 Hround _ IH]; intros r Hn Hg.
  { split; [done|]. exists r. split; [done|lra]. }
  destruct (round_score_le st st1 n r Hsc Hpos Hround Hn Hg) as (Hn1 & r1 & Hg1 & Hle1).
  destruct (IH (scored_round _ _ _ _ _ Hsc Hround)
              (positive_round graph startNode endNode weights_positive _ _ Hsc Hpos Hround)
              r1 Hn1 Hg1) as (Hn2 & r2 & Hg2 & Hle2).
  split; [done|]. exists r2. split; [done|lra].
Qed.

Lemma positive_rounds st st1 :
  scored graph startNode endNode st -> positive st ->
  rounds graph adj endNode st st1 -> positive st1.
Proof.
  intros Hsc Hpos Hr. induction Hr as [st|st st1 st2 Hround _ IH]; [done|].
  apply IH; [by eapply scored_round|].
  exact (positive_round graph startNode endNode weights_positive _ _ Hsc Hpos Hround).
Qed.

Lemma reached_positive st :
  rounds graph adj endNode (init_state graph startNode endNode) st ->
  scored graph startNode endNode st ∧ positive st.
Proof.
  intros Hr. split.
  - exact (scored_rounds graph startNode endNode _ _ (scored_init graph startNode endNode) Hr).
  - apply (positive_rounds _ _ (scored_init graph startNode endNode)); [|done].
    intros n r. unfold met. rewrite init_state_openSet, init_state_closedSet.
    intros [->%list_elem_of_singleton|?%elem_of_nil]; done.
Qed.

End Monotone.

(** X13. When every edge has a positive weight, the gScore of a node that
    is open or closed never goes up in the rounds that follow: the node stays
    open or closed, and its score stays finite and at most what it was. *)
Theorem scores_never_increase :
  ∀ (graph : GraphData) (startNode endNode : Z) (st st1 : SearchState) (n : Z) (r : R),
    positive_weights graph ->
    rounds graph (buildAdjacencyList graph) endNode
      (init_state graph startNode endNode) st ->
    rounds graph (buildAdjacencyList graph) endNode st st1 ->
    n ∈ openSet st ∨ n ∈ closedSet st ->
    gScore st !! n = Some (Fin r) ->
    (n ∈ openSet st1 ∨ n ∈ closedSet st1) ∧
    ∃ r1, gScore st1 !! n = Some (Fin r1) ∧ (r1 <= r)%R.
Proof.
  intros graph startNode endNode st st1 n r Hw Hinit Hr Hn Hg.
  destruct (reached_positive graph startNode endNode Hw st Hinit) as [Hsc Hpos].
  by apply (rounds_score_le graph startNode endNode Hw st st1 n r).
Qed.

Lemma chain3_equator_positive : positive_weights chain3_equator.
Proof.
  intros edge [<-|[<-|[]]]; unfold edge_weight; simpl.
  - rewrite decide_True by lra. lra.
  - rewrite decide_False by lra. lra.
Qed.

Lemma chain3_first_round_met : 2 ∈ openSet chain3_first_round.
Proof. rewrite chain3_first_round_eq. by solve_member. Qed.

Lemma chain3_first_round_score : gScore chain3_first_round !! 2 = Some (Fin (0 + 5)).
Proof. rewrite chain3_first_round_eq. by solve_lookup. Qed.


Lemma free_ride_adj1 :
  neighbors (buildAdjacencyList free_ride) 1 = [mkNeighbor 2 0; mkNeighbor 3 1].
Proof.
  rewrite buildAdjacencyList_neighbors. simpl.
  unfold neighbor_of, edge_weight. simpl.
  rewrite decide_False by lra. by rewrite decide_True by lra.
Qed.

Lemma free_ride_first_round_eq :
  free_ride_first_round =
  record_best free_ride 4 1 (Fin (0 + 1)) (mkNeighbor 3 1)
    (open_add 3
       (record_best free_ride 4 1 (Fin (0 + 0)) (mkNeighbor 2 0)
          (open_add 2 (close_node 1 (init_state free_ride 1 4))))).
Proof.
  unfold free_ride_first_round. rewrite free_ride_adj1, !relax_fold_cons, relax_fold_nil.
  relax_new. by relax_new.
Qed.

Lemma free_ride_estimates :
  heuristicDistance free_ride 1 4 = Fin (kappa * 0.003) ∧
  heuristicDistance free_ride 2 4 = Fin (kappa * 0.002) ∧
  heuristicDistance free_ride 3 4 = Fin (kappa * 0.001).
Proof.
  split_and!.
  - apply (heuristic_towards_origin free_ride 1 4 1 4); [done|done|lra].
  - apply (heuristic_towards_origin free_ride 2 4 2 4); [done|done|lra].
  - apply (heuristic_towards_origin free_ride 3 4 3 4); [done|done|lra].
Qed.

(** The first round expands node 1, and the second selects node 3. *)
Lemma free_ride_rounds :
  round free_ride (buildAdjacencyList free_ride) 4 (init_state free_ride 1 4)
  = Some free_ride_first_round ∧
  select_lowest (fScore free_ride_first_round) (openSet free_ride_first_round)
  = (3, Fin (0 + 1 + kappa * 0.001)).
Proof.
  pose proof kappa_bounds as Hk. destruct free_ride_estimates as (H1 & H2 & H3). split.
  - unfold free_ride_first_round.
    eapply round_select; [by eval_state| |..].
    + start_select. rewrite H1, read_nonzero by nra. reflexivity.
    + done.
    + done.
  - rewrite free_ride_first_round_eq. start_select.
    rewrite H2. cbn [Num.add Num.add_double]. rewrite read_nonzero by nra.
    cbn [Num.lt fold_left]. rewrite lowest_step_eq. eval_lookups.
    rewrite H3. cbn [Num.add Num.add_double]. rewrite read_nonzero by nra.
    rewrite lt_Fin_true by nra. reflexivity.
Qed.

Lemma free_ride_tables :
  gScore (close_node 3 free_ride_first_round) !! 3 = Some (Fin (0 + 1)) ∧
  (2 ∉ closedSet (close_node 3 free_ride_first_round)) ∧
  2 ∈ openSet (close_node 3 free_ride_first_round) ∧
  gScore (close_node 3 free_ride_first_round) !! 2 = Some (Fin 0).
Proof.
  rewrite free_ride_first_round_eq. split_and!.
  - by solve_lookup.
  - by solve_member.
  - by solve_member.
  - eval_state. eval_lookups. do 2 f_equal. lra.
Qed.

(** ** The map view *)

Lemma Math_min_le xs y z v : In v (xs ++ [y; z]) -> (Math_min xs y z <= v)%R.
Proof.
  unfold Math_min. induction xs as [|x xs IH]; simpl.
  - intros [<-|[<-|[]]]; [apply Rmin_l|apply Rmin_r].
  - intros [<-|Hv]; [apply Rmin_l|].
    eapply Rle_trans; [apply Rmin_r|by apply IH].
Qed.

Lemma Math_max_ge xs y z v : In v (xs ++ [y; z]) -> (v <= Math_max xs y z)%R.
Proof.
  unfold Math_max. induction xs as [|x xs IH]; simpl.
  - intros [<-|[<-|[]]]; [apply Rmax_l|apply Rmax_r].
  - intros [<-|Hv]; [apply Rmax_l|].
    eapply Rle_trans; [by apply IH|apply Rmax_r].
Qed.

Lemma Math_min_In xs y z : In (Math_min xs y z) (xs ++ [y; z]).
Proof.
  unfold Math_min. induction xs as [|x xs IH]; cbn [fold_right app].
  - unfold Rmin. destruct (Rle_dec y z); [by left|right; by left].
  - unfold Rmin at 1. destruct (Rle_dec x _); [by left|by right].
Qed.

Lemma Math_max_In xs y z : In (Math_max xs y z) (xs ++ [y; z]).
Proof.
  unfold Math_max. induction xs as [|x xs IH]; cbn [fold_right app].
  - unfold Rmax. destruct (Rle_dec y z); [right; by left|by left].
  - unfold Rmax at 1. destruct (Rle_dec x _); [by right|by left].
Qed.

(** The greatest of the values exceeds the least by more than [t] exactly
    when two of the values differ by more than [t]. *)
Lemma range_gt xs y z t :
  (Math_max xs y z - Math_min xs y z > t)%R ↔
  ∃ a b, In a (xs ++ [y; z]) ∧ In b (xs ++ [y; z]) ∧ (a - b > t)%R.
Proof.
  split.
  - intros Hgt. exists (Math_max xs y z), (Math_min xs y z).
    split_and!; [apply Math_max_In|apply Math_min_In|done].
  - intros (a & b & Ha & Hb & Hgt).
    pose proof (Math_max_ge xs y z a Ha). pose proof (Math_min_le xs y z b Hb). lra.
Qed.

Lemma map_shown (f : Coordinate -> R) routeCoords startCoord endCoord :
  map f routeCoords ++ [f startCoord; f endCoord]
  = map f (shown_points routeCoords startCoord endCoord).
Proof. unfold shown_points. by rewrite map_app. Qed.

(** The quantity the zoom level is read from. *)
Lemma maxRange_gt routeCoords startCoord endCoord t :
  (Rmax (Math_max (map lat routeCoords) (lat startCoord) (lat endCoord)
         - Math_min (map lat routeCoords) (lat startCoord) (lat endCoord))
        (Math_max (map lon routeCoords) (lon startCoord) (lon endCoord)
         - Math_min (map lon routeCoords) (lon startCoord) (lon endCoord)) > t)%R ↔
  apart t (shown_points routeCoords startCoord endCoord).
Proof.
  set (pts := shown_points routeCoords startCoord endCoord).
  assert (Hcase : ∀ a b, (Rmax a b > t)%R ↔ (a > t)%R ∨ (b > t)%R).
  { intros a b. unfold Rmax. destruct (Rle_dec a b); lra. }
  rewrite Hcase, !range_gt, !map_shown. fold pts. unfold apart. split.
  - intros [(a & b & Ha & Hb & Hgt)|(a & b & Ha & Hb & Hgt)];
      apply in_map_iff in Ha as (p & <- & Hp); apply in_map_iff in Hb as (q & <- & Hq);
      exists p, q; auto.
  - intros (p & q & Hp & Hq & [Hgt|Hgt]); [left|right].
    + exists (lat p), (lat q). split_and!; [by apply in_map|by apply in_map|done].
    + exists (lon p), (lon q). split_and!; [by apply in_map|by apply in_map|done].
Qed.

Lemma map_zoom_cases routeCoords startCoord endCoord :
  let pts := shown_points routeCoords startCoord endCoord in
  let zoom := v_zoom (map_layout routeCoords startCoord endCoord) in
  (zoom = 10 ∧ apart 0.1 pts) ∨
  (zoom = 11 ∧ ¬ apart 0.1 pts ∧ apart 0.05 pts) ∨
  (zoom = 12 ∧ ¬ apart 0.05 pts ∧ apart 0.02 pts) ∨
  (zoom = 13 ∧ ¬ apart 0.02 pts ∧ apart 0.01 pts) ∨
  (zoom = 14 ∧ ¬ apart 0.01 pts).
Proof.
  cbv zeta. unfold map_layout. cbv zeta. cbn [v_zoom].
  rewrite <- !maxRange_gt.
  repeat (destruct (decide _); [tauto|]). tauto.
Qed.

Lemma apart_weaken t t' points : (t' <= t)%R -> apart t points -> apart t' points.
Proof.
  intros Hle (p & q & Hp & Hq & Hgt). exists p, q. split_and!; [done|done|].
  destruct Hgt; [left|right]; lra.
Qed.

Lemma apart_incl t points points' :
  (∀ p, In p points -> In p points') -> apart t points -> apart t points'.
Proof.
  intros Hsub (p & q & Hp & Hq & Hgt). exists p, q. split_and!; auto.
Qed.

(** X15. The zoom level of the map is one of 10 to 14 and is read from
    how far apart the shown points lie: it is 10 or less exactly when two of
    the points, route, start and end coordinate together, differ by more than
    0.1 degree in latitude or in longitude, 11 or less exactly when by more
    than 0.05, 12 or less when by more than 0.02, and 13 or less when by more
    than 0.01. *)
Theorem map_zoom_by_spread :
  ∀ (routeCoords : list Coordinate) (startCoord endCoord : Coordinate),
    let pts := shown_points routeCoords startCoord endCoord in
    let zoom := v_zoom (map_layout routeCoords startCoord endCoord) in
    10 <= zoom <= 14 ∧
    (zoom <= 10 ↔ apart 0.1 pts) ∧
    (zoom <= 11 ↔ apart 0.05 pts) ∧
    (zoom <= 12 ↔ apart 0.02 pts) ∧
    (zoom <= 13 ↔ apart 0.01 pts).
Proof.
  intros routeCoords startCoord endCoord pts zoom.
  assert (H1 : apart 0.1 pts -> apart 0.05 pts) by (apply apart_weaken; lra).
  assert (H2 : apart 0.05 pts -> apart 0.02 pts) by (apply apart_weaken; lra).
  assert (H3 : apart 0.02 pts -> apart 0.01 pts) by (apply apart_weaken; lra).
  destruct (map_zoom_cases routeCoords startCoord endCoord)
    as [[Hz Ha]|[(Hz & Hn & Ha)|[(Hz & Hn & Ha)|[(Hz & Hn & Ha)|[Hz Hn]]]]];
    fold pts in Ha || fold pts in Hn; fold zoom in Hz; try fold pts in Hn;
    rewrite Hz; split_and!; try lia; split; intros H; try lia; tauto.
Qed.

(** X16. A route with more points never makes the map zoom in: when
    every point of one route is a point of another, start and end coordinate
    being the same, the zoom level for the second is at most the zoom level
    for the first. *)
Theorem map_zoom_antitone :
  ∀ (route1 route2 : list Coordinate) (startCoord endCoord : Coordinate),
    (∀ p, In p route1 -> In p route2) ->
    v_zoom (map_layout route2 startCoord endCoord)
    <= v_zoom (map_layout route1 startCoord endCoord).
Proof.
  intros route1 route2 startCoord endCoord Hsub.
  assert (Hincl : ∀ t, apart t (shown_points route1 startCoord endCoord) ->
                       apart t (shown_points route2 startCoord endCoord)).
  { intros t. apply apart_incl. unfold shown_points. intros p Hp.
    apply in_app_or in Hp as [Hp|Hp]; apply in_or_app; auto. }
  assert (H1 : ∀ pts, apart 0.1 pts -> apart 0.05 pts) by (intros; eapply apart_weaken; [|done]; lra).
  assert (H2 : ∀ pts, apart 0.05 pts -> apart 0.02 pts) by (intros; eapply apart_weaken; [|done]; lra).
  assert (H3 : ∀ pts, apart 0.02 pts -> apart 0.01 pts) by (intros; eapply apart_weaken; [|done]; lra).
  destruct (map_zoom_cases route1 startCoord endCoord)
    as [[-> Ha]|[(-> & Hn & Ha)|[(-> & Hn & Ha)|[(-> & Hn & Ha)|[-> Hn]]]]];
    destruct (map_zoom_cases route2 startCoord endCoord)
    as [[-> Ha']|[(-> & Hn' & Ha')|[(-> & Hn' & Ha')|[(-> & Hn' & Ha')|[-> Hn']]]]];
    try lia; try apply Hincl in Ha; exfalso; auto 6.
Qed.

Lemma map_zoom_antitone_witness :
  v_zoom (map_layout [mkCoord 0 0.5] (mkCoord 0 0) (mkCoord 0 0.001))
  <= v_zoom (map_layout [] (mkCoord 0 0) (mkCoord 0 0.001)).
Proof.
  apply (map_zoom_antitone [] [mkCoord 0 0.5] (mkCoord 0 0) (mkCoord 0 0.001)).
  intros p Hp. destruct Hp.
Defined.

(** ** What the component shows once the effect has run *)

(** X18. With graph data and both coordinates present, the effect always
    returns, and the view rendered after it depends on the outcome of
    [calculateRoute] alone, whatever the state before: the map with the
    returned route as its line, the literal start and end coordinates as its
    markers and centre and zoom computed from them, or the error view with
    the message of the error thrown, the stored route being emptied; the
    "Calculating route..." view is not what is rendered. *)
Theorem view_after_effect :
  ∀ (props : Props) (graphData : GraphData) (startCoord endCoord : Coordinate)
    (st : ComponentState),
    p_graphData props = Some graphData ->
    p_startCoord props = Some startCoord ->
    p_endCoord props = Some endCoord ->
    ∃ st1,
      route_effect props st = Some st1 ∧
      loading st1 = false ∧
      ((∃ route,
          calculateRoute graphData startCoord endCoord = Returns route ∧
          st1 = mkComponentState route None false ∧
          render props st1 =
            MapView (map_layout route startCoord endCoord) route
              startCoord endCoord (p_width props) (p_height props)) ∨
       (∃ err,
          calculateRoute graphData startCoord endCoord = Throws err ∧
          st1 = mkComponentState [] (Some (MessageOf err)) false ∧
          render props st1 = ErrorView (MessageOf err))).
Proof.
  intros props graphData startCoord endCoord st Hg Hs He.
  unfold route_effect, render. rewrite Hg, Hs, He.
  assert (Htot : calculateRoute graphData startCoord endCoord ≠ Diverges).
  { unfold calculateRoute, calculateRoute_with.
    destruct (_ || _); [done|]. destruct (bool_decide _).
    - by destruct (nodes_get _ _).
    - pose proof (astar_total graphData (findNearestNode graphData startCoord)
                    (findNearestNode graphData endCoord)).
      by destruct (astar _ _ _). }
  destruct (calculateRoute graphData startCoord endCoord) as [route|err|]; [| |done].
  - eexists. split_and!; [done|done|]. left. by exists route.
  - eexists. split_and!; [done|done|]. right. by exists err.
Qed.

(** ** The visual *)

Lemma isValidCoordinate_in_range lat lon :
  Visual.isValidCoordinate lat lon = true ↔ Visual.in_range (Visual.mkCoordinate lat lon).
Proof.
  unfold Visual.isValidCoordinate, Visual.in_range. split.
  - intros H. repeat (apply andb_true_iff in H as [H ?]).
    destruct lat as [| |x|], lon as [| |y|]; try done. simpl in *.
    exists x, y. repeat match goal with
      | H : bool_decide _ = true |- _ => apply bool_decide_eq_true in H end.
    split_and!; [done|lra..].
  - intros (x & y & [= -> ->] & Hx & Hy). simpl.
    rewrite !bool_decide_eq_true_2 by lra. done.
Qed.

(** X19. [isValidCoordinate] accepts exactly the pairs of finite numbers
    with the latitude between -90 and 90 and the longitude between -180 and
    180, bounds included: [NaN] and the infinities are refused, by the range
    tests already. *)
Theorem isValidCoordinate_accepts_finite_in_range :
  ∀ (lat lon : Visual.jsnumber),
    (Visual.isValidCoordinate lat lon = true ↔
     ∃ x y, lat = Visual.Finite x ∧ lon = Visual.Finite y ∧
            (-90 <= x <= 90)%R ∧ (-180 <= y <= 180)%R) ∧
    Visual.isValidCoordinate lat lon =
      Visual.ge lat (-90) && Visual.le lat 90 && Visual.ge lon (-180) && Visual.le lon 180.
Proof.
  intros lat lon. split.
  - rewrite isValidCoordinate_in_range. unfold Visual.in_range. split.
    + intros (x & y & [= -> ->] & Hx & Hy). by exists x, y.
    + intros (x & y & -> & -> & Hx & Hy). by exists x, y.
  - unfold Visual.isValidCoordinate. destruct lat, lon; simpl; try done.
    by rewrite andb_false_r.
Qed.

Section VisualPlatform.
Variable parseFloat : String.string -> Visual.jsnumber.
Variable trim : String.string -> String.string.

Lemma dimension_at_least_200 x :
  Visual.at_least_200 (Visual.Math_max (Visual.or_else x 200) 200).
Proof.
  destruct x as [| |r|]; simpl.
  - right. exists (Rmax 200 200). split; [done|apply Rmax_l].
  - right. by exists 200%R; split; [|lra].
  - destruct (decide (r = 0%R)); simpl; right; eexists; (split; [done|apply Rmax_r]).
  - by left.
Qed.

Lemma parse_valid_state st :
  Visual.valid_state (Visual.parseCoordinatesFromSettings parseFloat trim st).
Proof.
  unfold Visual.parseCoordinatesFromSettings.
  assert (Hdef : Visual.valid_state
    (Visual.set_coords st
       (Some (Visual.mkCoordinate (Visual.Finite 51.4643) (Visual.Finite (-0.1660))))
       (Some (Visual.mkCoordinate (Visual.Finite 51.4907) (Visual.Finite (-0.2067)))))).
  { right. do 2 eexists. split_and!; [done|done| |]; do 2 eexists; (split; [done|lra]). }
  destruct (Visual.formattingSettings st) as [[[coords|]]|]; try done.
  cbv zeta.
  destruct (Visual.isValidCoordinate _ _ && Visual.isValidCoordinate _ _) eqn:Hvalid.
  - apply andb_true_iff in Hvalid as [Hs He].
    apply isValidCoordinate_in_range in Hs, He.
    right. do 2 eexists. by split_and!.
  - by left.
Qed.

Lemma parse_graphData st :
  Visual.graphData (Visual.parseCoordinatesFromSettings parseFloat trim st)
  = Visual.graphData st.
Proof.
  unfold Visual.parseCoordinatesFromSettings.
  destruct (Visual.formattingSettings st) as [[[coords|]]|]; try done.
  cbv zeta. by destruct (_ && _).
Qed.

(** What a render call shows, by the fields of the visual. *)
Lemma renderVisual_cases st :
  Visual.valid_state st ->
  let view := Visual.renderVisual st in
  Visual.valid_view view ∧
  ∀ s e g w h, view = Visual.RouteVisualization s e g w h -> Visual.graphData st = Some g.
Proof.
  intros Hok. unfold Visual.renderVisual. cbv zeta.
  pose proof (dimension_at_least_200 (Visual.width st)) as Hw.
  pose proof (dimension_at_least_200 (Visual.height st)) as Hh.
  destruct Hok as [[Hs He]|(s & e & Hs & He & Hvs & Hve)]; rewrite Hs.
  - split; [by simpl|done].
  - rewrite He. destruct (Visual.graphData st) as [g|]; simpl; [|done].
    split; [done|]. by intros ? ? ? ? ? [= _ _ <- _ _].
Qed.

Lemma step_valid ev st :
  Visual.valid_state st ->
  let r := Visual.step parseFloat trim ev st in
  Visual.valid_state r.1 ∧ Visual.valid_view r.2 ∧
  (∀ g, Visual.graphData r.1 = Some g ->
        Visual.graphData st = Some g ∨ ev = Visual.GraphLoaded g) ∧
  ∀ s e g w h, r.2 = Visual.RouteVisualization s e g w h -> Visual.graphData r.1 = Some g.
Proof.
  intros Hok. destruct ev as [populated w h|data]; cbv zeta; cbn [Visual.step].
  - unfold Visual.update. cbv zeta. cbn [fst snd].
    match goal with |- context [Visual.parseCoordinatesFromSettings _ _ ?s] =>
      set (st1 := s) end.
    pose proof (parse_valid_state st1) as Hst2.
    destruct (renderVisual_cases _ Hst2) as [Hview Hgraph].
    split_and!; try done.
    intros g. rewrite parse_graphData. unfold st1. simpl. auto.
  - unfold Visual.loadGraphData. cbv zeta. cbn [fst snd].
    match goal with |- context [Visual.renderVisual ?s] => set (st1 := s) end.
    assert (Hst1 : Visual.valid_state st1) by done.
    destruct (renderVisual_cases _ Hst1) as [Hview Hgraph].
    split_and!; try done.
    intros g [= <-]. by right.
Qed.

Lemma run_valid events :
  ∀ st (known : GraphData -> Prop),
    Visual.valid_state st ->
    (∀ g, Visual.graphData st = Some g -> known g) ->
    let r := Visual.run parseFloat trim events st in
    Visual.valid_state r.1 ∧ Forall Visual.valid_view r.2 ∧
    ∀ s e g w h,
      In (Visual.RouteVisualization s e g w h) r.2 ->
      known g ∨ In (Visual.GraphLoaded g) events.
Proof.
  induction events as [|ev events IH]; intros st known Hok Hknown; cbv zeta.
  - simpl. split_and!; [done|constructor|by intros].
  - cbn [Visual.run].
    destruct (step_valid ev st Hok) as (Hst1 & Hview & Hg & Hroute).
    destruct (Visual.step parseFloat trim ev st) as [st1 view]. cbn [fst snd] in *.
    destruct (IH st1 (λ g, known g ∨ ev = Visual.GraphLoaded g) Hst1) as (Hst2 & Hviews & Hin).
    { intros g Hg1. destruct (Hg g Hg1) as [?|?]; auto. }
    destruct (Visual.run parseFloat trim events st1) as [st2 views]. cbn [fst snd] in *.
    split_and!; [done|by constructor|].
    intros s e g w h [Heq|Hrest].
    + destruct (Hg g (Hroute s e g w h Heq)) as [Hold| ->]; [left; auto|right; by left].
    + destruct (Hin s e g w h Hrest) as [[?| ->]|?]; [by left|right; by left|right; by right].
Qed.

End VisualPlatform.

(** X20. Whatever the texts of the formatting pane, the sizes of the
    viewport and the order of the updates and of the arrival of the graph:
    the start and end coordinates of the visual are both absent or both
    present, finite and in range; every view it renders is at least 200 by
    200; and the route component is only ever rendered with coordinates that
    are finite and in range and with a graph that was loaded. *)
Theorem visual_renders_valid_coordinates :
  ∀ (parseFloat : String.string -> Visual.jsnumber)
    (trim : String.string -> String.string) (events : list Visual.Event),
    let r := Visual.run parseFloat trim events Visual.initial in
    Visual.valid_state r.1 ∧
    Forall Visual.valid_view r.2 ∧
    ∀ s e g w h,
      In (Visual.RouteVisualization s e g w h) r.2 ->
      Visual.in_range s ∧ Visual.in_range e ∧ In (Visual.GraphLoaded g) events.
Proof.
  intros parseFloat trim events r.
  destruct (run_valid parseFloat trim events Visual.initial (λ _, False))
    as (Hst & Hviews & Hin); [by left|done|].
  fold r in Hst, Hviews, Hin. split_and!; [done|done|].
  intros s e g w h Hv.
  destruct (proj1 (List.Forall_forall _ _) Hviews _ Hv) as (Hs & He & _).
  split_and!; [done|done|]. by destruct (Hin s e g w h Hv).
Qed.

(** ** The visual that reads a table row *)

Section TablePlatform.
Variable parseFloat : String.string -> Visual.jsnumber.

Lemma parseDataView_cases dataView st :
  let st1 := TableVisual.parseDataView parseFloat dataView st in
  st1 = st ∨
  ∃ s e, Visual.in_range s ∧ Visual.in_range e ∧
         st1 = TableVisual.set_coords st (Some s) (Some e).
Proof.
  cbv zeta. unfold TableVisual.parseDataView.
  destruct (TableVisual.table dataView) as [[|row rows]|]; try by left.
  destruct row as [|v0 [|v1 [|v2 [|v3 more]]]]; try by left.
  cbv zeta.
  destruct (Visual.isValidCoordinate _ _ && Visual.isValidCoordinate _ _) eqn:Hvalid;
    [|by left].
  apply andb_true_iff in Hvalid as [Hs He].
  apply isValidCoordinate_in_range in Hs, He.
  right. exact (ex_intro _ _ (ex_intro _ _ (conj Hs (conj He eq_refl)))).
Qed.

Lemma parseDataView_valid dataView st :
  TableVisual.valid_state st ->
  TableVisual.valid_state (TableVisual.parseDataView parseFloat dataView st) ∧
  TableVisual.graphData (TableVisual.parseDataView parseFloat dataView st)
  = TableVisual.graphData st.
Proof.
  intros Hok. destruct (parseDataView_cases dataView st) as [->|(s & e & Hs & He & ->)];
    [done|].
  split; [|done]. right. by exists s, e.
Qed.

Lemma table_render_cases st :
  TableVisual.valid_state st ->
  ∀ s e g w h,
    TableVisual.renderVisual st = Visual.RouteVisualization s e g w h ->
    Visual.in_range s ∧ Visual.in_range e ∧ TableVisual.graphData st = Some g.
Proof.
  intros Hok s e g w h. unfold TableVisual.renderVisual.
  destruct Hok as [[Hs He]|(s0 & e0 & Hs & He & Hvs & Hve)]; rewrite Hs; [done|].
  rewrite He. destruct (TableVisual.graphData st) as [g0|]; [|done].
  by intros [= <- <- <- _ _].
Qed.

Lemma table_step_valid ev st :
  TableVisual.valid_state st ->
  let r := TableVisual.step parseFloat ev st in
  TableVisual.valid_state r.1 ∧
  (∀ g, TableVisual.graphData r.1 = Some g ->
        TableVisual.graphData st = Some g ∨ ev = TableVisual.GraphLoaded g) ∧
  ∀ s e g w h, In (Visual.RouteVisualization s e g w h) r.2 ->
    Visual.in_range s ∧ Visual.in_range e ∧ TableVisual.graphData r.1 = Some g.
Proof.
  intros Hok. destruct ev as [populated dataViews w h|data]; cbv zeta; cbn [TableVisual.step].
  - unfold TableVisual.update. destruct populated; cbv zeta; cbn [fst snd];
      [|split_and!; [done|by left|by intros]].
    match goal with |- context [TableVisual.renderVisual ?s] => set (st2 := s) end.
    assert (Hst2 : TableVisual.valid_state st2 ∧
                   TableVisual.graphData st2 = TableVisual.graphData st).
    { unfold st2. destruct dataViews as [[|dataView rest]|]; try done.
      match goal with |- context [TableVisual.parseDataView _ _ ?s] =>
        by destruct (parseDataView_valid dataView s) end. }
    destruct Hst2 as [Hst2 Hg]. split_and!; [done|rewrite Hg; auto|].
    intros s e g w' h' [Hv|[]]. by apply (table_render_cases st2 Hst2 s e g w' h').
  - unfold TableVisual.loadGraphData. cbv zeta. cbn [TableVisual.startCoord TableVisual.endCoord].
    match goal with |- context [TableVisual.renderVisual ?s] => set (st1 := s) end.
    assert (Hst1 : TableVisual.valid_state st1) by done.
    destruct (TableVisual.startCoord st) as [s0|], (TableVisual.endCoord st) as [e0|];
      cbn [fst snd]; (split_and!; [done|by intros g [= <-]; right|]); try by intros.
    intros s e g w' h' [Hv|[]]. by apply (table_render_cases st1 Hst1 s e g w' h').
Qed.

Lemma table_run_valid events :
  ∀ st (known : GraphData -> Prop),
    TableVisual.valid_state st ->
    (∀ g, TableVisual.graphData st = Some g -> known g) ->
    let r := TableVisual.run parseFloat events st in
    TableVisual.valid_state r.1 ∧
    ∀ s e g w h,
      In (Visual.RouteVisualization s e g w h) r.2 ->
      Visual.in_range s ∧ Visual.in_range e ∧
      (known g ∨ In (TableVisual.GraphLoaded g) events).
Proof.
  induction events as [|ev events IH]; intros st known Hok Hknown; cbv zeta.
  - simpl. split; [done|by intros].
  - cbn [TableVisual.run].
    destruct (table_step_valid ev st Hok) as (Hst1 & Hg & Hroute).
    destruct (TableVisual.step parseFloat ev st) as [st1 shown]. cbn [fst snd] in *.
    destruct (IH st1 (λ g, known g ∨ ev = TableVisual.GraphLoaded g) Hst1) as (Hst2 & Hin).
    { intros g Hg1. destruct (Hg g Hg1) as [?|?]; auto. }
    destruct (TableVisual.run parseFloat events st1) as [st2 views]. cbn [fst snd] in *.
    split; [done|].
    intros s e g w h [Hv|Hv]%in_app_or.
    + destruct (Hroute s e g w h Hv) as (Hs & He & Hg1). split_and!; [done|done|].
      destruct (Hg g Hg1) as [Hold| ->]; [left; auto|right; by left].
    + destruct (Hin s e g w h Hv) as (Hs & He & [[?| ->]|?]);
        (split_and!; [done|done|]); [by left|right; by left|right; by right].
Qed.

End TablePlatform.

(** X21. In the version that reads a table row, whatever the rows, the
    sizes of the viewport and the order of the updates and of the arrival of
    the graph: the start and end coordinates of the visual are both absent or
    both present, finite and in range, and the route component is only ever
    rendered with coordinates that are finite and in range and with a graph
    that was loaded. *)
Theorem table_visual_renders_valid_coordinates :
  ∀ (parseFloat : String.string -> Visual.jsnumber) (events : list TableVisual.Event),
    let r := TableVisual.run parseFloat events TableVisual.initial in
    TableVisual.valid_state r.1 ∧
    ∀ s e g w h,
      In (Visual.RouteVisualization s e g w h) r.2 ->
      Visual.in_range s ∧ Visual.in_range e ∧ In (TableVisual.GraphLoaded g) events.
Proof.
  intros parseFloat events r.
  destruct (table_run_valid parseFloat events TableVisual.initial (λ _, False))
    as (Hst & Hin); [by left|done|].
  fold r in Hst, Hin. split; [done|].
  intros s e g w h Hv. destruct (Hin s e g w h Hv) as (Hs & He & [[]|Hg]). done.
Qed.

(** X22. In the version that reads a table row, a cell without a number
    counts as 0: a first row whose first four cells are texts that
    [parseFloat] cannot read, or neither numbers nor texts, sets both
    coordinates to latitude 0, longitude 0, whatever they were before. *)
Theorem unreadable_cells_read_as_zero :
  ∀ (parseFloat : String.string -> Visual.jsnumber)
    (v0 v1 v2 v3 : TableVisual.PrimitiveValue) (more : list TableVisual.PrimitiveValue)
    (rows : list (list TableVisual.PrimitiveValue)) (st : TableVisual.State),
    TableVisual.unreadable parseFloat v0 -> TableVisual.unreadable parseFloat v1 ->
    TableVisual.unreadable parseFloat v2 -> TableVisual.unreadable parseFloat v3 ->
    let origin := Visual.mkCoordinate (Visual.Finite 0) (Visual.Finite 0) in
    TableVisual.parseDataView parseFloat
      (TableVisual.mkDataView (Some ((v0 :: v1 :: v2 :: v3 :: more) :: rows))) st
    = TableVisual.set_coords st (Some origin) (Some origin).
Proof.
  intros parseFloat v0 v1 v2 v3 more rows st H0 H1 H2 H3 origin.
  assert (Hzero : ∀ v, TableVisual.unreadable parseFloat v ->
                       TableVisual.parseValue parseFloat v = Visual.Finite 0).
  { intros v [->|(s & -> & Hs)]; [done|]. simpl. by rewrite Hs. }
  unfold TableVisual.parseDataView. cbn [TableVisual.table]. cbv zeta.
  rewrite !Hzero by done.
  assert (Hvalid : Visual.isValidCoordinate (Visual.Finite 0) (Visual.Finite 0) = true).
  { apply isValidCoordinate_in_range. exists 0%R, 0%R. split; [done|lra]. }
  by rewrite Hvalid.
Qed.

Lemma unreadable_cells_read_as_zero_witness :
  let origin := Visual.mkCoordinate (Visual.Finite 0) (Visual.Finite 0) in
  TableVisual.parseDataView (λ _, Visual.NaN)
    (TableVisual.mkDataView
       (Some [[TableVisual.PString String.EmptyString; TableVisual.POther;
               TableVisual.POther; TableVisual.PString String.EmptyString]]))
    TableVisual.initial
  = TableVisual.set_coords TableVisual.initial (Some origin) (Some origin).
Proof.
  apply (unreadable_cells_read_as_zero (λ _, Visual.NaN)).
  - right. by eexists.
  - by left.
  - by left.
  - right. by eexists.
Defined.

(** ** Ids that are not keys *)

Lemma astar_unkeyed graph startNode endNode :
  nodes_get graph startNode = None ∨ nodes_get graph endNode = None ->
  astar graph startNode endNode = NoPath.
Proof.
  intros Hmissing. unfold astar. apply search_exhausted. right.
  intros n. rewrite init_state_openSet. intros ->%list_elem_of_singleton.
  unfold read_f. rewrite init_state_fScore_start.
  assert (Hinf : heuristicDistance graph startNode endNode = Infinity).
  { unfold heuristicDistance. destruct Hmissing as [-> | Hend]; [done|].
    rewrite Hend. by destruct (nodes_get graph startNode). }
  by rewrite Hinf.
Qed.

(** X24. Nearest-node resolution returns the id stored in a node, not the
    key the node is stored under.  When one of the two resolved ids is not a
    key of the mapping, the call fails: with the no-path error when the two
    ids differ, whatever the edges, and on reading the position of a missing
    node when they are the same. *)
Theorem missing_node_key_errors :
  ∀ (graph : GraphData) (startCoord endCoord : Coordinate) (startNode endNode : Z),
    snaps_to graph startCoord startNode ->
    snaps_to graph endCoord endNode ->
    nodes_get graph startNode = None ∨ nodes_get graph endNode = None ->
    calculateRoute graph startCoord endCoord =
    if decide (startNode = endNode) then Throws TypeError else Throws NoPathFound.
Proof.
  intros graph startCoord endCoord startNode endNode [Hs Hs1] [He He1] Hmissing.
  unfold calculateRoute, calculateRoute_with. rewrite Hs, He.
  rewrite (bool_decide_eq_false_2 _ Hs1), (bool_decide_eq_false_2 _ He1). cbn [orb].
  destruct (decide (startNode = endNode)) as [<-|Hne].
  - rewrite bool_decide_eq_true_2 by done. by destruct Hmissing as [-> | ->].
  - rewrite (bool_decide_eq_false_2 _ Hne). by rewrite astar_unkeyed.
Qed.

Lemma unkeyed_snap_start : snaps_to unkeyed (mkCoord 0 0) 7.
Proof.
  split; [|done].
  apply (findNearestNode_exact unkeyed (mkCoord 0 0) [] 1 (mkNode 7 0 0)
           [(2, mkNode 8 0 1)]); [done| |by intros e d []].
  apply haversineDistance_same.
Qed.

Lemma unkeyed_snap_end : snaps_to unkeyed (mkCoord 0 1) 8.
Proof.
  split; [|done].
  apply (findNearestNode_exact unkeyed (mkCoord 0 1) [(1, mkNode 7 0 0)] 2
           (mkNode 8 0 1) []); [done| |].
  - apply haversineDistance_same.
  - intros e d [<-|[]]. unfold distance_to. simpl. intros ->%haversineDistance_Fin.
    rewrite haversine_sym. apply haversine_equator_pos; [|lra].
    rewrite Rabs_pos_eq; lra.
Qed.

(** ** Consistent estimates are admissible *)

(** X25. When the end node has a node in the mapping and the estimate
    towards it is consistent, dropping along every edge by no more than the
    weight of the edge, the estimate is admissible: from every node it is at
    most the cost of every walk along the edges from that node to the end
    node. *)
Theorem consistent_estimate_is_admissible :
  ∀ (graph : GraphData) (endNode : Z),
    is_Some (nodes_get graph endNode) ->
    consistent graph endNode ->
    admissible graph endNode.
Proof.
  intros graph endNode [node Hnode] Hcons n path cost Hw.
  pose proof (walk_consistent graph endNode Hcons n path endNode cost Hw) as Hle.
  assert (Hend : estimate graph endNode endNode = Fin 0).
  { apply estimate_Fin. unfold heuristicDistance. rewrite Hnode. cbv zeta.
    rewrite haversineDistance_same. simpl. do 2 f_equal. lra. }
  cbv beta in Hle. rewrite Hend in Hle.
  destruct (estimate graph n endNode) as [h|]; simpl in *; [lra|done].
Qed.

End Doubles.

(** * The theorems at work

    Instances of the theorems above on the example graphs, on the platform
    whose arithmetic never rounds the haversine term above 1 and, for the
    nodes lost to NaN, on the platform that rounds it above 1 between
    antipodes. *)



Lemma C2_weight_is_travel_time_else_length_witness :
  astar never_above_one chain3_equator 1 3 = PathFound [1; 2; 3] ∧
  (∀ cost, walk (buildAdjacencyList chain3_equator) 1 [1; 2; 3] 3 cost ↔ cost = 25%R) ∧
  ∃ st,
    rounds never_above_one chain3_equator (buildAdjacencyList chain3_equator) 3
      (init_state never_above_one chain3_equator 1 3) st ∧
    finish 3 st = PathFound [1; 2; 3] ∧
    gScore st !! 2 = Some (Fin 5) ∧
    gScore st !! 3 = Some (Fin 25).
Proof.
  apply (proj1 (proj2 (C2_weight_is_travel_time_else_length never_above_one))
           (mkCoord 0 0.002) (mkCoord 0 0.001) (mkCoord 0 0)
           (kappa * 0.002)%R (kappa * 0.001)%R).
  - apply (heuristic_towards_origin never_above_one chain3_equator 1 3 1 3);
      [done|done|lra].
  - pose proof kappa_bounds. lra.
  - apply (heuristic_towards_origin never_above_one chain3_equator 2 3 2 3);
      [done|done|lra].
Defined.

Lemma C4_same_node_single_point_witness :
  ∃ node,
    In (1, node) (nodes two_nodes) ∧
    calculateRoute never_above_one two_nodes (mkCoord 0 0) (mkCoord 0 0)
    = Returns [coord_of node] ∧
    ∀ search_from,
      calculateRoute_with never_above_one search_from two_nodes (mkCoord 0 0) (mkCoord 0 0)
      = Returns [coord_of node].
Proof.
  apply (C4_same_node_single_point never_above_one two_nodes
           (mkCoord 0 0) (mkCoord 0 0) 1).
  - exact two_nodes_well_formed.
  - exact (two_nodes_snap_first never_above_one).
  - exact (two_nodes_snap_first never_above_one).
Defined.


Lemma C7_nearest_node_lost_at_antipodes_witness :
  (nodes far_side ≠ [] ∧
   findNearestNode above_one_at_antipodes far_side (mkCoord 2.5 0) = -1 ∧
   ∀ endCoord,
     calculateRoute above_one_at_antipodes far_side (mkCoord 2.5 0) endCoord
     = Throws NearestNodeNotFound) ∧
  ∃ pre key node post d,
    nodes two_nodes = pre ++ (key, node) :: post ∧
    findNearestNode above_one_at_antipodes two_nodes (mkCoord 0 0.001) = n_id node ∧
    distance_to above_one_at_antipodes (mkCoord 0 0.001) node = Fin d ∧
    (∀ e dx, In e (nodes two_nodes) ->
       distance_to above_one_at_antipodes (mkCoord 0 0.001) (snd e) = Fin dx ->
       (d <= dx)%R) ∧
    (∀ e dx, In e pre ->
       distance_to above_one_at_antipodes (mkCoord 0 0.001) (snd e) = Fin dx ->
       (d < dx)%R).
Proof.
  destruct (C7_nearest_node_lost_at_antipodes above_one_at_antipodes) as [Hlost Hfirst].
  split.
  { apply Hlost. unfold above_one_at_antipodes. rewrite haversine_term_antipodes.
    apply bool_decide_eq_true_2. lra. }
  apply Hfirst. exists (2, mkNode 2 0 0.001%R). split; [right; by left|].
  unfold distance_to. cbn [snd lat lon n_lat n_lon].
  by rewrite haversineDistance_same.
Defined.


Lemma C10_zero_estimate_start_is_never_selected_witness :
  (astar never_above_one twin_nodes 1 2 = NoPath ∧
   walk (buildAdjacencyList twin_nodes) 1 [1; 2] 2 (5 + 0)) ∧
  (astar never_above_one mislabelled 3 4 = NoPath ∧
   calculateRoute never_above_one mislabelled (mkCoord 0 0) (mkCoord 0 1)
   = Throws NoPathFound).
Proof.
  split.
  - split.
    + apply (C10_zero_estimate_start_is_never_selected never_above_one twin_nodes 1 2
               (mkNode 1 0 0) (mkNode 2 0 0)); [done|reflexivity|reflexivity|].
      apply (haversineDistance_same never_above_one).
    + eapply walk_edge; [|apply walk_stay].
      apply neighbors_In. exists (mkEdge 1 2 1 5 None).
      split_and!; [by left|done|].
      unfold neighbor_of, edge_weight. simpl. by rewrite decide_True by lra.
  - destruct (C10_zero_estimate_start_is_never_selected never_above_one mislabelled 3 4
                (mkNode 30 0 50) (mkNode 40 0 50)) as (_ & _ & _ & Hno & Hcall);
      [done|reflexivity|reflexivity|apply (haversineDistance_same never_above_one)|].
    split; [exact Hno|].
    apply Hcall.
    + exact (mislabelled_snap_start never_above_one).
    + exact (mislabelled_snap_end never_above_one).
Defined.

Lemma route_follows_simple_walk_witness :
  ∃ path u cost,
    walk (buildAdjacencyList slow_road) u path
      (findNearestNode never_above_one slow_road (mkCoord 0 0)) cost ∧
    NoDup path ∧
    Forall2 (position_of slow_road) path [mkCoord 0 0.0001; mkCoord 0 0] ∧
    (u = findNearestNode never_above_one slow_road (mkCoord 0 0.0001) ∨
     ∃ w, In (mkNeighbor u w) (neighbors (buildAdjacencyList slow_road) 0)).
Proof.
  apply (route_follows_simple_walk never_above_one slow_road
           (mkCoord 0 0.0001) (mkCoord 0 0)).
  exact (slow_road_route never_above_one).
Defined.


Lemma closed_nodes_are_final_witness :
  1 ∈ closedSet (chain3_second_round never_above_one) ∧
  gScore (chain3_second_round never_above_one) !! 1
  = gScore (chain3_first_round never_above_one) !! 1 ∧
  fScore (chain3_second_round never_above_one) !! 1
  = fScore (chain3_first_round never_above_one) !! 1 ∧
  previous (chain3_second_round never_above_one) !! 1
  = previous (chain3_first_round never_above_one) !! 1.
Proof.
  apply (closed_nodes_are_final never_above_one chain3_equator
           (buildAdjacencyList chain3_equator) 3
           (chain3_first_round never_above_one) (chain3_second_round never_above_one) 1).
  - eapply rounds_next; [exact (chain3_round2 never_above_one)|apply rounds_here].
  - exact (chain3_first_round_closed never_above_one).
Defined.


Lemma heuristicDistance_range_witness :
  (0 <= kappa * 0.0001 <= 6371 * PI / 50 * 3600)%R ∧
  heuristicDistance never_above_one slow_road 2 2 = Fin 0.
Proof.
  split.
  - apply (heuristicDistance_range never_above_one slow_road 1 2).
    apply (slow_road_estimates never_above_one).
  - apply (heuristicDistance_range never_above_one slow_road 2 2). by eexists.
Defined.

Lemma route_depends_on_effective_weights_witness :
  calculateRoute never_above_one slow_road (mkCoord 0 0.0001) (mkCoord 0 0) =
  calculateRoute never_above_one
    (mkGraph [(1, mkNode 1 0 0.0001); (2, mkNode 2 0 0)] [mkEdge 1 2 700 5 (Some 30%R)] 0 7)
    (mkCoord 0 0.0001) (mkCoord 0 0).
Proof.
  apply (route_depends_on_effective_weights never_above_one slow_road
           (mkGraph [(1, mkNode 1 0 0.0001); (2, mkNode 2 0 0)]
                    [mkEdge 1 2 700 5 (Some 30%R)] 0 7)).
  - reflexivity.
  - unfold edge_key, edge_weight. simpl. by rewrite !decide_True by lra.
Defined.

Lemma well_formed_graph_errors_witness :
  (∃ route,
     calculateRoute never_above_one two_nodes (mkCoord 0 0) (mkCoord 0 0.001)
     = Returns route) ∨
  calculateRoute never_above_one two_nodes (mkCoord 0 0) (mkCoord 0 0.001)
  = Throws NoPathFound ∨
  (calculateRoute never_above_one two_nodes (mkCoord 0 0) (mkCoord 0 0.001)
   = Throws NearestNodeNotFound ∧
   ∃ point,
     (point = mkCoord 0 0 ∨ point = mkCoord 0 0.001) ∧
     ∀ e, In e (nodes two_nodes) -> distance_to never_above_one point (snd e) = NaN).
Proof.
  apply (well_formed_graph_errors never_above_one two_nodes
           (mkCoord 0 0) (mkCoord 0 0.001)).
  - exact two_nodes_well_formed.
  - intros key node [[= <- <-]|[[= <- <-]|[]]]; done.
Defined.

Lemma findNearestNode_on_node_witness :
  (∃ key' node',
     In (key', node') (nodes two_nodes) ∧
     findNearestNode never_above_one two_nodes (coord_of (mkNode 2 0 0.001)) = n_id node' ∧
     distance_to never_above_one (coord_of (mkNode 2 0 0.001)) node' = Fin 0) ∧
  ((∀ e d, In e (nodes two_nodes) -> e ≠ (2, mkNode 2 0 0.001) ->
           distance_to never_above_one (coord_of (mkNode 2 0 0.001)) (snd e) = Fin d ->
           (0 < d)%R) ->
   findNearestNode never_above_one two_nodes (coord_of (mkNode 2 0 0.001))
   = n_id (mkNode 2 0 0.001)).
Proof.
  apply (findNearestNode_on_node never_above_one two_nodes 2 (mkNode 2 0 0.001)).
  right. by left.
Defined.


Lemma nodes_are_expanded_once_witness :
  NoDup (closedSet (chain3_second_round never_above_one)) ∧
  (length (closedSet (chain3_second_round never_above_one))
   <= S (length (edges chain3_equator)))%nat ∧
  NoDup (openSet (chain3_second_round never_above_one)) ∧
  ∀ n, n ∈ openSet (chain3_second_round never_above_one) ->
       n ∉ closedSet (chain3_second_round never_above_one).
Proof.
  apply (nodes_are_expanded_once never_above_one chain3_equator 1 3
           (chain3_second_round never_above_one)).
  exact (chain3_rounds_second never_above_one).
Defined.

Lemma scores_never_increase_witness :
  (2 ∈ openSet (chain3_second_round never_above_one) ∨
   2 ∈ closedSet (chain3_second_round never_above_one)) ∧
  ∃ r1,
    gScore (chain3_second_round never_above_one) !! 2 = Some (Fin r1) ∧ (r1 <= 0 + 5)%R.
Proof.
  apply (scores_never_increase never_above_one chain3_equator 1 3
           (chain3_first_round never_above_one) (chain3_second_round never_above_one) 2).
  - exact chain3_equator_positive.
  - eapply rounds_next; [exact (chain3_round1 never_above_one)|apply rounds_here].
  - eapply rounds_next; [exact (chain3_round2 never_above_one)|apply rounds_here].
  - left. exact (chain3_first_round_met never_above_one).
  - exact (chain3_first_round_score never_above_one).
Defined.


Lemma view_after_effect_witness :
  let props :=
    mkProps (Some (mkCoord 0 0.0001)) (Some (mkCoord 0 0)) (Some slow_road) 400 300 in
  ∃ st1,
    route_effect never_above_one props
      (mkComponentState [mkCoord 5 5] (Some GraphDataNotLoaded) true)
    = Some st1 ∧
    loading st1 = false ∧
    ((∃ route,
        calculateRoute never_above_one slow_road (mkCoord 0 0.0001) (mkCoord 0 0)
        = Returns route ∧
        st1 = mkComponentState route None false ∧
        render props st1 =
          MapView (map_layout route (mkCoord 0 0.0001) (mkCoord 0 0)) route
            (mkCoord 0 0.0001) (mkCoord 0 0) 400 300) ∨
     (∃ err,
        calculateRoute never_above_one slow_road (mkCoord 0 0.0001) (mkCoord 0 0)
        = Throws err ∧
        st1 = mkComponentState [] (Some (MessageOf err)) false ∧
        render props st1 = ErrorView (MessageOf err))).
Proof.
  apply (view_after_effect never_above_one
           (mkProps (Some (mkCoord 0 0.0001)) (Some (mkCoord 0 0)) (Some slow_road) 400 300)
           slow_road (mkCoord 0 0.0001) (mkCoord 0 0)
           (mkComponentState [mkCoord 5 5] (Some GraphDataNotLoaded) true));
    reflexivity.
Defined.

Lemma route_ends_at_resolved_nodes_witness :
  ∃ ns ne,
    nodes_get slow_road 1 = Some ns ∧ nodes_get slow_road 2 = Some ne ∧
    head [mkCoord 0 0.0001; mkCoord 0 0] = Some (coord_of ns) ∧
    last [mkCoord 0 0.0001; mkCoord 0 0] = Some (coord_of ne) ∧
    ∀ c, In c [mkCoord 0 0.0001; mkCoord 0 0] ->
         ∃ key node, nodes_get slow_road key = Some node ∧ c = coord_of node.
Proof.
  apply (route_ends_at_resolved_nodes never_above_one slow_road
           (mkCoord 0 0.0001) (mkCoord 0 0) 1 2).
  - exact (slow_road_snap_start never_above_one).
  - exact (slow_road_snap_end never_above_one).
  - intros edge [<-|[]]. done.
  - exact (slow_road_route never_above_one).
Defined.

Lemma missing_node_key_errors_witness :
  calculateRoute never_above_one unkeyed (mkCoord 0 0) (mkCoord 0 1) = Throws NoPathFound ∧
  calculateRoute never_above_one unkeyed (mkCoord 0 0) (mkCoord 0 0) = Throws TypeError.
Proof.
  split.
  - apply (missing_node_key_errors never_above_one unkeyed (mkCoord 0 0) (mkCoord 0 1) 7 8).
    + exact (unkeyed_snap_start never_above_one).
    + exact (unkeyed_snap_end never_above_one).
    + by left.
  - apply (missing_node_key_errors never_above_one unkeyed (mkCoord 0 0) (mkCoord 0 0) 7 7).
    + exact (unkeyed_snap_start never_above_one).
    + exact (unkeyed_snap_start never_above_one).
    + by left.
Defined.

Lemma consistent_estimate_is_admissible_witness : admissible never_above_one slow_road 2.
Proof.
  apply (consistent_estimate_is_admissible never_above_one slow_road 2).
  - by eexists.
  - exact (slow_road_consistent never_above_one).
Defined.
